(** * Estimation task: block randomizer, text wrapping, layout and zone
    reconciliation

    A shallow embedding of the algorithmic core of the estimation-task
    repository:

    - [Randomizer]: [blockRandomize] of the server (permuted blocks of four);
    - [Text]: [approxW] and [wrap] of [process-map-svg.js];
    - [Layout]: [stepDims], [expansionH], [computeLayout];
    - [Reconcile]: [topY], [bottomY], [adjustLayoutForZoneMinHeights];
    - [Svg]: the escaping [E] and [tag] of [process-map-svg.js];
    - [Render]: the connectors of [drawContent], the brackets and labels of
      [drawZones], [internalRender] with its click handler, [renderBlock],
      and the two-pass card positioning of the page;
    - [Server]: the session and submission handlers and the CSV export;
    - [Stats]: [median], [mean], [fmtSec] and the counts of the statistics
      endpoint.

    Numbers.  The text metrics ([approxW], the character budget of [wrap],
    the name width of [stepDims]) are computed in IEEE binary64, with the
    primitive floats of Rocq, as JavaScript computes them.  Layout
    coordinates are rationals ([Q]): the layout engine only adds integers
    taken from its configuration, which binary64 does exactly.  Zone
    reconciliation subtracts and divides heights that its caller measured;
    it is modelled in exact arithmetic, and [exactPass] describes the
    passes in which binary64 does not round.  The statistics of the server
    are exact rationals as well.  The draws of [Math.random()] are
    rationals in [[0, 1)].

    Strings are [string], one character per code unit. *)

From Stdlib Require Import List String Ascii Bool Arith ZArith QArith Qround.
From Stdlib Require Import Lia ZifyNat Lqa Permutation Sorted.
From Stdlib Require Import DecimalString DecimalNat Floats Uint63.

Import ListNotations.
Set Warnings "-inexact-float".

Local Close Scope Q_scope.
Local Open Scope string_scope.
Local Open Scope list_scope.
Local Open Scope nat_scope.

(** ** General helpers *)

(** [x < y] on rationals as a boolean. *)
Definition Qltb (x y : Q) : bool := negb (Qle_bool y x).

(** JavaScript truthiness of a string: only the empty string is falsy. *)
Definition truthy (s : string) : bool :=
  match s with EmptyString => false | String _ _ => true end.

(** Number of occurrences of a string in a list
    ([xs.filter(c => c === x).length]). *)
Definition count (x : string) (xs : list string) : nat :=
  List.length (filter (String.eqb x) xs).

(** Array write [l[i] = v] for an index inside the array. *)
Fixpoint set_nth {A} (i : nat) (v : A) (l : list A) : list A :=
  match l, i with
  | [], _ => []
  | _ :: t, O => v :: t
  | h :: t, S i' => h :: set_nth i' v t
  end.

(** ** The block randomizer (server, [blockRandomize]) *)

Module Randomizer.

Definition BLOCK_SIZE : nat := 4.
Definition CONDITIONS : list string := ["detailed"; "simple"].

(** A line of [sessions.jsonl] as far as the randomizer reads it.
    [condition = None] stands for a missing or null field. *)
Record Session := mkSession {
  condition : option string;
  condition_forced : bool
}.

(** The function object's own property [_currentBlock] together with the
    number of [Math.random()] draws made so far. *)
Record RState := mkRState {
  currentBlock : option (list string);
  draws : nat
}.

(** State-passing computations over [RState]. *)
Definition M (A : Type) : Type := RState -> A * RState.

Definition ret {A} (a : A) : M A := fun s => (a, s).
Definition bind {A B} (m : M A) (f : A -> M B) : M B :=
  fun s => let (a, s') := m s in f a s'.

Notation "x <- m ;; k" := (bind m (fun x => k))
  (at level 61, m at next level, right associativity).
Notation "m ;;; k" := (bind m (fun _ => k))
  (at level 61, right associativity).

Definition getBlock : M (option (list string)) :=
  fun s => (currentBlock s, s).
Definition setBlock (b : list string) : M unit :=
  fun s => (tt, mkRState (Some b) (draws s)).

(** [.filter(s => !s.condition_forced && s.condition).map(s => s.condition)] *)
Definition counted (s : Session) : bool :=
  negb (condition_forced s) &&
  match condition s with Some c => truthy c | None => false end.

Definition assignedOf (existingSessions : list Session) : list string :=
  flat_map (fun s => match condition s with Some c => [c] | None => [] end)
           (filter counted existingSessions).

(** [[block[i], block[j]] = [block[j], block[i]]] for indices inside the
    array (the only case the shuffle reaches, since [0 <= Math.random() < 1]). *)
Definition swap (i j : nat) (block : list string) : list string :=
  match nth_error block i, nth_error block j with
  | Some bi, Some bj => set_nth j bi (set_nth i bj block)
  | _, _ => block
  end.

(** [expected.every((c, i) => c === actual[i])] *)
Fixpoint every_eq (expected actual : list string) : bool :=
  match expected, actual with
  | [], _ => true
  | _ :: _, [] => false
  | c :: e', a :: a' => String.eqb c a && every_eq e' a'
  end.

(** [arr.slice(-k)] for [k > 0]: the last [k] elements. *)
Definition slice_last {A} (k : nat) (l : list A) : list A :=
  skipn (List.length l - k) l.

(** The block before shuffling: [BLOCK_SIZE / 2] copies of each condition. *)
Definition unshuffled : list string :=
  flat_map (fun c => repeat c (BLOCK_SIZE / 2)) CONDITIONS.

Section WithRandom.

(** The sequence of values [Math.random()] returns, by draw number. *)
Variable Math_random : nat -> Q.

Definition random : M Q :=
  fun s => (Math_random (draws s), mkRState (currentBlock s) (S (draws s))).

(** [Math.floor(Math.random() * (i + 1))], the product taken exactly.  In
    binary64 the product can round up to the next integer, which is still
    an index of at most [i]; what is proved below holds for every sequence
    of draws, hence for every sequence of indices the shuffle can use. *)
Definition randomIndex (i : nat) : M nat :=
  r <- random ;;
  ret (Z.to_nat (Qfloor (r * inject_Z (Z.of_nat (i + 1))))).

(** [for (let i = block.length - 1; i > 0; i--) { ... swap ... }];
    the argument counts [i] down to 1. *)
Fixpoint shuffleFrom (i : nat) (block : list string) : M (list string) :=
  match i with
  | O => ret block
  | S i' =>
      j <- randomIndex i ;;
      shuffleFrom i' (swap i j block)
  end.

Definition fisherYates (block : list string) : M (list string) :=
  shuffleFrom (List.length block - 1) block.

Definition blockRandomize (existingSessions : list Session) : M string :=
  let assigned := assignedOf existingSessions in
  let total := List.length assigned in
  let posInBlock := total mod BLOCK_SIZE in
  if Nat.eqb posInBlock 0 then
    block <- fisherYates unshuffled ;;
    setBlock block ;;;
    ret (nth 0 block "")
  else
    cur <- getBlock ;;
    let fromBlock :=
      match cur with
      | Some b =>
          if Nat.eqb (List.length b) BLOCK_SIZE
             && every_eq (firstn posInBlock b) (slice_last posInBlock assigned)
          then Some (nth posInBlock b "")
          else None
      | None => None
      end in
    match fromBlock with
    | Some c => ret c
    | None =>
        let detailedCount := count "detailed" assigned in
        let simpleCount := count "simple" assigned in
        if Nat.ltb detailedCount simpleCount then ret "detailed"
        else if Nat.ltb simpleCount detailedCount then ret "simple"
        else
          r <- random ;;
          ret (if Qltb r (1 # 2) then "detailed" else "simple")
    end.

(** The session-creation handler for a request that does not force a
    condition: the label comes from [blockRandomize] and the record is
    appended with [condition_forced = false]. *)
Definition createSession (log : list Session) : M (string * list Session) :=
  c <- blockRandomize log ;;
  ret (c, log ++ [mkSession (Some c) false]).

(** [n] such requests in a row; returns the labels handed out and the log. *)
Fixpoint createSessions (n : nat) (log : list Session)
  : M (list string * list Session) :=
  match n with
  | O => ret ([], log)
  | S n' =>
      r <- createSession log ;;
      rest <- createSessions n' (snd r) ;;
      ret (fst r :: fst rest, snd rest)
  end.

End WithRandom.

(** Every draw lies in [[0, 1)], as [Math.random()] promises. *)
Definition unit_interval (rnd : nat -> Q) : Prop :=
  forall k, (0 <= rnd k)%Q /\ (rnd k < 1)%Q.

(** The [k]-th block of four of a list of labels. *)
Definition blockAt (k : nat) (labels : list string) : list string :=
  firstn BLOCK_SIZE (skipn (k * BLOCK_SIZE) labels).

(** The window of four labels starting at index [i]. *)
Definition windowAt (i : nat) (labels : list string) : list string :=
  firstn BLOCK_SIZE (skipn i labels).

Definition balanced (w : list string) : Prop :=
  count "detailed" w = BLOCK_SIZE / 2 /\ count "simple" w = BLOCK_SIZE / 2.

(** A cache as [blockRandomize] itself leaves it: absent, or a shuffle of
    the unshuffled block. *)
Definition cache_ok (s : RState) : Prop :=
  match currentBlock s with
  | None => True
  | Some b => Permutation b unshuffled
  end.

(** The cached block can be used at position [pos]: it is there, has
    [BLOCK_SIZE] elements, and its first [pos] elements are the last [pos]
    counted assignments. *)
Definition cache_usable (cur : option (list string)) (pos : nat)
    (assigned : list string) : Prop :=
  exists b, cur = Some b /\ List.length b = BLOCK_SIZE /\
            firstn pos b = slice_last pos assigned.

(** What holds between two requests, for blocks that start at or after the
    [m]-th counted assignment: complete blocks are balanced, and inside an
    open block the cache is the block's permutation and agrees with the log. *)
Definition Inv (m : nat) (log : list Session) (s : RState) : Prop :=
  let a := assignedOf log in
  let pos := List.length a mod BLOCK_SIZE in
  cache_ok s /\
  (forall k, m <= k * BLOCK_SIZE -> k * BLOCK_SIZE + BLOCK_SIZE <= List.length a ->
             balanced (blockAt k a)) /\
  (pos <> 0 -> m <= List.length a - pos ->
   exists b, currentBlock s = Some b /\ firstn pos b = slice_last pos a).

(** The state of a freshly started server ([_currentBlock = null]). *)
Definition freshState : RState := mkRState None 0.

(** Projections of the result of [createSessions]. *)
Definition labelsOf {S} (r : list string * list Session * S) : list string :=
  fst (fst r).
Definition logOf {S} (r : list string * list Session * S) : list Session :=
  snd (fst r).

(** A run of [Math.random()] in which the first shuffle leaves the block as
    built and the second one reverses its halves. *)
Definition drawsTwoBlocks (k : nat) : Q :=
  match k with
  | 0 | 1 | 2 => 3 # 4
  | 3 => 0
  | _ => 1 # 2
  end.

End Randomizer.

(** ** Text metrics ([approxW], [wrap]) *)

Module Text.

(** The value of [Math.floor(x)]: an integer, or one of the three
    non-numbers a division can produce. *)
Inductive jsint : Type :=
| Int (z : Z)
| PosInf
| NegInf
| NaN.

Definition Math_floor (x : float) : jsint :=
  match Prim2SF x with
  | S754_zero _ => Int 0
  | S754_infinity false => PosInf
  | S754_infinity true => NegInf
  | S754_nan => NaN
  | S754_finite s m e =>
      (* the value is [+/- m * 2^e] *)
      let v := (if s then - Z.pos m else Z.pos m)%Z in
      if (0 <=? e)%Z then Int (v * 2 ^ e) else Int (v / 2 ^ (- e))
  end.

(** A string length as a number. *)
Definition num_of_nat (n : nat) : float := of_uint63 (Uint63.of_Z (Z.of_nat n)).

(** [str.length * fontSize * 0.57] *)
Definition approxW (str : string) (fontSize : float) : float :=
  (num_of_nat (String.length str) * fontSize * 0.57)%float.

(** The estimated width of [n] characters. *)
Definition widthOf (n : nat) (fontSize : float) : float :=
  (num_of_nat n * fontSize * 0.57)%float.

(** [n <= maxChars] and [n > maxChars] for a length [n]. *)
Definition le_len (n : nat) (maxChars : jsint) : bool :=
  match maxChars with
  | Int z => (Z.of_nat n <=? z)%Z
  | PosInf => true
  | NegInf | NaN => false
  end.

Definition gt_len (n : nat) (maxChars : jsint) : bool :=
  match maxChars with
  | Int z => (z <? Z.of_nat n)%Z
  | NegInf => true
  | PosInf | NaN => false
  end.

Definition space : ascii := " "%char.

(** [str.split(' ')]: the pieces between single spaces, empty pieces
    included; never the empty list. *)
Fixpoint split_space (s : string) : list string :=
  match s with
  | EmptyString => [""]
  | String c rest =>
      if Ascii.eqb c space then "" :: split_space rest
      else match split_space rest with
           | w :: ws => String c w :: ws
           | [] => [String c ""]
           end
  end.

(** One turn of the loop [for (const w of words)], on [(lines, cur)]. *)
Definition wrapStep (maxChars : jsint) (st : list string * string) (w : string)
  : list string * string :=
  let (lines, cur) := st in
  let test := if truthy cur then (cur ++ " " ++ w)%string else w in
  if gt_len (String.length test) maxChars && truthy cur
  then (lines ++ [cur], w)
  else (lines, test).

(** [if (cur) lines.push(cur); return lines;] *)
Definition wrapFinish (st : list string * string) : list string :=
  let (lines, cur) := st in
  if truthy cur then lines ++ [cur] else lines.

(** [wrap] once [maxChars] is known. *)
Definition wrapChars (maxChars : jsint) (str : string) : list string :=
  if le_len (String.length str) maxChars then [str]
  else wrapFinish (fold_left (wrapStep maxChars) (split_space str) ([], "")).

(** [Math.floor(maxPx / (fontSize * 0.57))] *)
Definition maxCharsOf (maxPx fontSize : float) : jsint :=
  Math_floor (maxPx / (fontSize * 0.57))%float.

Definition wrap (str : string) (maxPx fontSize : float) : list string :=
  wrapChars (maxCharsOf maxPx fontSize) str.

(** [lines.join(' ')] *)
Definition joinSpace (lines : list string) : string := String.concat " " lines.

(** The words of a string: its non-empty pieces between spaces. *)
Definition words (s : string) : list string := filter truthy (split_space s).

(** A string normalized to single internal spaces: its words, one space
    between two of them, none before the first or after the last. *)
Definition normalize (s : string) : string := joinSpace (words s).

(** Does the string contain a space? *)
Fixpoint hasSpace (s : string) : bool :=
  match s with
  | EmptyString => false
  | String c rest => Ascii.eqb c space || hasSpace rest
  end.

(** The character test of [wrap] on a finished line: the line is not
    longer than [maxChars], or it holds no space. *)
Definition lineOk (maxChars : jsint) (line : string) : Prop :=
  gt_len (String.length line) maxChars = false \/ hasSpace line = false.

(** The number of lines the loop of [wrap] returns from a state. *)
Definition lineCount (st : list string * string) : nat :=
  List.length (wrapFinish st).

(** Lines of up to [k] characters are at most [maxPx] wide at the font
    size [fontSize], as binary64 computes the widths. *)
Definition fitsUpTo (k : nat) (fontSize maxPx : float) : bool :=
  forallb (fun n => PrimFloat.leb (widthOf n fontSize) maxPx) (seq 0 (S k)).

End Text.

(** ** The layout engine ([stepDims], [expansionH], [computeLayout]) *)

Module Layout.
Import Text.
Local Open Scope Q_scope.

(** *** The process description ([PROCESS_MAP]) *)

Record HiddenAction := mkHiddenAction {
  description : string;
  actionType : string
}.

Record ErrorLoop := mkErrorLoop {
  condition : string;
  target : string
}.

Record Step := mkStep {
  id : string;
  name : string;
  actionTypes : list string;
  isDecisionPoint : bool;
  decisionOutcome : option string;
  errorLoop : option ErrorLoop;
  hiddenActions : list HiddenAction
}.

Record Phase := mkPhase {
  phaseId : string;
  phaseName : string;
  color : string;
  steps : list Step
}.

Record ProcessMap := mkProcessMap {
  phases : list Phase
}.

(** *** Configuration ([CFG]), as far as the layout reads it *)

Module CFG.
Definition canvasPad : Z := 36.
Definition phaseGap : Z := 28.
Definition phasePadX : Z := 22.
Definition phasePadY : Z := 14.
Definition phaseLabelH : Z := 34.
Definition stepW : Z := 480.
Definition stepMinH : Z := 56.
Definition stepPadTop : Z := 12.
Definition stepPadBottom : Z := 10.
Definition stepNameLineH : Z := 17.
Definition stepBadgeRowH : Z := 22.
Definition stepNameBadgeGap : Z := 6.
Definition stepGap : Z := 14.
Definition decisionSize : Z := 50.
Definition circleR : Z := 16.
Definition loopOffX : Z := 46.
Definition stepFontSz : Z := 12.
Definition expPadTop : Z := 10.
Definition expPadBottom : Z := 10.
Definition expLabelH : Z := 16.
Definition expLabelGap : Z := 6.
Definition expActionLineH : Z := 15.
Definition expActionGap : Z := 4.
Definition expActionFontSz : Z := 11.
Definition expErrorH : Z := 18.
End CFG.

(** An integer of the configuration as a coordinate and as a binary64
    number. *)
Definition q (z : Z) : Q := inject_Z z.
Definition fl (z : Z) : float := of_uint63 (Uint63.of_Z z).

(** [arr.length] as a coordinate. *)
Definition qlen {A} (l : list A) : Q := inject_Z (Z.of_nat (List.length l)).

Definition PHASE_INNER_W : Q := q CFG.stepW + q CFG.phasePadX * 2.
Definition BAND_EXTRA : Q := q CFG.loopOffX + 30.
Definition FULL_W : Q := PHASE_INNER_W + q CFG.canvasPad * 2 + BAND_EXTRA.

(** [Math.max] on coordinates. *)
Definition Math_max (a b : Q) : Q := if Qltb a b then b else a.

(** *** Step dimensions *)

Record Dims := mkDims {
  lines : list string;
  nameH : Q;
  idW : float;
  dims_h : Q
}.

(** [step.hiddenActions.length > 0 || step.errorLoop] *)
Definition hasExp (step : Step) : bool :=
  match hiddenActions step with
  | _ :: _ => true
  | [] => match errorLoop step with Some _ => true | None => false end
  end.

(** The pixel width left for the name, and the character budget that
    [wrap] derives from it. *)
Definition nameW (step : Step) : float :=
  (fl CFG.stepW - (approxW (id step) 10 + 14)
   - (if hasExp step then 40 else 0) - 32)%float.

Definition stepDims (step : Step) : Dims :=
  let idW := (approxW (id step) 10 + 14)%float in
  let indicatorW := (if hasExp step then 40 else 0)%float in
  let nameW := (fl CFG.stepW - idW - indicatorW - 32)%float in
  let lines := wrap (name step) nameW (fl CFG.stepFontSz) in
  let nameH := qlen lines * q CFG.stepNameLineH in
  let h := q CFG.stepPadTop + nameH + q CFG.stepNameBadgeGap
           + q CFG.stepBadgeRowH + q CFG.stepPadBottom in
  mkDims lines nameH idW (Math_max h (q CFG.stepMinH)).

Definition expansionH (step : Step) : Q :=
  match hiddenActions step, errorLoop step with
  | [], None => 0
  | _, _ =>
      let h := q CFG.expPadTop in
      let h :=
        match hiddenActions step with
        | [] => h
        | _ :: _ =>
            fold_left
              (fun h a =>
                 let lines := wrap (description a) (fl CFG.stepW - 50)%float
                                   (fl CFG.expActionFontSz) in
                 h + (qlen lines * q CFG.expActionLineH + q CFG.expActionGap))
              (hiddenActions step)
              (h + (q CFG.expLabelH + q CFG.expLabelGap))
        end in
      let h := match errorLoop step with
               | Some _ => h + (4 + q CFG.expErrorH)
               | None => h
               end in
      h + q CFG.expPadBottom
  end.

(** *** Layout elements *)

Inductive Elem : Type :=
| Start (x y r : Q)
| End_ (x y r : Q)
| Task (step : Step) (phase : Phase) (dims : Dims)
       (x y w h : Q) (isExpanded : bool) (expH : Q)
| Decision (step : Step) (phase : Phase) (x y size : Q)
           (lblLines : list string)
| Band (phase : Phase) (x y w h : Q).

Record LayoutT := mkLayout {
  elems : list Elem;
  layout_w : Q;
  layout_h : Q;
  cx : Q
}.

(** *** The renderer's module state *)

(** The variables of the [ProcessMapSVG] closure.  [expandedSteps] is the
    [Set] of expanded step ids, kept as the list of its members. *)
Record ModuleState := mkModuleState {
  expandedSteps : list string;
  currentContainerId : option string;
  idPrefix : string;
  blockCounter : nat;
  lastLayout : option LayoutT
}.

(** [expandedSteps.has(id)] *)
Definition has (set : list string) (x : string) : bool :=
  existsb (String.eqb x) set.

(** *** [computeLayout] *)

(** The loop over the steps of one phase, on [(elems, y)]. *)
Definition layoutStep (st : ModuleState) (cx : Q) (phase : Phase)
    (acc : list Elem * Q) (step : Step) : list Elem * Q :=
  let (elems, y) := acc in
  if isDecisionPoint step then
    let lblLines := wrap (name step) (fl CFG.stepW * 0.65)%float 10 in
    let lblH := match decisionOutcome step with
                | Some o => if truthy o then 2 * 13 + 4
                            else qlen lblLines * 13 + 4
                | None => qlen lblLines * 13 + 4
                end in
    (elems ++ [Decision step phase cx (y + q CFG.decisionSize / 2)
                        (q CFG.decisionSize) lblLines],
     y + (q CFG.decisionSize + lblH + 10))
  else
    let dims := stepDims step in
    let isExpanded := has (expandedSteps st) (id step) in
    let expH := if isExpanded then expansionH step else 0 in
    (elems ++ [Task step phase dims (cx - q CFG.stepW / 2) y
                    (q CFG.stepW) (dims_h dims) isExpanded expH],
     y + (dims_h dims + expH + q CFG.stepGap)).

(** The loop over the phases. *)
Definition layoutPhase (st : ModuleState) (cx : Q)
    (acc : list Elem * Q) (phase : Phase) : list Elem * Q :=
  let (elems, y) := acc in
  let py0 := y in
  let y := y + (q CFG.phaseLabelH + q CFG.phasePadY) in
  let (elems, y) := fold_left (layoutStep st cx phase) (steps phase) (elems, y) in
  let y := y + q CFG.phasePadY in
  (elems ++ [Band phase (q CFG.canvasPad) py0
                  (PHASE_INNER_W + BAND_EXTRA) (y - py0)],
   y + q CFG.phaseGap).

Definition computeLayout (PROCESS_MAP : ProcessMap) (st : ModuleState)
  : LayoutT :=
  let y := q CFG.canvasPad in
  let cx := q CFG.canvasPad + q CFG.phasePadX + q CFG.stepW / 2 in
  let elems := [Start cx (y + q CFG.circleR) (q CFG.circleR)] in
  let y := y + (q CFG.circleR * 2 + 18) in
  let (elems, y) := fold_left (layoutPhase st cx) (phases PROCESS_MAP) (elems, y) in
  let elems := elems ++ [End_ cx (y + q CFG.circleR) (q CFG.circleR)] in
  let y := y + (q CFG.circleR * 2 + q CFG.canvasPad) in
  mkLayout elems FULL_W y cx.

(** The step with another name. *)
Definition withName (step : Step) (n : string) : Step :=
  mkStep (id step) n (actionTypes step) (isDecisionPoint step)
         (decisionOutcome step) (errorLoop step) (hiddenActions step).

(** *** Sample data *)

Definition sampleStep : Step :=
  mkStep "1.1" "Read the research consent form and agree to participate"
         ["Information: Reading"; "Decision: Choosing"] false None None [].

Definition sampleStep2 : Step :=
  mkStep "2.1" "Enter the reference number"
         ["Input: Typing"] false None
         (Some (mkErrorLoop "Format does not match ID-XXXXXX" "self"))
         [mkHiddenAction "Open the document in the side panel" "Search"].

Definition sampleMap : ProcessMap :=
  mkProcessMap
    [mkPhase "understanding" "Understanding the Task" "#2B8A3E" [sampleStep];
     mkPhase "application" "Filling in the Application" "#1971C2" [sampleStep2]].

Definition sampleState : ModuleState := mkModuleState [] None "pm" 0 None.

(** Two words of 40 characters (81 characters), and one word of 82. *)
Definition twoWords81 : string :=
  "aaaaaaaaaaaaaaaaaaaaaaaaaaaaaaaaaaaaaaaa bbbbbbbbbbbbbbbbbbbbbbbbbbbbbbbbbbbbbbbb".
Definition oneWord82 : string :=
  "cccccccccccccccccccccccccccccccccccccccccccccccccccccccccccccccccccccccccccccccccc".

(** Sixty spaces. *)
Definition spaces60 : string :=
  "                                                            ".

End Layout.

(** ** Zone reconciliation ([adjustLayoutForZoneMinHeights]) *)

Module Reconcile.
Import Layout.
Local Open Scope Q_scope.

(** An estimation zone: the step ids of one estimation block. *)
Record Zone := mkZone {
  stepIds : list string;
  zoneColor : string
}.

Definition topY (e : Elem) : Q :=
  match e with
  | Start _ y r | End_ _ y r => y - r
  | Task _ _ _ _ y _ _ _ _ => y
  | Decision _ _ _ y size _ => y - size / 2
  | Band _ _ y _ _ => y
  end.

(** For a task, [e.expH || 0] is [e.expH]. *)
Definition bottomY (e : Elem) : Q :=
  match e with
  | Start _ y r | End_ _ y r => y + r
  | Task _ _ _ _ y _ h _ expH => y + h + expH
  | Decision _ _ _ y size _ => y + size / 2
  | Band _ _ y _ _ => y
  end.

(** [(e.type === 'task' || e.type === 'decision') &&
     zone.stepIds.includes(e.step.id)] *)
Definition isMember (zone : Zone) (e : Elem) : bool :=
  match e with
  | Task step _ _ _ _ _ _ _ _ | Decision step _ _ _ _ _ =>
      existsb (String.eqb (id step)) (stepIds zone)
  | _ => false
  end.

(** [arr.sort((a, b) => key(a) - key(b))]: the stable sort by [key]. *)
Fixpoint insert_by {A} (key : A -> Q) (x : A) (l : list A) : list A :=
  match l with
  | [] => [x]
  | y :: t => if Qle_bool (key x) (key y) then x :: y :: t
              else y :: insert_by key x t
  end.

Definition sort_by {A} (key : A -> Q) (l : list A) : list A :=
  fold_right (insert_by key) [] l.

Record Boundary := mkBoundary {
  boundaryY : Q;
  cumulShift : Q
}.

(** [for (i = 0; i < n - 1; i++)
      boundaries.push({ y: bottomY(stepElems[i]), cumulShift: (i + 1) * gapExtra })] *)
Definition gapBoundaries (stepElems : list Elem) (gapExtra : Q) : list Boundary :=
  map (fun ie : nat * Elem =>
         mkBoundary (bottomY (snd ie))
                    (inject_Z (Z.of_nat (fst ie + 1)) * gapExtra))
      (combine (seq 0 (List.length stepElems - 1)) stepElems).

(** [for (const b of boundaries) if (ey > b.y) shift = Math.max(shift, b.cumulShift)] *)
Definition shiftAt (boundaries : list Boundary) (ey : Q) : Q :=
  fold_left (fun shift b =>
               if Qltb (boundaryY b) ey then Math_max shift (cumulShift b)
               else shift)
            boundaries 0.

(** [e.y += d] *)
Definition moveY (d : Q) (e : Elem) : Elem :=
  match e with
  | Start x y r => Start x (y + d) r
  | End_ x y r => End_ x (y + d) r
  | Task s p dm x y w h ie eh => Task s p dm x (y + d) w h ie eh
  | Decision s p x y size l => Decision s p x (y + d) size l
  | Band p x y w h => Band p x (y + d) w h
  end.

(** The body of [for (const e of layout.elems)]; the additions are exact
    (see [exactPass] below for when those of binary64 are). *)
Definition adjustElem (boundaries : list Boundary) (e : Elem) : Elem :=
  match e with
  | Band p x y w h =>
      let topShift := shiftAt boundaries y in
      let botShift := shiftAt boundaries (y + h) in
      Band p x (y + topShift) w (h + (botShift - topShift))
  | _ =>
      let shift := shiftAt boundaries (topY e) in
      if Qltb 0 shift then moveY shift e else e
  end.

(** The zone's member elements, sorted by their tops. *)
Definition zoneElems (layout : LayoutT) (zone : Zone) : list Elem :=
  sort_by topY (filter (isMember zone) (elems layout)).

(** The boundaries built for a zone that is [delta] short. *)
Definition zoneBoundaries (stepElems : list Elem) (yMax delta : Q)
  : list Boundary :=
  let n := List.length stepElems in
  sort_by boundaryY
    ((if (1 <? n)%nat
      then gapBoundaries stepElems (delta / inject_Z (Z.of_nat (n - 1)))
      else [])
     ++ [mkBoundary yMax delta]).

(** One turn of the loop over the zones; [reqMin] is [minHeights[idx]],
    [None] when the array has no such index.  The subtraction and the
    division are exact (see [exactPass] below for when those of binary64
    are). *)
Definition adjustZone (layout : LayoutT) (zone : Zone) (reqMin : option Q)
  : LayoutT :=
  match reqMin with
  | None => layout
  | Some reqMin =>
      if Qle_bool reqMin 0 then layout
      else
        match zoneElems layout zone with
        | [] => layout
        | (first :: _) as stepElems =>
            let yMin := topY first in
            let yMax := bottomY (last stepElems first) in
            let currentH := yMax - yMin in
            if Qle_bool reqMin currentH then layout
            else
              let delta := reqMin - currentH in
              let boundaries := zoneBoundaries stepElems yMax delta in
              mkLayout (map (adjustElem boundaries) (elems layout))
                       (layout_w layout)
                       (layout_h layout + delta)
                       (cx layout)
        end
  end.

(** [for (let idx = 0; idx < zones.length; idx++)], with [minHeights]
    advanced in step so that its head is [minHeights[idx]]. *)
Fixpoint adjustLoop (layout : LayoutT) (zones : list Zone)
    (minHeights : list Q) : LayoutT :=
  match zones with
  | [] => layout
  | zone :: rest =>
      adjustLoop (adjustZone layout zone (hd_error minHeights)) rest
                 (tl minHeights)
  end.

(** The arguments are [None] when null or undefined. *)
Definition adjustLayoutForZoneMinHeights (layout : LayoutT)
    (zones : option (list Zone)) (minHeights : option (list Q)) : LayoutT :=
  match zones, minHeights with
  | Some zs, Some ms => adjustLoop layout zs ms
  | _, _ => layout
  end.

(** *** Notions used to state the properties *)

(** The span of a zone: bottom of its last member minus top of its first;
    [None] when no element belongs to it. *)
Definition span (layout : LayoutT) (zone : Zone) : option Q :=
  match zoneElems layout zone with
  | [] => None
  | (first :: _) as stepElems => Some (bottomY (last stepElems first) - topY first)
  end.

(** The delta applied for one zone, if any. *)
Definition zoneDelta (layout : LayoutT) (zone : Zone) (reqMin : option Q)
  : option Q :=
  match reqMin, span layout zone with
  | Some r, Some s => if Qltb 0 r && Qltb s r then Some (r - s) else None
  | _, _ => None
  end.

(** The deltas applied along the loop, each on the layout as shifted so
    far. *)
Fixpoint appliedDeltas (layout : LayoutT) (zones : list Zone)
    (minHeights : list Q) : list Q :=
  match zones with
  | [] => []
  | zone :: rest =>
      let r := hd_error minHeights in
      let tail := appliedDeltas (adjustZone layout zone r) rest (tl minHeights) in
      match zoneDelta layout zone r with
      | Some d => d :: tail
      | None => tail
      end
  end.

Definition sumQ (l : list Q) : Q := fold_right Qplus 0 l.

(** Two elements that differ at most in their vertical extent: [y], and
    for a band [h]. *)
Definition sameButVertical (e e' : Elem) : Prop :=
  match e, e' with
  | Start x _ r, Start x' _ r' => x = x' /\ r = r'
  | End_ x _ r, End_ x' _ r' => x = x' /\ r = r'
  | Task s p d x _ w h ie eh, Task s' p' d' x' _ w' h' ie' eh' =>
      s = s' /\ p = p' /\ d = d' /\ x = x' /\ w = w' /\ h = h' /\
      ie = ie' /\ eh = eh'
  | Decision s p x _ size l, Decision s' p' x' _ size' l' =>
      s = s' /\ p = p' /\ x = x' /\ size = size' /\ l = l'
  | Band p x _ w _, Band p' x' _ w' _ => p = p' /\ x = x' /\ w = w'
  | _, _ => False
  end.

Definition isBand (e : Elem) : bool :=
  match e with Band _ _ _ _ _ => true | _ => false end.

(** A map on elements that only moves them down, by an amount [sigma]
    that depends on the element's top and does not decrease with it; an
    element other than a band keeps its extent. *)
Definition Shifting (f : Elem -> Elem) : Prop :=
  exists sigma : Q -> Q,
    (forall y0 y1, y0 <= y1 -> sigma y0 <= sigma y1) /\
    (forall e, topY (f e) == topY e + sigma (topY e)) /\
    (forall e, isBand e = false -> bottomY (f e) == bottomY e + sigma (topY e)) /\
    (forall e, sameButVertical e (f e)).

(** A relation that holds between every two neighbours of a list. *)
Fixpoint consecutive {A} (R : A -> A -> Prop) (l : list A) : Prop :=
  match l with
  | a :: t => match t with
              | b :: _ => R a b /\ consecutive R t
              | [] => True
              end
  | [] => True
  end.

(** A zone whose members, in vertical order, are at least two, have their
    bottom at or below their top, and lie strictly one below the other: the
    top of each is below the bottom of the one before. *)
Definition separated (layout : LayoutT) (zone : Zone) : Prop :=
  let stepElems := zoneElems layout zone in
  (2 <= List.length stepElems)%nat /\
  Forall (fun e => topY e <= bottomY e) stepElems /\
  consecutive (fun a b => bottomY a < topY b) stepElems.

(** Along the loop: each zone needs no delta, or is separated. *)
Fixpoint zonesOk (layout : LayoutT) (zones : list Zone) (minHeights : list Q)
  : Prop :=
  match zones with
  | [] => True
  | zone :: rest =>
      (zoneDelta layout zone (hd_error minHeights) = None \/
       separated layout zone) /\
      zonesOk layout rest (tl minHeights)
  end.

(** Along the loop: no zone needs a delta. *)
Fixpoint allSettled (layout : LayoutT) (zones : list Zone)
    (minHeights : list Q) : Prop :=
  match zones with
  | [] => True
  | zone :: rest =>
      zoneDelta layout zone (hd_error minHeights) = None /\
      allSettled layout rest (tl minHeights)
  end.

(** The loop that computes a shift, from any starting value. *)
Definition shiftFrom (s0 : Q) (boundaries : list Boundary) (ey : Q) : Q :=
  fold_left (fun shift b =>
               if Qltb (boundaryY b) ey then Math_max shift (cumulShift b)
               else shift)
            boundaries s0.

(** [gapBoundaries] with the index starting at [a]. *)
Definition gapFrom (a : nat) (stepElems : list Elem) (gapExtra : Q)
  : list Boundary :=
  map (fun ie : nat * Elem =>
         mkBoundary (bottomY (snd ie))
                    (inject_Z (Z.of_nat (fst ie + 1)) * gapExtra))
      (combine (seq a (List.length stepElems - 1)) stepElems).

(** The flow elements: tasks and decisions. *)
Definition isFlow (e : Elem) : bool :=
  match e with
  | Task _ _ _ _ _ _ _ _ _ | Decision _ _ _ _ _ _ => true
  | _ => false
  end.

(** What the loops of [computeLayout] keep, on [(elems, y)]: each flow
    element lies strictly above the ones pushed after it, has its bottom at
    or below its top, and ends above the cursor [y]. *)
Definition flowInv (acc : list Elem * Q) : Prop :=
  ForallOrdPairs (fun a b => bottomY a < topY b) (filter isFlow (fst acc)) /\
  Forall (fun e => topY e <= bottomY e /\ bottomY e < snd acc)
         (filter isFlow (fst acc)).

(** Along the loop: each zone needs no delta, or has two members or more. *)
Fixpoint zonesPaired (layout : LayoutT) (zones : list Zone)
    (minHeights : list Q) : Prop :=
  match zones with
  | [] => True
  | zone :: rest =>
      (zoneDelta layout zone (hd_error minHeights) = None \/
       (2 <= List.length (zoneElems layout zone))%nat) /\
      zonesPaired layout rest (tl minHeights)
  end.

(** *** Passes that binary64 computes exactly

    The coordinates are rationals and the arithmetic of the pass is exact.
    Binary64 rounds: with a fractional minimum height, [reqMin - currentH],
    [delta / (n - 1)] and [e.y += shift] are each rounded, and a span can
    end up a rounding error short of its minimum.  On whole numbers of at
    most [2^52] binary64 adds, subtracts and multiplies exactly, and
    divides exactly when the quotient is whole; a pass in which every
    number is such a number is computed by the program as it is here. *)





(** *** Sample data *)



End Reconcile.

(** ** SVG text helpers ([E.a], [E.t], [tag]) *)

Module Svg.

(** The double quote character. *)
Definition dquote : ascii := "034"%char.

(** [s.replace(/c/g, rep)] for a single character [c] and a replacement
    that holds no [$]. *)
Fixpoint replaceAll (c : ascii) (rep : string) (s : string) : string :=
  match s with
  | EmptyString => EmptyString
  | String a rest =>
      if Ascii.eqb a c then (rep ++ replaceAll c rep rest)%string
      else String a (replaceAll c rep rest)
  end.

(** The escaping helpers, on the string [String(v)]. *)
Module E.

(** [String(v)] with four global replacements in a row: [&] by [&amp;],
    the double quote by [&quot;], [<] by [&lt;] and [>] by [&gt;]. *)
Definition a (v : string) : string :=
  replaceAll ">" "&gt;"
    (replaceAll "<" "&lt;"
       (replaceAll dquote "&quot;"
          (replaceAll "&" "&amp;" v))).

(** [String(v).replace(/&/g, '&amp;').replace(/</g, '&lt;')
              .replace(/>/g, '&gt;')] *)
Definition t (v : string) : string :=
  replaceAll ">" "&gt;"
    (replaceAll "<" "&lt;"
       (replaceAll "&" "&amp;" v)).

End E.

(** One attribute: the key, [=], and the escaped value between double
    quotes. *)
Definition attr (kv : string * string) : string :=
  (fst kv ++ "=" ++ String dquote (E.a (snd kv) ++ String dquote ""))%string.

(** [tag(name, attrs, inner)]; [attrs] is [Object.entries(attrs)] with the
    values as strings. *)
Definition tag (name : string) (attrs : list (string * string))
    (inner : string) : string :=
  ("<" ++ name ++ " " ++ String.concat " " (map attr attrs) ++ ">"
   ++ inner ++ "</" ++ name ++ ">")%string.

(** Does the character occur in the string? *)
Fixpoint occurs (c : ascii) (s : string) : bool :=
  match s with
  | EmptyString => false
  | String a rest => Ascii.eqb a c || occurs c rest
  end.

(** How many times the character occurs in the string. *)
Fixpoint occurrences (c : ascii) (s : string) : nat :=
  match s with
  | EmptyString => 0
  | String a rest => (if Ascii.eqb a c then 1 else 0) + occurrences c rest
  end.

(** What [E.a] and [E.t] put in place of one character. *)
Definition entity_a (c : ascii) : string :=
  if Ascii.eqb c "&" then "&amp;"
  else if Ascii.eqb c dquote then "&quot;"
  else if Ascii.eqb c "<" then "&lt;"
  else if Ascii.eqb c ">" then "&gt;"
  else String c "".

Definition entity_t (c : ascii) : string :=
  if Ascii.eqb c "&" then "&amp;"
  else if Ascii.eqb c "<" then "&lt;"
  else if Ascii.eqb c ">" then "&gt;"
  else String c "".

End Svg.

(** ** Rendering: what is drawn from a layout ([drawContent], [drawZones],
    [internalRender], the click on a step, [renderBlock]) *)

Module Render.
Import Text Layout Reconcile.
Local Open Scope Q_scope.

Definition ZONE_W : Q := 54.

(** *** [drawContent]: the connecting arrows *)





(** *** [drawZones]: the bracket of a zone *)





(** [letters[idx] || String(idx + 1)] with [letters = 'ABCDEFGHIJ'] *)
Definition letters : string := "ABCDEFGHIJ".

Definition zoneLetter (idx : nat) : string :=
  match String.get idx letters with
  | Some c => String c ""
  | None => NilEmpty.string_of_uint (Nat.to_uint (idx + 1))
  end.

(** *** [internalRender]: the layout that is drawn *)

(** [currentOptions], as far as the layout depends on it. *)
Record Options := mkOptions {
  estimationZones : option (list Zone);
  zoneMinHeights : option (list Q)
}.

(** The layout [internalRender] draws and stores in [lastLayout]. *)
Definition renderedLayout (PROCESS_MAP : ProcessMap) (st : ModuleState)
    (currentOptions : Options) : LayoutT :=
  let layout := computeLayout PROCESS_MAP st in
  match zoneMinHeights currentOptions, estimationZones currentOptions with
  | Some minHeights, Some zones =>
      adjustLayoutForZoneMinHeights layout (Some zones) (Some minHeights)
  | _, _ => layout
  end.


(** The width of the drawing: [layout.w], plus [ZONE_W] with zones. *)
Definition totalW (layout : LayoutT) (currentOptions : Options) : Q :=
  match estimationZones currentOptions with
  | Some _ => layout_w layout + ZONE_W
  | None => layout_w layout
  end.

(** [internalRender] on the module state; [containerExists] tells whether
    [document.getElementById(currentContainerId)] finds an element. *)
Definition internalRender (PROCESS_MAP : ProcessMap) (containerExists : bool)
    (currentOptions : Options) (st : ModuleState) : ModuleState :=
  if containerExists
  then mkModuleState (expandedSteps st) (currentContainerId st) (idPrefix st)
                     (blockCounter st)
                     (Some (renderedLayout PROCESS_MAP st currentOptions))
  else st.

(** *** The click on a step *)

(** The first step of the process with the identifier [sid]. *)
Definition stepData (PROCESS_MAP : ProcessMap) (sid : string) : option Step :=
  find (fun s => String.eqb (id s) sid) (flat_map steps (phases PROCESS_MAP)).

(** [expandedSteps.delete(sid)] and [expandedSteps.add(sid)] *)
Definition setDelete (sid : string) (set : list string) : list string :=
  filter (fun x => negb (String.eqb x sid)) set.

Definition setAdd (sid : string) (set : list string) : list string :=
  if has set sid then set else set ++ [sid].

(** [if (expandedSteps.has(sid)) expandedSteps.delete(sid);
     else expandedSteps.add(sid);] *)
Definition toggle (sid : string) (set : list string) : list string :=
  if has set sid then setDelete sid set else setAdd sid set.

(** The step identifiers of the groups of class [pm-task] in the drawing
    ([container.querySelectorAll('.pm-task')], each with its
    [dataset.stepId]): [drawContent] draws one, by [drawTask], for every
    task element of the layout; a decision is drawn by [drawDecision] as a
    group of class [pm-decision]. *)
Definition taskGroups (layout : LayoutT) : list string :=
  flat_map (fun e => match e with
                     | Task step _ _ _ _ _ _ _ _ => [id step]
                     | _ => []
                     end)
           (elems layout).

(** A click on the group of step [sid] in the drawing of the map.  Only a
    group of class [pm-task] can have the handler, and it is wired only
    when the first step of the process with that identifier has hidden
    actions or an error loop. *)
Definition clickStep (PROCESS_MAP : ProcessMap) (containerExists : bool)
    (currentOptions : Options) (sid : string) (st : ModuleState)
  : ModuleState :=
  if existsb (String.eqb sid)
             (taskGroups (renderedLayout PROCESS_MAP st currentOptions))
  then
    match stepData PROCESS_MAP sid with
    | Some s =>
        if hasExp s
        then internalRender PROCESS_MAP containerExists currentOptions
               (mkModuleState (toggle sid (expandedSteps st))
                              (currentContainerId st) (idPrefix st)
                              (blockCounter st) (lastLayout st))
        else st
    | None => st
    end
  else st.

(** *** The card heights of the caller ([positionCards]) *)








(** *** [renderBlock]: the compact layout of some steps of a phase *)

Definition PAD : Q := 14.
Definition leftPad : Q := PAD + 8.

(** One turn of the loop over the steps, on [(elems, y)]. *)
Definition blockStep (st : ModuleState) (cx : Q) (phaseData : Phase)
    (acc : list Elem * Q) (step : Step) : list Elem * Q :=
  let (elems, y) := acc in
  if isDecisionPoint step then
    let lblLines := wrap (name step) (fl CFG.stepW * 0.65)%float 10 in
    let lblH := qlen lblLines * 13 + 4 in
    (elems ++ [Decision step phaseData cx (y + q CFG.decisionSize / 2)
                        (q CFG.decisionSize) lblLines],
     y + (q CFG.decisionSize + lblH + 10))
  else
    let dims := stepDims step in
    let isExp := has (expandedSteps st) (id step) in
    let expH := if isExp then expansionH step else 0 in
    (elems ++ [Task step phaseData dims (cx - q CFG.stepW / 2) y
                    (q CFG.stepW) (dims_h dims) isExp expH],
     y + (dims_h dims + expH + q CFG.stepGap)).

(** What [renderBlock] draws: the prefix of the identifiers, the elements,
    the centre line, and the size of the [viewBox]. *)
Record BlockDrawing := mkBlockDrawing {
  bid : string;
  block_elems : list Elem;
  block_cx : Q;
  block_w : Q;
  block_h : Q
}.

(** [renderBlock(containerId, stepIds, phaseData)] on the module state.
    The counter of blocks goes up in every case and [idPrefix] is put back;
    nothing is drawn without a container or without a matching step. *)
Definition renderBlock (containerExists : bool) (stepIds : list string)
    (phaseData : Phase) (st : ModuleState)
  : ModuleState * option BlockDrawing :=
  let bid := ("blk" ++ NilEmpty.string_of_uint
                         (Nat.to_uint (blockCounter st)))%string in
  let st' := mkModuleState (expandedSteps st) (currentContainerId st)
                           (idPrefix st) (S (blockCounter st))
                           (lastLayout st) in
  if negb containerExists then (st', None)
  else
    match filter (fun s => existsb (String.eqb (id s)) stepIds)
                 (steps phaseData) with
    | [] => (st', None)
    | (_ :: _) as blockSteps =>
        let cx := leftPad + q CFG.stepW / 2 in
        let (elems, y) :=
          fold_left (blockStep st cx phaseData) blockSteps ([], PAD) in
        (st', Some (mkBlockDrawing bid elems cx
                      (q CFG.stepW + leftPad * 2 + q CFG.loopOffX + 30)
                      (y + PAD)))
    end.

(** *** The layout spelled out as recursions on the steps and phases
    (used to reason about the loops of [computeLayout]) *)

(** The centre line, and where the first phase starts. *)
Definition cx0 : Q := q CFG.canvasPad + q CFG.phasePadX + q CFG.stepW / 2.
Definition y0 : Q := q CFG.canvasPad + (q CFG.circleR * 2 + 18).

(** What one step adds to [y]. *)
Definition advance (st : ModuleState) (step : Step) : Q :=
  if isDecisionPoint step then
    q CFG.decisionSize
    + match decisionOutcome step with
      | Some o => if truthy o then 2 * 13 + 4
                  else qlen (wrap (name step) (fl CFG.stepW * 0.65)%float 10) * 13 + 4
      | None => qlen (wrap (name step) (fl CFG.stepW * 0.65)%float 10) * 13 + 4
      end
    + 10
  else
    dims_h (stepDims step)
    + (if has (expandedSteps st) (id step) then expansionH step else 0)
    + q CFG.stepGap.

(** The element pushed for one step at [y]. *)
Definition stepElem (st : ModuleState) (cx : Q) (phase : Phase) (y : Q)
    (step : Step) : Elem :=
  if isDecisionPoint step then
    Decision step phase cx (y + q CFG.decisionSize / 2) (q CFG.decisionSize)
             (wrap (name step) (fl CFG.stepW * 0.65)%float 10)
  else
    Task step phase (stepDims step) (cx - q CFG.stepW / 2) y (q CFG.stepW)
         (dims_h (stepDims step)) (has (expandedSteps st) (id step))
         (if has (expandedSteps st) (id step) then expansionH step else 0).

Fixpoint stepsElems (st : ModuleState) (cx : Q) (phase : Phase) (y : Q)
    (l : list Step) : list Elem :=
  match l with
  | [] => []
  | step :: rest =>
      stepElem st cx phase y step
      :: stepsElems st cx phase (y + advance st step) rest
  end.

Fixpoint stepsEnd (st : ModuleState) (y : Q) (l : list Step) : Q :=
  match l with
  | [] => y
  | step :: rest => stepsEnd st (y + advance st step) rest
  end.

(** Where the steps of a phase that starts at [y] end, and its band. *)
Definition phaseStepsEnd (st : ModuleState) (y : Q) (phase : Phase) : Q :=
  stepsEnd st (y + (q CFG.phaseLabelH + q CFG.phasePadY)) (steps phase).

Definition phaseBand (st : ModuleState) (y : Q) (phase : Phase) : Elem :=
  Band phase (q CFG.canvasPad) y (PHASE_INNER_W + BAND_EXTRA)
       (phaseStepsEnd st y phase + q CFG.phasePadY - y).

Fixpoint phasesElems (st : ModuleState) (cx : Q) (y : Q) (l : list Phase)
  : list Elem :=
  match l with
  | [] => []
  | phase :: rest =>
      stepsElems st cx phase (y + (q CFG.phaseLabelH + q CFG.phasePadY))
                 (steps phase)
      ++ phaseBand st y phase
      :: phasesElems st cx
           (phaseStepsEnd st y phase + q CFG.phasePadY + q CFG.phaseGap) rest
  end.

Fixpoint phasesEnd (st : ModuleState) (y : Q) (l : list Phase) : Q :=
  match l with
  | [] => y
  | phase :: rest =>
      phasesEnd st
        (phaseStepsEnd st y phase + q CFG.phasePadY + q CFG.phaseGap) rest
  end.

(** The same for the loop of [renderBlock], where the label of a decision
    always takes the height of its lines. *)
Definition blockAdvance (st : ModuleState) (step : Step) : Q :=
  if isDecisionPoint step then
    q CFG.decisionSize
    + (qlen (wrap (name step) (fl CFG.stepW * 0.65)%float 10) * 13 + 4)
    + 10
  else
    dims_h (stepDims step)
    + (if has (expandedSteps st) (id step) then expansionH step else 0)
    + q CFG.stepGap.

Fixpoint blockElems (st : ModuleState) (cx : Q) (phase : Phase) (y : Q)
    (l : list Step) : list Elem :=
  match l with
  | [] => []
  | step :: rest =>
      stepElem st cx phase y step
      :: blockElems st cx phase (y + blockAdvance st step) rest
  end.

Fixpoint blockEnd (st : ModuleState) (y : Q) (l : list Step) : Q :=
  match l with
  | [] => y
  | step :: rest => blockEnd st (y + blockAdvance st step) rest
  end.

(** The height the expanded steps add: the expansion heights of the
    tasks whose identifier is in the set. *)
Definition stepExtra (set : list string) (step : Step) : Q :=
  if isDecisionPoint step then 0
  else if has set (id step) then expansionH step else 0.

Definition expandedHeight (PROCESS_MAP : ProcessMap) (set : list string) : Q :=
  fold_right (fun step acc => stepExtra set step + acc) 0
             (flat_map steps (phases PROCESS_MAP)).

(** The module state with no step expanded. *)
Definition collapsed (st : ModuleState) : ModuleState :=
  mkModuleState [] (currentContainerId st) (idPrefix st) (blockCounter st)
                (lastLayout st).

(** The module state with another set of expanded steps. *)
Definition withExpanded (set : list string) (st : ModuleState) : ModuleState :=
  mkModuleState set (currentContainerId st) (idPrefix st) (blockCounter st)
                (lastLayout st).

(** The left and right edge of an element, and its lower edge (for a
    band, the bottom of its rectangle). *)
Definition leftX (e : Elem) : Q :=
  match e with
  | Start x _ r | End_ x _ r => x - r
  | Task _ _ _ x _ _ _ _ _ => x
  | Decision _ _ x _ size _ => x - size / 2
  | Band _ x _ _ _ => x
  end.

Definition rightX (e : Elem) : Q :=
  match e with
  | Start x _ r | End_ x _ r => x + r
  | Task _ _ _ x _ w _ _ _ => x + w
  | Decision _ _ x _ size _ => x + size / 2
  | Band _ x _ w _ => x + w
  end.


(** The phase an element belongs to. *)
Definition phaseOf (e : Elem) : option Phase :=
  match e with
  | Task _ p _ _ _ _ _ _ _ | Decision _ p _ _ _ _ | Band p _ _ _ _ => Some p
  | _ => None
  end.

(** The step of a task or decision. *)
Definition stepOf (e : Elem) : option Step :=
  match e with
  | Task s _ _ _ _ _ _ _ _ | Decision s _ _ _ _ _ => Some s
  | _ => None
  end.






(** The steps of a list of elements. *)
Definition stepsOf (l : list Elem) : list Step :=
  flat_map (fun e => match stepOf e with Some s => [s] | None => [] end) l.


(** A block of the sample map, drawn twice in a row. *)
Definition sampleBlockPhase : Phase :=
  mkPhase "application" "Filling in the Application" "#1971C2" [sampleStep2].

Definition sampleBlock : ModuleState * option BlockDrawing :=
  renderBlock true ["2.1"] sampleBlockPhase sampleState.

Definition sampleBlockAgain : ModuleState * option BlockDrawing :=
  renderBlock true ["2.1"] sampleBlockPhase (fst sampleBlock).

Definition drawingOf (r : ModuleState * option BlockDrawing) : BlockDrawing :=
  match snd r with
  | Some d => d
  | None => mkBlockDrawing "" [] 0 0 0
  end.

End Render.

(** ** The server's request handlers *)

Module Server.
Import Randomizer.

(** A line of [sessions.jsonl], as far as the handlers read it; a field
    that is missing or null is [None].  The timestamps and the device
    description, which the handlers only copy, are left out. *)
Record SessionRec := mkSessionRec {
  session_id : string;
  prolific_pid : option string;
  study_id : option string;
  prolific_session_id : option string;
  condition : option string;
  condition_forced : bool;
  completed : bool
}.

(** What [blockRandomize] reads of a line. *)
Definition toSession (s : SessionRec) : Session :=
  mkSession (condition s) (condition_forced s).

(** The body of a request to [/api/session/create]. *)
Record CreateRequest := mkCreateRequest {
  req_prolific_pid : option string;
  req_study_id : option string;
  req_session_id : option string;
  req_condition : option string
}.

Record CreateResponse := mkCreateResponse {
  res_session_id : string;
  res_condition : option string;
  already_complete : bool;
  resumed : bool
}.

(** [x || null] *)
Definition orNull (x : option string) : option string :=
  match x with
  | Some s => if truthy s then Some s else None
  | None => None
  end.

(** [s.prolific_pid && s.prolific_pid === prolific_pid] *)
Definition samePid (pid : option string) (s : SessionRec) : bool :=
  match prolific_pid s, pid with
  | Some sp, Some p => truthy sp && String.eqb sp p
  | _, _ => false
  end.

(** [!condition || !['detailed', 'simple'].includes(condition)], negated:
    the request names a condition to force. *)
Definition validCondition (c : option string) : bool :=
  match c with
  | Some c => truthy c && existsb (String.eqb c) ["detailed"; "simple"]
  | None => false
  end.

(** [req.body.condition === condition] *)
Definition sameCondition (requested : option string) (c : string) : bool :=
  match requested with
  | Some r => String.eqb r c
  | None => false
  end.

Section WithRandom.

Variable Math_random : nat -> Q.

(** The handler of [POST /api/session/create]; [newId] is what [uuidv4()]
    returns in this call, [existing] the lines of [sessions.jsonl].  It
    returns the response and the lines of the file afterwards. *)
Definition session_create (req : CreateRequest) (newId : string)
    (existing : list SessionRec) : M (CreateResponse * list SessionRec) :=
  let pid := req_prolific_pid req in
  match find (fun s => samePid pid s && completed s) existing with
  | Some dup =>
      ret (mkCreateResponse (session_id dup) (condition dup) true false,
           existing)
  | None =>
      match find (fun s => samePid pid s && negb (completed s)) existing with
      | Some incomplete =>
          ret (mkCreateResponse (session_id incomplete)
                                (condition incomplete) false true,
               existing)
      | None =>
          c <- (if validCondition (req_condition req)
                then ret (match req_condition req with
                          | Some c => c
                          | None => ""
                          end)
                else blockRandomize Math_random (map toSession existing)) ;;
          ret (mkCreateResponse newId (Some c) false false,
               existing ++
               [mkSessionRec newId (orNull pid) (orNull (req_study_id req))
                  (orNull (req_session_id req)) (Some c)
                  (sameCondition (req_condition req) c) false])
      end
  end.

(** Requests served one after the other, each with its fresh identifier. *)
Fixpoint serve (reqs : list (CreateRequest * string))
    (log : list SessionRec) : M (list CreateResponse * list SessionRec) :=
  match reqs with
  | [] => ret ([], log)
  | (req, newId) :: rest =>
      r <- session_create req newId log ;;
      rs <- serve rest (snd r) ;;
      ret (fst r :: fst rs, snd rs)
  end.

End WithRandom.

(** One estimate of a block: [minutes], [seconds] and [confidence], each
    possibly missing or null. *)
Record EstData := mkEstData {
  minutes : option Z;
  seconds : option Z;
  confidence : option Z
}.

(** A line of [estimations.jsonl], as far as it is read here. *)
Record Estimation := mkEstimation {
  est_session_id : string;
  est_condition : option string;
  estimates : list (string * EstData);
  totalEstimateSeconds : option Z
}.

(** The two files of the data directory. *)
Record Store := mkStore {
  sessions : list SessionRec;
  estimations : list Estimation
}.

(** The body of a request to [/api/estimation/submit]. *)
Record SubmitRequest := mkSubmitRequest {
  sub_session_id : option string;
  sub_condition : option string;
  sub_estimates : list (string * EstData);
  sub_totalEstimateSeconds : option Z
}.

Inductive SubmitResponse : Type :=
| SubmitOk
| SubmitError (status : nat) (error : string).

(** [{ ...s, completed: true, completed_at: ... }] *)
Definition markCompleted (s : SessionRec) : SessionRec :=
  mkSessionRec (session_id s) (prolific_pid s) (study_id s)
               (prolific_session_id s) (condition s) (condition_forced s)
               true.

(** [x || null] on a number: zero is falsy. *)
Definition orNullZ (x : option Z) : option Z :=
  match x with
  | Some z => if (z =? 0)%Z then None else Some z
  | None => None
  end.

(** The handler of [POST /api/estimation/submit]. *)
Definition estimation_submit (req : SubmitRequest) (store : Store)
  : SubmitResponse * Store :=
  match orNull (sub_session_id req) with
  | None => (SubmitError 400 "session_id required", store)
  | Some sid =>
      let est := mkEstimation sid (orNull (sub_condition req))
                              (sub_estimates req)
                              (orNullZ (sub_totalEstimateSeconds req)) in
      (SubmitOk,
       mkStore (map (fun s => if String.eqb (session_id s) sid
                              then markCompleted s else s)
                    (sessions store))
               (estimations store ++ [est]))
  end.

(** *** The export: merging, headers and CSV text *)

(** [obj[k] = v] on an object kept as the list of its entries: an existing
    key keeps its place.  The keys are session identifiers and column
    names; the names an object inherits from its prototype are not
    modelled. *)
Fixpoint setKey {V} (k : string) (v : V) (obj : list (string * V))
  : list (string * V) :=
  match obj with
  | [] => [(k, v)]
  | (k', v') :: rest =>
      if String.eqb k' k then (k, v) :: rest
      else (k', v') :: setKey k v rest
  end.

(** [obj[k]] *)
Fixpoint getKey {V} (k : string) (obj : list (string * V)) : option V :=
  match obj with
  | [] => None
  | (k', v') :: rest => if String.eqb k' k then Some v' else getKey k rest
  end.

(** [estimations.forEach(e => { estMap[e.session_id] = e; })] *)
Definition buildEstMap (ests : list Estimation) : list (string * Estimation) :=
  fold_left (fun estMap e => setKey (est_session_id e) e estMap) ests [].

(** A row of the export: its keys with their values as [String(r[h])]
    gives them. *)
Definition Row : Type := list (string * string).

(** [rows.forEach(r => Object.keys(r).forEach(k => {
       if (!headers.includes(k)) headers.push(k); }))] *)
Definition addHeader (headers : list string) (k : string) : list string :=
  if existsb (String.eqb k) headers then headers else headers ++ [k].

Definition collectHeaders (rows : list Row) : list string :=
  fold_left (fun headers r => fold_left addHeader (map fst r) headers)
            rows [].

(** The quoting of one value: between double quotes, with each double
    quote doubled, when it holds a comma or a double quote. *)
Definition csvCell (val : string) : string :=
  if Svg.occurs "," val || Svg.occurs Svg.dquote val
  then String Svg.dquote
         (Svg.replaceAll Svg.dquote
            (String Svg.dquote (String Svg.dquote "")) val
          ++ String Svg.dquote "")
  else val.

(** [cells.join(',')] of the quoted values. *)
Definition joinCells (vals : list string) : string :=
  String.concat "," (map csvCell vals).

(** [headers.map(h => r[h] !== undefined ? String(r[h]) : '')] *)
Definition rowValues (headers : list string) (r : Row) : list string :=
  map (fun h => match getKey h r with Some v => v | None => "" end) headers.

Definition newline : string := String "010" "".

(** The text the handler of [GET /api/export/csv] sends for [rows]. *)
Definition csvText (rows : list Row) : string :=
  match rows with
  | [] => "No data"
  | _ =>
      let headers := collectHeaders rows in
      String.concat newline
        (String.concat "," headers
         :: map (fun r => joinCells (rowValues headers r)) rows)
  end.

(** *** Reading one quoted value back (used to show that quoting loses
    nothing) *)

(** An unquoted value, up to the next comma; with it, what follows the
    comma, if there is one. *)
Fixpoint readPlain (s : string) : string * option string :=
  match s with
  | EmptyString => ("", None)
  | String c r =>
      if Ascii.eqb c "," then ("", Some r)
      else let (v, k) := readPlain r in (String c v, k)
  end.

(** A quoted value after its opening quote, up to the closing one. *)
Fixpoint readQuoted (s : string) : string * option string :=
  match s with
  | EmptyString => ("", None)
  | String c r =>
      if Ascii.eqb c Svg.dquote then
        match r with
        | EmptyString => ("", None)
        | String c2 r2 =>
            if Ascii.eqb c2 Svg.dquote
            then let (v, k) := readQuoted r2 in (String Svg.dquote v, k)
            else ("", Some r2)
        end
      else let (v, k) := readQuoted r in (String c v, k)
  end.

Definition readCell (s : string) : string * option string :=
  match s with
  | String c r => if Ascii.eqb c Svg.dquote then readQuoted r else readPlain s
  | EmptyString => ("", None)
  end.

(** As many values as asked for, read from a line. *)
Fixpoint readCells (n : nat) (s : string) : list string :=
  match n with
  | O => []
  | S n' =>
      let (v, k) := readCell s in
      v :: match k with
           | Some rest => readCells n' rest
           | None => []
           end
  end.

(** The truthy participant identifiers of a log. *)
Definition pidsOf (log : list SessionRec) : list string :=
  flat_map (fun s => match orNull (prolific_pid s) with
                     | Some p => [p]
                     | None => []
                     end) log.

(** *** Sample data *)

Definition sampleSession : SessionRec :=
  mkSessionRec "s-1" (Some "P1") None None (Some "simple") false true.

(** A store with a session that is still open, and the submission that
    completes it. *)
Definition sampleOpenSession : SessionRec :=
  mkSessionRec "s-7" (Some "P7") None None (Some "detailed") false false.

Definition sampleStore : Store :=
  mkStore [sampleSession; sampleOpenSession] [].

Definition sampleSubmit : SubmitRequest :=
  mkSubmitRequest (Some "s-7") (Some "detailed")
    [("overall", mkEstData (Some 4%Z) (Some 30%Z) (Some 3%Z))] (Some 270%Z).

(** Six requests: four new participants, a forced preview among them, and
    a participant who comes back. *)
Definition sampleRequests : list (CreateRequest * string) :=
  [(mkCreateRequest (Some "A") None None None, "id-1");
   (mkCreateRequest (Some "B") None None None, "id-2");
   (mkCreateRequest None None None (Some "simple"), "id-3");
   (mkCreateRequest (Some "A") None None None, "id-4");
   (mkCreateRequest (Some "C") None None None, "id-5");
   (mkCreateRequest (Some "D") None None (Some "other"), "id-6")].

End Server.

(** ** The statistics of the analysis server ([median], [mean], [fmtSec],
    the counts of [/api/stats]) *)

Module Stats.
Import Server.
Local Open Scope Q_scope.

(** [[...arr].sort((a, b) => a - b)] *)
Definition sortNumbers (arr : list Q) : list Q :=
  Reconcile.sort_by (fun x => x) arr.

(** [arr.length] as a number. *)
Definition len {A} (arr : list A) : Q := inject_Z (Z.of_nat (List.length arr)).

Definition median (arr : list Q) : Q :=
  match arr with
  | [] => 0
  | _ :: _ =>
      let sorted := sortNumbers arr in
      let mid := (List.length sorted / 2)%nat in
      if negb (List.length sorted mod 2 =? 0)%nat
      then nth mid sorted 0
      else (nth (mid - 1) sorted 0 + nth mid sorted 0) / 2
  end.

(** [arr.reduce((a, b) => a + b, 0)] *)
Definition sum (arr : list Q) : Q := fold_left Qplus arr 0.

Definition mean (arr : list Q) : Q :=
  match arr with
  | [] => 0
  | _ :: _ => sum arr / len arr
  end.

(** [Math.floor] and [Math.round] (halves go up) of a number. *)
Definition Math_floor (x : Q) : Z := Qfloor x.
Definition Math_round (x : Q) : Z := Qfloor (x + 1 / 2).

(** The integer part of a number, towards zero. *)
Definition trunc (x : Q) : Z := Z.quot (Qnum x) (Zpos (Qden x)).

(** [x % n]: the remainder has the sign of [x]. *)
Definition rem (x n : Q) : Q := x - n * inject_Z (trunc (x / n)).

(** [String(z)] for an integer. *)
Definition numText (z : Z) : string := NilZero.string_of_int (Z.to_int z).

(** The em dash, in UTF-8. *)
Definition emDash : string := String "226" (String "128" (String "148" "")).

(** [sec] is [None] for null, undefined and NaN. *)
Definition fmtSec (sec : option Q) : string :=
  match sec with
  | None => emDash
  | Some sec =>
      let m := Math_floor (sec / 60) in
      let s := Math_round (rem sec 60) in
      if (m =? 0)%Z then (numText s ++ "s")%string
      else if (0 <? s)%Z then (numText m ++ "m " ++ numText s ++ "s")%string
      else (numText m ++ "m")%string
  end.

(** *** The counts of [GET /api/stats] *)

(** [excludePids.includes(s.prolific_pid)] *)
Definition isExcluded (excludePids : list string) (s : SessionRec) : bool :=
  match prolific_pid s with
  | Some p => existsb (String.eqb p) excludePids
  | None => false
  end.

(** [s.condition === c] *)
Definition hasCondition (c : string) (s : SessionRec) : bool :=
  match condition s with
  | Some x => String.eqb x c
  | None => false
  end.

Record DataQuality := mkDataQuality {
  total_sessions : nat;
  completed_sessions : nat;
  dropped_sessions : nat;
  dropout_rate : Z;
  detailed_completed : nat;
  simple_completed : nat;
  detailed_total : nat;
  simple_total : nat
}.

(** The first section of the answer, from the lines of [sessions.jsonl]
    and the parsed exclusion list.  The quotient of [dropout_rate] is
    exact; binary64 rounds it before the multiplication, which can move
    the rounded percentage by one (23 dropped of 40: 57 in the program, 58
    here). *)
Definition dataQuality (sessions : list SessionRec)
    (excludePids : list string) : DataQuality :=
  let merged := filter (fun s => negb (isExcluded excludePids s)) sessions in
  let total := List.length merged in
  let completed := filter Server.completed merged in
  let dropped := filter (fun s => negb (Server.completed s)) merged in
  let completedDetailed := filter (hasCondition "detailed") completed in
  let completedSimple := filter (hasCondition "simple") completed in
  let detailedAll := filter (hasCondition "detailed") merged in
  let simpleAll := filter (hasCondition "simple") merged in
  mkDataQuality total (List.length completed) (List.length dropped)
    (if (0 <? total)%nat
     then Math_round (len dropped / inject_Z (Z.of_nat total) * 100)
     else 0%Z)
    (List.length completedDetailed) (List.length completedSimple)
    (List.length detailedAll) (List.length simpleAll).

(** How many values of a list satisfy a test. *)
Definition countIf (p : Q -> bool) (l : list Q) : nat :=
  List.length (filter p l).

End Stats.

(** * Proofs *)

(** ** General lemmas *)

Lemma Qltb_lt (x y : Q) : Qltb x y = true <-> (x < y)%Q.
Proof.
  unfold Qltb. rewrite negb_true_iff. split; intro H.
  - apply Qnot_le_lt. intro L. apply Qle_bool_iff in L. congruence.
  - destruct (Qle_bool y x) eqn:E; trivial.
    apply Qle_bool_iff in E. exfalso. apply (Qlt_not_le _ _ H E).
Qed.

Lemma Qltb_ge (x y : Q) : Qltb x y = false <-> (y <= x)%Q.
Proof.
  unfold Qltb. rewrite negb_false_iff. apply Qle_bool_iff.
Qed.

(** ** Facts about the block randomizer *)

Module RandomizerFacts.
Import Randomizer.

(** *** Shuffling permutes *)

Lemma count_perm x l l' : Permutation l l' -> count x l = count x l'.
Proof.
  unfold count. induction 1; simpl; auto.
  - destruct (x =? x0)%string; simpl; congruence.
  - destruct (x =? x0)%string, (x =? y)%string; simpl; reflexivity.
  - congruence.
Qed.

Lemma set_nth_perm_cons {A} (a b : A) j t :
  nth_error t j = Some b -> Permutation (b :: set_nth j a t) (a :: t).
Proof.
  revert j. induction t as [|h t IH]; intros [|j] H; simpl in *; try discriminate.
  - injection H as ->. apply perm_swap.
  - apply perm_trans with (h :: b :: set_nth j a t); [apply perm_swap|].
    apply perm_trans with (h :: a :: t); [|apply perm_swap].
    apply perm_skip. now apply IH.
Qed.

Lemma swap_perm i j l : Permutation (swap i j l) l.
Proof.
  unfold swap.
  destruct (nth_error l i) as [bi|] eqn:Ei; [|reflexivity].
  destruct (nth_error l j) as [bj|] eqn:Ej; [|reflexivity].
  revert i j Ei Ej.
  induction l as [|h t IH]; intros [|i] [|j] Ei Ej; simpl in *; try discriminate.
  - injection Ei as ->. injection Ej as ->. reflexivity.
  - injection Ei as ->. now apply set_nth_perm_cons.
  - injection Ej as ->. now apply set_nth_perm_cons.
  - apply perm_skip. now apply IH.
Qed.

Lemma shuffleFrom_perm rnd i l s :
  Permutation (fst (shuffleFrom rnd i l s)) l.
Proof.
  revert l s. induction i as [|i IH]; intros l s; simpl.
  - reflexivity.
  - unfold bind, randomIndex, random, ret; simpl.
    eapply perm_trans; [apply IH | apply swap_perm].
Qed.

(** Under [unit_interval] the index drawn by the shuffle stays inside the
    part of the array still to be shuffled, so [swap] is always the in-range
    exchange. *)
Lemma randomIndex_le rnd i s :
  unit_interval rnd -> fst (randomIndex rnd i s) <= i.
Proof.
  intros U. unfold randomIndex, bind, random, ret; cbn [fst].
  destruct (U (draws s)) as [L H].
  set (r := rnd (draws s)) in *.
  assert (B : (Qfloor (r * inject_Z (Z.of_nat (i + 1))) < Z.of_nat (i + 1))%Z).
  { assert (P : (0 < inject_Z (Z.of_nat (i + 1)))%Q).
    { replace 0%Q with (inject_Z 0) by reflexivity. rewrite <- Zlt_Qlt. lia. }
    assert (Q1 : (r * inject_Z (Z.of_nat (i + 1)) < inject_Z (Z.of_nat (i + 1)))%Q) by nra.
    apply Z.lt_nge. intro G.
    rewrite Zle_Qle in G.
    pose proof (Qfloor_le (r * inject_Z (Z.of_nat (i + 1)))) as F.
    lra. }
  lia.
Qed.

Lemma perm_unshuffled_length b : Permutation b unshuffled -> List.length b = 4.
Proof. intro P. now rewrite (Permutation_length P). Qed.

Lemma perm_unshuffled_balanced b : Permutation b unshuffled -> balanced b.
Proof.
  intro P. unfold balanced. now rewrite !(count_perm _ _ _ P).
Qed.

Lemma perm_unshuffled_nth b i :
  Permutation b unshuffled -> i < 4 -> In (nth i b "") CONDITIONS.
Proof.
  intros P Hi.
  assert (I : In (nth i b "") b).
  { apply nth_In. rewrite (perm_unshuffled_length _ P). exact Hi. }
  apply (Permutation_in _ P) in I. simpl in I. simpl. tauto.
Qed.

(** *** The three branches of [blockRandomize] *)

Lemma every_eq_refl l : every_eq l l = true.
Proof. induction l; simpl; auto. now rewrite String.eqb_refl. Qed.

Lemma every_eq_same_length e a :
  every_eq e a = true -> List.length e = List.length a -> e = a.
Proof.
  revert a. induction e as [|c e IH]; intros [|x a] H L; simpl in *;
    try discriminate; auto.
  apply andb_true_iff in H as [H1 H2].
  apply String.eqb_eq in H1. subst. f_equal. apply IH; auto.
Qed.

Lemma slice_last_length {A} k (l : list A) :
  k <= List.length l -> List.length (slice_last k l) = k.
Proof. intro H. unfold slice_last. rewrite length_skipn. lia. Qed.

Lemma blockRandomize_fresh rnd log s :
  List.length (assignedOf log) mod BLOCK_SIZE = 0 ->
  exists b d, blockRandomize rnd log s = (nth 0 b "", mkRState (Some b) d)
              /\ Permutation b unshuffled.
Proof.
  intro H. unfold blockRandomize. rewrite H. cbn [Nat.eqb].
  unfold bind, fisherYates, setBlock, ret.
  pose proof (shuffleFrom_perm rnd (List.length unshuffled - 1) unshuffled s) as P.
  destruct (shuffleFrom rnd (List.length unshuffled - 1) unshuffled s) as [b s'].
  exists b, (draws s'). split; [reflexivity | exact P].
Qed.

Lemma blockRandomize_cached rnd log s b :
  let assigned := assignedOf log in
  let pos := List.length assigned mod BLOCK_SIZE in
  pos <> 0 -> currentBlock s = Some b -> List.length b = BLOCK_SIZE ->
  firstn pos b = slice_last pos assigned ->
  blockRandomize rnd log s = (nth pos b "", s).
Proof.
  intros assigned pos Hp Hc Hl Hf. unfold blockRandomize.
  fold assigned. fold pos.
  destruct (Nat.eqb_spec pos 0) as [E|_]; [contradiction|].
  unfold bind, getBlock, ret. rewrite Hc, Hl, Nat.eqb_refl, Hf, every_eq_refl.
  reflexivity.
Qed.

Lemma blockRandomize_fallback rnd log s :
  let assigned := assignedOf log in
  let pos := List.length assigned mod BLOCK_SIZE in
  pos <> 0 -> ~ cache_usable (currentBlock s) pos assigned ->
  blockRandomize rnd log s =
    if count "detailed" assigned <? count "simple" assigned
    then ("detailed", s)
    else if count "simple" assigned <? count "detailed" assigned
    then ("simple", s)
    else (if Qltb (rnd (draws s)) (1 # 2) then "detailed" else "simple",
          mkRState (currentBlock s) (S (draws s))).
Proof.
  intros assigned pos Hp Hn. unfold blockRandomize.
  fold assigned. fold pos.
  destruct (Nat.eqb_spec pos 0) as [E|_]; [contradiction|].
  unfold bind, getBlock, ret, random.
  assert (F : match currentBlock s with
              | Some b =>
                  if Nat.eqb (List.length b) BLOCK_SIZE
                     && every_eq (firstn pos b) (slice_last pos assigned)
                  then Some (nth pos b "") else None
              | None => None
              end = None).
  { destruct (currentBlock s) as [b|] eqn:Eb; [|reflexivity].
    destruct (Nat.eqb_spec (List.length b) BLOCK_SIZE) as [L|L]; [|reflexivity].
    destruct (every_eq (firstn pos b) (slice_last pos assigned)) eqn:Ev;
      [|reflexivity].
    exfalso. apply Hn. exists b. repeat split; auto.
    apply every_eq_same_length; auto.
    assert (pos < BLOCK_SIZE) by (unfold pos, BLOCK_SIZE; lia).
    rewrite length_firstn, slice_last_length.
    - lia.
    - unfold pos, BLOCK_SIZE. lia. }
  rewrite F.
  destruct (count "detailed" assigned <? count "simple" assigned); [reflexivity|].
  destruct (count "simple" assigned <? count "detailed" assigned); reflexivity.
Qed.

(** *** Sequential requests *)

Lemma truthy_condition c : In c CONDITIONS -> truthy c = true.
Proof. simpl. intros [<-|[<-|[]]]; reflexivity. Qed.

Lemma assignedOf_app l1 l2 :
  assignedOf (l1 ++ l2) = assignedOf l1 ++ assignedOf l2.
Proof. unfold assignedOf. now rewrite filter_app, flat_map_app. Qed.

Lemma assignedOf_append log c :
  truthy c = true ->
  assignedOf (log ++ [mkSession (Some c) false]) = assignedOf log ++ [c].
Proof.
  intro T. rewrite assignedOf_app. f_equal.
  unfold assignedOf, counted; simpl. rewrite T. reflexivity.
Qed.

Lemma firstn_snoc_nth {A} (d : A) i l :
  i < List.length l -> firstn (S i) l = firstn i l ++ [nth i l d].
Proof.
  revert i. induction l as [|h t IH]; intros [|i] H; simpl in *; try lia; auto.
  f_equal. apply IH. lia.
Qed.

Lemma slice_last_snoc {A} k (l : list A) c :
  k <= List.length l -> slice_last (S k) (l ++ [c]) = slice_last k l ++ [c].
Proof.
  intro H. unfold slice_last. rewrite length_app, skipn_app. simpl.
  replace (List.length l + 1 - S k) with (List.length l - k) by lia.
  replace (List.length l - k - List.length l) with 0 by lia. reflexivity.
Qed.

Lemma blockAt_app k (l : list string) t :
  k * BLOCK_SIZE + BLOCK_SIZE <= List.length l ->
  blockAt k (l ++ t) = blockAt k l.
Proof.
  intro H. unfold blockAt. rewrite skipn_app, firstn_app.
  rewrite length_skipn.
  replace (BLOCK_SIZE - (List.length l - k * BLOCK_SIZE)) with 0
    by (unfold BLOCK_SIZE in *; lia).
  simpl. apply app_nil_r.
Qed.

Lemma blockAt_last (l : list string) k :
  k * BLOCK_SIZE + BLOCK_SIZE = List.length l ->
  blockAt k l = slice_last BLOCK_SIZE l.
Proof.
  intro H. unfold blockAt, slice_last.
  replace (List.length l - BLOCK_SIZE) with (k * BLOCK_SIZE) by lia.
  apply firstn_all2. rewrite length_skipn. lia.
Qed.

(** Whatever branch is taken, a well-formed cache gives one of the two
    labels and stays well formed. *)
Lemma blockRandomize_label rnd log s :
  cache_ok s ->
  In (fst (blockRandomize rnd log s)) CONDITIONS /\
  cache_ok (snd (blockRandomize rnd log s)).
Proof.
  intro C.
  set (a := assignedOf log). set (pos := List.length a mod BLOCK_SIZE).
  assert (Hpos : pos < 4) by (unfold pos, BLOCK_SIZE; lia).
  destruct (Nat.eq_dec pos 0) as [E|N].
  - destruct (blockRandomize_fresh rnd log s E) as (b & d & -> & P).
    cbn [fst snd]. split; [apply perm_unshuffled_nth; [exact P | lia] | exact P].
  - unfold blockRandomize. fold a. fold pos.
    destruct (Nat.eqb_spec pos 0) as [E|_]; [contradiction|].
    unfold bind, getBlock, ret, random. unfold cache_ok in C.
    destruct (currentBlock s) as [b|] eqn:Eb.
    + destruct (Nat.eqb (List.length b) BLOCK_SIZE
                && every_eq (firstn pos b) (slice_last pos a)).
      * cbn [fst snd]. split; [apply perm_unshuffled_nth; [exact C | lia]|].
        unfold cache_ok. now rewrite Eb.
      * destruct (count "detailed" a <? count "simple" a);
          [|destruct (count "simple" a <? count "detailed" a);
            [|destruct (Qltb _ _)]];
          cbn [fst snd]; (split; [simpl; tauto|]);
          unfold cache_ok; cbn [currentBlock]; now rewrite ?Eb.
    + destruct (count "detailed" a <? count "simple" a);
        [|destruct (count "simple" a <? count "detailed" a);
          [|destruct (Qltb _ _)]];
        cbn [fst snd]; (split; [simpl; tauto|]);
        unfold cache_ok; cbn [currentBlock]; now rewrite ?Eb.
Qed.

Lemma createSession_Inv rnd m log s :
  Inv m log s ->
  Inv m (snd (fst (createSession rnd log s))) (snd (createSession rnd log s)) /\
  assignedOf (snd (fst (createSession rnd log s)))
  = assignedOf log ++ [fst (fst (createSession rnd log s))].
Proof.
  intros (C & B & K).
  unfold createSession, bind, ret.
  pose proof (blockRandomize_label rnd log s C) as [Lc Lk].
  set (a := assignedOf log) in *. set (pos := List.length a mod BLOCK_SIZE) in *.
  assert (Hpos : pos < 4) by (unfold pos, BLOCK_SIZE; lia).
  assert (G : forall c s',
            blockRandomize rnd log s = (c, s') ->
            In c CONDITIONS -> cache_ok s' ->
            (pos = 3 -> m <= List.length a - pos ->
               balanced (slice_last 3 a ++ [c])) ->
            (m <= List.length a - pos ->
               exists b, currentBlock s' = Some b /\
                         firstn (S pos) b = slice_last (S pos) (a ++ [c])) ->
            Inv m (log ++ [mkSession (Some c) false]) s' /\
            assignedOf (log ++ [mkSession (Some c) false]) = a ++ [c]).
  { intros c s' _ Hc Hk Hb Hn.
    assert (A' : assignedOf (log ++ [mkSession (Some c) false]) = a ++ [c])
      by (apply assignedOf_append, truthy_condition, Hc).
    split; [|exact A'].
    unfold Inv. rewrite A'. rewrite length_app. cbn [List.length].
    split; [exact Hk|]. split.
    - intros k Hm Hl.
      destruct (Nat.le_gt_cases (k * BLOCK_SIZE + BLOCK_SIZE) (List.length a))
        as [Old|New].
      + rewrite blockAt_app by exact Old. now apply B.
      + assert (E : k * BLOCK_SIZE + BLOCK_SIZE = List.length (a ++ [c]))
          by (rewrite length_app; cbn [List.length]; lia).
        rewrite (blockAt_last _ _ E).
        assert (P3 : pos = 3) by (unfold pos, BLOCK_SIZE in *; lia).
        change BLOCK_SIZE with (S 3).
        rewrite slice_last_snoc by (unfold pos, BLOCK_SIZE in *; lia).
        apply Hb; [exact P3|]. unfold BLOCK_SIZE in *. lia.
    - intros N M.
      assert (P' : (List.length a + 1) mod BLOCK_SIZE = S pos)
        by (unfold pos, BLOCK_SIZE in *; lia).
      rewrite P' in *. apply Hn. unfold pos, BLOCK_SIZE in *. lia. }
  destruct (blockRandomize rnd log s) as [c s'] eqn:R. cbn [fst snd] in *.
  apply G; auto.
  - (* the label that completes a block *)
    intros P3 M.
    destruct K as (b & Eb & Ef); [lia | exact M |].
    assert (Pb : Permutation b unshuffled) by (unfold cache_ok in C; now rewrite Eb in C).
    pose proof (perm_unshuffled_length _ Pb) as Lb.
    assert (N : pos <> 0) by lia.
    pose proof (blockRandomize_cached rnd log s b N Eb Lb Ef) as R'.
    fold a in R'. fold pos in R'. rewrite R in R'. injection R' as -> ->.
    rewrite P3 in Ef. rewrite <- Ef. rewrite P3.
    rewrite <- (firstn_snoc_nth "" 3 b) by lia.
    rewrite firstn_all2 by lia. now apply perm_unshuffled_balanced.
  - (* the open block and the cache after the request *)
    intros M.
    destruct (Nat.eq_dec pos 0) as [Z|N].
    + destruct (blockRandomize_fresh rnd log s Z) as (b & d & R' & Pb).
      rewrite R in R'. injection R' as -> ->.
      exists b. split; [reflexivity|].
      pose proof (perm_unshuffled_length _ Pb) as Lb.
      rewrite Z. rewrite (firstn_snoc_nth "" 0 b) by lia.
      rewrite slice_last_snoc by lia.
      unfold slice_last. rewrite Nat.sub_0_r, skipn_all. reflexivity.
    + destruct K as (b & Eb & Ef); [exact N | exact M |].
      assert (Pb : Permutation b unshuffled)
        by (unfold cache_ok in C; now rewrite Eb in C).
      pose proof (perm_unshuffled_length _ Pb) as Lb.
      pose proof (blockRandomize_cached rnd log s b N Eb Lb Ef) as R'.
      fold a in R'. fold pos in R'. rewrite R in R'. injection R' as -> ->.
      exists b. split; [exact Eb|].
      rewrite (firstn_snoc_nth "" pos b) by lia.
      rewrite slice_last_snoc by (unfold pos, BLOCK_SIZE; lia).
      now rewrite Ef.
Qed.

Lemma createSessions_Inv rnd m n : forall log s labels log' s',
  createSessions rnd n log s = (labels, log', s') ->
  Inv m log s ->
  Inv m log' s' /\
  assignedOf log' = assignedOf log ++ labels /\
  List.length labels = n.
Proof.
  induction n as [|n IH]; intros log s labels log' s' R I.
  - cbn in R. injection R as <- <- <-. rewrite app_nil_r. auto.
  - cbn [createSessions] in R. unfold bind, ret in R.
    destruct (createSession_Inv rnd m log s I) as [I1 A1].
    unfold bind, ret in I1, A1.
    destruct (createSession rnd log s) as [[c log1] s1]. cbn [fst snd] in *.
    destruct (createSessions rnd n log1 s1) as [[cs log2] s2] eqn:R2.
    cbn [fst snd] in R. injection R as <- <- <-.
    destruct (IH _ _ _ _ _ R2 I1) as (I2 & A2 & L2).
    split; [exact I2|]. split.
    + rewrite A2, A1, <- app_assoc. reflexivity.
    + cbn. now rewrite L2.
Qed.

(** Any state a request can start from satisfies the invariant for the
    blocks that begin after the current end of the log. *)
Lemma Inv_start log s :
  cache_ok s ->
  let a := assignedOf log in
  let pos := List.length a mod BLOCK_SIZE in
  Inv (if Nat.eqb pos 0 then List.length a
       else List.length a - pos + BLOCK_SIZE) log s.
Proof.
  intros C a pos. unfold Inv. fold a. fold pos.
  split; [exact C|].
  assert (pos < 4) by (unfold pos, BLOCK_SIZE; lia).
  destruct (Nat.eqb_spec pos 0) as [E|N]; unfold BLOCK_SIZE in *; split;
    intros; lia.
Qed.

(** *** Block balance *)

Lemma windowAt_blockAt i labels :
  i mod BLOCK_SIZE = 0 -> windowAt i labels = blockAt (i / BLOCK_SIZE) labels.
Proof.
  intro H. unfold windowAt, blockAt. f_equal. f_equal.
  unfold BLOCK_SIZE in *. lia.
Qed.

Lemma unit_interval_const q :
  (0 <= q)%Q -> (q < 1)%Q -> unit_interval (fun _ => q).
Proof. intros L H k. split; assumption. Qed.

Lemma unit_interval_drawsTwoBlocks : unit_interval drawsTwoBlocks.
Proof.
  intro k. unfold drawsTwoBlocks.
  destruct k as [|[|[|[|k]]]]; split; (discriminate || reflexivity).
Qed.

(** C2.  Starting from any log and any cache the randomizer can have left
    behind, after [n] sequential non-forced requests (each label appended to
    the log before the next request) the counted assignments are the old
    ones followed by the [n] new labels, and every complete block of four
    that lies on a block boundary inside the new labels holds exactly two
    "detailed" and two "simple". *)
Theorem complete_blocks_balanced (rnd : nat -> Q) (log : list Session)
    (s : RState) (n k : nat) :
  unit_interval rnd -> cache_ok s ->
  let r := createSessions rnd n log s in
  assignedOf (logOf r) = assignedOf log ++ labelsOf r /\
  List.length (labelsOf r) = n /\
  (List.length (assignedOf log) <= k * BLOCK_SIZE ->
   k * BLOCK_SIZE + BLOCK_SIZE <= List.length (assignedOf (logOf r)) ->
   balanced (blockAt k (assignedOf (logOf r)))).
Proof.
  intros _ C r. subst r.
  destruct (createSessions rnd n log s) as [[labels log'] s'] eqn:R.
  unfold labelsOf, logOf; cbn [fst snd].
  pose proof (Inv_start log s C) as I. cbn zeta in I.
  destruct (createSessions_Inv _ _ _ _ _ _ _ _ R I) as ((_ & B & _) & A & L).
  split; [exact A|]. split; [exact L|].
  intros Hk Hl. apply B; [|exact Hl].
  destruct (Nat.eqb_spec (List.length (assignedOf log) mod BLOCK_SIZE) 0);
    unfold BLOCK_SIZE in *; lia.
Qed.

Lemma complete_blocks_balanced_witness :
  balanced (blockAt 1 (assignedOf (logOf
    (createSessions (fun _ => 0%Q) 8 [] freshState)))).
Proof.
  refine (proj2 (proj2 (complete_blocks_balanced (fun _ => 0%Q) [] freshState
                          8 1 _ _)) _ _).
  - apply unit_interval_const; [apply Qle_refl | reflexivity].
  - exact I.
  - vm_compute. lia.
  - vm_compute. lia.
Defined.

(** C4 (as stated) fails: with the draws [drawsTwoBlocks] the first eight
    labels are detailed, detailed, simple, simple, simple, simple, detailed,
    detailed, and the window of four that starts at the third label holds
    four "simple". *)
Lemma straddling_window_unbalanced :
  unit_interval drawsTwoBlocks /\
  labelsOf (createSessions drawsTwoBlocks 8 [] freshState)
  = ["detailed"; "detailed"; "simple"; "simple";
     "simple"; "simple"; "detailed"; "detailed"] /\
  ~ balanced (windowAt 2
       (labelsOf (createSessions drawsTwoBlocks 8 [] freshState))).
Proof.
  split; [exact unit_interval_drawsTwoBlocks|].
  split; [vm_compute; reflexivity|].
  intros [H _]. vm_compute in H. discriminate.
Qed.

(** C4 (amended).  In a run of [n] sequential non-forced requests on a fresh
    server with an empty log, every window of four consecutive labels that
    starts on a block boundary holds exactly two "detailed" and two
    "simple". *)
Theorem aligned_windows_balanced (rnd : nat -> Q) (n i : nat) :
  unit_interval rnd ->
  i mod BLOCK_SIZE = 0 -> i + BLOCK_SIZE <= n ->
  balanced (windowAt i (labelsOf (createSessions rnd n [] freshState))).
Proof.
  intros _ Hi Hn.
  destruct (createSessions rnd n [] freshState) as [[labels log'] s'] eqn:R.
  unfold labelsOf; cbn [fst snd].
  pose proof (Inv_start [] freshState I) as I0. cbn in I0.
  destruct (createSessions_Inv _ _ _ _ _ _ _ _ R I0) as ((_ & B & _) & A & L).
  cbn in A. rewrite A in B.
  rewrite windowAt_blockAt by exact Hi.
  apply B; unfold BLOCK_SIZE in *; lia.
Qed.

Lemma aligned_windows_balanced_witness :
  balanced (windowAt 4 (labelsOf (createSessions drawsTwoBlocks 8 [] freshState))).
Proof.
  apply (aligned_windows_balanced drawsTwoBlocks 8 4).
  - exact unit_interval_drawsTwoBlocks.
  - reflexivity.
  - vm_compute. lia.
Defined.

Lemma assignedOf_nonForced log :
  assignedOf log
  = flat_map (fun x => match condition x with
                       | Some c => if String.eqb c "" then [] else [c]
                       | None => []
                       end)
             (filter (fun x => negb (condition_forced x)) log).
Proof.
  unfold assignedOf, counted.
  induction log as [|[[[|a c]|] [|]] log IH]; cbn; rewrite ?IH; reflexivity.
Qed.

Lemma count_count_occ x l : count x l = count_occ string_dec l x.
Proof.
  unfold count. induction l as [|y l IH]; [reflexivity|]. cbn.
  destruct (string_dec y x) as [->|N].
  - rewrite String.eqb_refl. cbn. now rewrite IH.
  - destruct (String.eqb_spec x y) as [->|_]; [congruence | exact IH].
Qed.

(** C9.  The labels counted are those of the sessions of the log that are
    not forced (and have a condition).  Mid-block, when the cached block is
    missing, has the wrong length, or disagrees with the last of these
    labels, the call returns normally: it gives the label with strictly
    fewer occurrences among them and leaves the state as it was; on a tie
    it makes one draw [r] and gives "detailed" when [r < 0.5], "simple"
    otherwise, without touching the cache.  Forced sessions count for
    nothing, whatever their number and condition. *)
Theorem fallback_assigns_smaller_group (rnd : nat -> Q) (log : list Session)
    (s : RState) :
  let nonForced := filter (fun x => negb (condition_forced x)) log in
  let labels :=
    flat_map (fun x => match condition x with
                       | Some c => if String.eqb c "" then [] else [c]
                       | None => []
                       end) nonForced in
  let pos := List.length labels mod 4 in
  let detailedCount := count_occ string_dec labels "detailed" in
  let simpleCount := count_occ string_dec labels "simple" in
  pos <> 0 ->
  ~ (exists b, currentBlock s = Some b /\ List.length b = 4 /\
               firstn pos b = skipn (List.length labels - pos) labels) ->
  exists c s', blockRandomize rnd log s = (c, s') /\
    (detailedCount < simpleCount -> c = "detailed" /\ s' = s) /\
    (simpleCount < detailedCount -> c = "simple" /\ s' = s) /\
    (detailedCount = simpleCount ->
       c = (if Qltb (rnd (draws s)) (1 # 2) then "detailed" else "simple") /\
       currentBlock s' = currentBlock s /\ draws s' = S (draws s)).
Proof.
  intros nonForced labels pos dc sc Hp Hn.
  assert (A : assignedOf log = labels) by apply assignedOf_nonForced.
  assert (Hp' : List.length (assignedOf log) mod BLOCK_SIZE <> 0)
    by (rewrite A; exact Hp).
  assert (Hn' : ~ cache_usable (currentBlock s)
                    (List.length (assignedOf log) mod BLOCK_SIZE)
                    (assignedOf log)) by (rewrite A; exact Hn).
  rewrite (blockRandomize_fallback rnd log s Hp' Hn').
  rewrite !count_count_occ, A. fold dc. fold sc.
  destruct (Nat.ltb_spec dc sc) as [H1|H1].
  - eexists _, _. split; [reflexivity|]. repeat split; intros; lia.
  - destruct (Nat.ltb_spec sc dc) as [H2|H2].
    + eexists _, _. split; [reflexivity|]. repeat split; intros; lia.
    + eexists _, _. split; [reflexivity|]. repeat split; intros; lia.
Qed.

Lemma fallback_assigns_smaller_group_witness :
  exists c s',
    blockRandomize drawsTwoBlocks
      [mkSession (Some "detailed") true; mkSession (Some "detailed") true;
       mkSession (Some "simple") false] freshState
    = (c, s') /\ c = "detailed" /\ s' = freshState.
Proof.
  destruct (fallback_assigns_smaller_group drawsTwoBlocks
              [mkSession (Some "detailed") true;
               mkSession (Some "detailed") true;
               mkSession (Some "simple") false] freshState)
    as (c & s' & E & H1 & _).
  - vm_compute. discriminate.
  - intros (b & Eb & _). discriminate.
  - exists c, s'. split; [exact E|]. apply H1. vm_compute. lia.
Defined.

End RandomizerFacts.
(** ** Facts about wrapping *)

Module TextFacts.
Import Text.

(** *** Splitting and joining *)

Lemma split_space_nonempty s : split_space s <> [].
Proof.
  destruct s as [|c rest]; simpl; [discriminate|].
  destruct (Ascii.eqb c space); [discriminate|].
  destruct (split_space rest); discriminate.
Qed.

Lemma split_space_app_space a b :
  split_space (a ++ String space b) = split_space a ++ split_space b.
Proof.
  induction a as [|c a IH]; simpl.
  - reflexivity.
  - destruct (Ascii.eqb c space).
    + now rewrite IH.
    + rewrite IH. pose proof (split_space_nonempty a) as N.
      destruct (split_space a); [contradiction | reflexivity].
Qed.

Lemma joinSpace_cons x l :
  l <> [] -> joinSpace (x :: l) = (x ++ String space (joinSpace l))%string.
Proof. destruct l; [contradiction | reflexivity]. Qed.

Lemma joinSpace_cons_char c w ws :
  joinSpace (String c w :: ws) = String c (joinSpace (w :: ws)).
Proof. destruct ws; reflexivity. Qed.

Lemma append_assoc (a b c : string) : ((a ++ b) ++ c = a ++ (b ++ c))%string.
Proof. induction a; simpl; congruence. Qed.

Lemma joinSpace_app l1 l2 :
  l1 <> [] -> l2 <> [] ->
  joinSpace (l1 ++ l2) = (joinSpace l1 ++ String space (joinSpace l2))%string.
Proof.
  intros N1 N2. induction l1 as [|x l1 IH]; [contradiction|].
  destruct l1 as [|y l1].
  - simpl app. now rewrite joinSpace_cons.
  - change ((x :: y :: l1) ++ l2) with (x :: ((y :: l1) ++ l2)).
    rewrite joinSpace_cons by discriminate.
    rewrite IH by discriminate.
    rewrite (joinSpace_cons x (y :: l1)) by discriminate.
    rewrite append_assoc. reflexivity.
Qed.

(** Joining the pieces gives the string back. *)
Lemma joinSpace_split s : joinSpace (split_space s) = s.
Proof.
  induction s as [|c rest IH]; simpl; [reflexivity|].
  destruct (Ascii.eqb_spec c space) as [->|N].
  - rewrite joinSpace_cons by apply split_space_nonempty. now rewrite IH.
  - pose proof (split_space_nonempty rest) as NE.
    destruct (split_space rest) as [|w ws]; [contradiction|].
    rewrite joinSpace_cons_char. now rewrite IH.
Qed.

Lemma words_app_space a b :
  words (a ++ String space b) = words a ++ words b.
Proof. unfold words. now rewrite split_space_app_space, filter_app. Qed.

Lemma words_joinSpace l : words (joinSpace l) = flat_map words l.
Proof.
  induction l as [|x l IH]; [reflexivity|].
  destruct l as [|y l].
  - simpl. now rewrite app_nil_r.
  - rewrite joinSpace_cons by discriminate.
    rewrite words_app_space, IH. reflexivity.
Qed.

Lemma words_split s : flat_map words (split_space s) = words s.
Proof. now rewrite <- words_joinSpace, joinSpace_split. Qed.

(** *** The loop of [wrap] keeps the words *)

Lemma wrapStep_words maxChars lines cur w :
  let st := wrapStep maxChars (lines, cur) w in
  flat_map words (fst st) ++ words (snd st)
  = flat_map words lines ++ words cur ++ words w.
Proof.
  unfold wrapStep.
  destruct (truthy cur) eqn:T.
  - destruct (gt_len _ maxChars); cbn [andb fst snd].
    + rewrite flat_map_app. simpl. now rewrite app_nil_r, <- app_assoc.
    + change (" " ++ w)%string with (String space w).
      rewrite words_app_space. reflexivity.
  - rewrite andb_false_r. cbn [fst snd].
    destruct cur; [reflexivity | discriminate].
Qed.

Lemma wrapLoop_words maxChars ws : forall lines cur,
  flat_map words (wrapFinish (fold_left (wrapStep maxChars) ws (lines, cur)))
  = flat_map words lines ++ words cur ++ flat_map words ws.
Proof.
  induction ws as [|w ws IH]; intros lines cur.
  - simpl. rewrite app_nil_r. destruct cur; simpl.
    + now rewrite app_nil_r.
    + rewrite flat_map_app. simpl. now rewrite app_nil_r.
  - cbn [fold_left].
    pose proof (wrapStep_words maxChars lines cur w) as S. cbn zeta in S.
    destruct (wrapStep maxChars (lines, cur) w) as [lines' cur'].
    cbn [fst snd] in S. rewrite IH. cbn [flat_map].
    rewrite !app_assoc. f_equal. rewrite <- app_assoc. exact S.
Qed.

Lemma wrapChars_words maxChars str :
  flat_map words (wrapChars maxChars str) = words str.
Proof.
  unfold wrapChars. destruct (le_len _ maxChars).
  - simpl. apply app_nil_r.
  - rewrite wrapLoop_words. simpl. apply words_split.
Qed.

(** *** Input that is already normalized *)

Lemma split_space_nospace s :
  Forall (fun w => hasSpace w = false) (split_space s).
Proof.
  induction s as [|c rest IH]; simpl.
  - repeat constructor.
  - destruct (Ascii.eqb c space) eqn:E.
    + constructor; [reflexivity | exact IH].
    + destruct (split_space rest) as [|w ws]; [repeat constructor; simpl; now rewrite E|].
      inversion IH; subst. constructor; [|assumption].
      simpl. rewrite E. assumption.
Qed.

Lemma split_space_word w : hasSpace w = false -> split_space w = [w].
Proof.
  induction w as [|c w IH]; simpl; [reflexivity|].
  intro H. apply orb_false_iff in H as [H1 H2].
  rewrite H1, (IH H2). reflexivity.
Qed.

Lemma split_space_join l :
  l <> [] -> Forall (fun w => hasSpace w = false) l ->
  split_space (joinSpace l) = l.
Proof.
  induction l as [|x l IH]; [contradiction|]. intros _ F.
  inversion F as [|? ? Hx Hl]; subst.
  destruct l as [|y l].
  - simpl. now apply split_space_word.
  - rewrite joinSpace_cons by discriminate.
    rewrite split_space_app_space, (split_space_word _ Hx).
    rewrite IH; [reflexivity | discriminate | exact Hl].
Qed.

Lemma words_nospace s : Forall (fun w => hasSpace w = false) (words s).
Proof.
  unfold words. pose proof (split_space_nospace s) as F.
  induction F as [|x l Hx Hl IH]; simpl; [constructor|].
  destruct (truthy x); [constructor|]; assumption.
Qed.

Lemma words_truthy s : Forall (fun w => truthy w = true) (words s).
Proof.
  unfold words. induction (split_space s) as [|x l IH]; simpl; [constructor|].
  destruct (truthy x) eqn:T; [constructor|]; assumption.
Qed.

Lemma normalized_split s :
  normalize s = s -> s = "" \/ split_space s = words s.
Proof.
  intro H. destruct (words s) as [|w ws] eqn:W.
  - left. rewrite <- H. unfold normalize. now rewrite W.
  - right. rewrite <- H at 1. unfold normalize. rewrite W.
    apply split_space_join; [discriminate|].
    rewrite <- W. apply words_nospace.
Qed.

Lemma joinSpace_merge l a b r :
  joinSpace (l ++ (a ++ String space b)%string :: r) = joinSpace (l ++ a :: b :: r).
Proof.
  assert (H : joinSpace ((a ++ String space b)%string :: r) = joinSpace (a :: b :: r)).
  { destruct r as [|y r].
    - reflexivity.
    - rewrite !joinSpace_cons by discriminate. now rewrite append_assoc. }
  destruct l as [|x l]; [exact H|].
  rewrite !(joinSpace_app (x :: l)) by discriminate. now rewrite H.
Qed.

Lemma truthy_append a b : truthy a = true -> truthy (a ++ b)%string = true.
Proof. destruct a; [discriminate | reflexivity]. Qed.

Lemma wrapLoop_join maxChars ws : forall lines cur,
  truthy cur = true -> Forall (fun w => truthy w = true) ws ->
  joinSpace (wrapFinish (fold_left (wrapStep maxChars) ws (lines, cur)))
  = joinSpace (lines ++ cur :: ws).
Proof.
  induction ws as [|w ws IH]; intros lines cur T F.
  - simpl. now rewrite T.
  - inversion F as [|? ? Tw Fws]; subst.
    cbn [fold_left]. unfold wrapStep. rewrite T.
    destruct (gt_len _ maxChars); cbn [andb].
    + rewrite IH by assumption. now rewrite <- app_assoc.
    + change (" " ++ w)%string with (String space w).
      rewrite IH by (auto using truthy_append).
      apply joinSpace_merge.
Qed.

Lemma wrapChars_normalized maxChars str :
  normalize str = str -> joinSpace (wrapChars maxChars str) = str.
Proof.
  intro H. unfold wrapChars. destruct (le_len _ maxChars); [reflexivity|].
  destruct (normalized_split _ H) as [->|S].
  { cbn. now rewrite andb_false_r. }
  pose proof (words_truthy str) as F. rewrite <- S in F.
  pose proof (joinSpace_split str) as J.
  clear S. revert F J. generalize (split_space str) as pieces.
  intros [|w ws] F J; [exact J|].
  apply Forall_cons_iff in F as [Tw Fws].
  cbn [fold_left]. unfold wrapStep at 2. cbn [truthy].
  rewrite andb_false_r.
  rewrite wrapLoop_join by assumption. exact J.
Qed.

(** *** Lines longer than the character budget *)

Lemma le_len_not_gt n maxChars :
  le_len n maxChars = true -> gt_len n maxChars = false.
Proof.
  destruct maxChars; simpl; try discriminate; try reflexivity.
  intro H. apply Z.leb_le in H. apply Z.ltb_ge. exact H.
Qed.

Lemma wrapLoop_ok maxChars ws : forall lines cur,
  Forall (lineOk maxChars) lines -> lineOk maxChars cur ->
  Forall (fun w => hasSpace w = false) ws ->
  Forall (lineOk maxChars)
         (wrapFinish (fold_left (wrapStep maxChars) ws (lines, cur))).
Proof.
  induction ws as [|w ws IH]; intros lines cur L C F.
  - simpl. destruct (truthy cur); [|exact L].
    apply Forall_app. split; [exact L | apply Forall_cons; [exact C | apply Forall_nil]].
  - inversion F as [|? ? Hw Fws]; subst.
    cbn [fold_left]. unfold wrapStep.
    destruct (truthy cur) eqn:T.
    + destruct (gt_len _ maxChars) eqn:G; cbn [andb].
      * apply IH; [|right; exact Hw | exact Fws].
        apply Forall_app. split; [exact L | apply Forall_cons; [exact C | apply Forall_nil]].
      * apply IH; [exact L | left; exact G | exact Fws].
    + rewrite andb_false_r. apply IH; [exact L | right; exact Hw | exact Fws].
Qed.

Lemma wrapChars_ok maxChars str :
  Forall (lineOk maxChars) (wrapChars maxChars str).
Proof.
  unfold wrapChars. destruct (le_len _ maxChars) eqn:E.
  - apply Forall_cons; [|apply Forall_nil]. left. now apply le_len_not_gt.
  - apply wrapLoop_ok; [apply Forall_nil | right; reflexivity |].
    apply split_space_nospace.
Qed.

(** *** Appending text never removes lines *)

Lemma split_space_append a :
  exists pa la, split_space a = pa ++ [la] /\
    forall b, split_space (a ++ b)
              = pa ++ (la ++ hd "" (split_space b))%string :: tl (split_space b).
Proof.
  induction a as [|c a (pa & la & E & H)].
  - exists [], "". split; [reflexivity|]. intro b. simpl.
    pose proof (split_space_nonempty b) as N.
    destruct (split_space b); [contradiction | reflexivity].
  - simpl. destruct (Ascii.eqb c space).
    + exists ("" :: pa), la. split; [now rewrite E|].
      intro b. now rewrite H.
    + destruct pa as [|p pa].
      * exists [], (String c la). split; [now rewrite E|].
        intro b. now rewrite H.
      * exists (String c p :: pa), la. split; [now rewrite E|].
        intro b. now rewrite H.
Qed.

Lemma lineCount_eq lines cur :
  lineCount (lines, cur)
  = (List.length lines + if truthy cur then 1 else 0)%nat.
Proof.
  unfold lineCount, wrapFinish. destruct (truthy cur).
  - now rewrite length_app.
  - lia.
Qed.

Lemma gt_len_mono n m maxChars :
  n <= m -> gt_len n maxChars = true -> gt_len m maxChars = true.
Proof.
  destruct maxChars; simpl; auto.
  intros L H. apply Z.ltb_lt in H. apply Z.ltb_lt. lia.
Qed.

Lemma le_len_mono n m maxChars :
  n <= m -> le_len m maxChars = true -> le_len n maxChars = true.
Proof.
  destruct maxChars; simpl; auto.
  intros L H. apply Z.leb_le in H. apply Z.leb_le. lia.
Qed.

Lemma length_append (a b : string) :
  String.length (a ++ b) = String.length a + String.length b.
Proof. induction a; simpl; auto. Qed.

(** A turn of the loop never lowers the number of lines. *)
Lemma wrapStep_lineCount maxChars st w :
  lineCount st <= lineCount (wrapStep maxChars st w).
Proof.
  destruct st as [lines cur]. unfold wrapStep.
  destruct (truthy cur) eqn:T.
  - destruct (gt_len _ maxChars); cbn [andb]; rewrite !lineCount_eq, ?T.
    + rewrite length_app. simpl. lia.
    + rewrite truthy_append by exact T. lia.
  - rewrite andb_false_r. rewrite !lineCount_eq, T. lia.
Qed.

Lemma wrapLoop_lineCount maxChars ws : forall st,
  lineCount st <= lineCount (fold_left (wrapStep maxChars) ws st).
Proof.
  induction ws as [|w ws IH]; intro st; simpl; [lia|].
  etransitivity; [apply wrapStep_lineCount | apply IH].
Qed.

(** A turn on a longer word gives at least as many lines. *)
Lemma wrapStep_longer_word maxChars st w x :
  lineCount (wrapStep maxChars st w)
  <= lineCount (wrapStep maxChars st (w ++ x)).
Proof.
  destruct st as [lines cur]. unfold wrapStep.
  assert (TW : (if truthy w then 1 else 0) <= (if truthy (w ++ x) then 1 else 0)).
  { destruct w; simpl; [destruct (truthy x); lia | lia]. }
  destruct (truthy cur) eqn:T.
  - destruct (gt_len (String.length (cur ++ " " ++ w)) maxChars) eqn:G;
      cbn [andb].
    + assert (G' : gt_len (String.length (cur ++ " " ++ (w ++ x))) maxChars = true).
      { eapply gt_len_mono; [|exact G].
        rewrite ?length_append; simpl; rewrite ?length_append; lia. }
      rewrite G'. cbn [andb]. rewrite !lineCount_eq. lia.
    + destruct (gt_len (String.length (cur ++ " " ++ (w ++ x))) maxChars);
        cbn [andb]; rewrite !lineCount_eq, ?length_app;
        rewrite ?truthy_append by exact T; simpl; lia.
  - rewrite !andb_false_r. rewrite !lineCount_eq. lia.
Qed.

Lemma wrapChars_append_lines maxChars a b :
  words a <> [] ->
  List.length (wrapChars maxChars a) <= List.length (wrapChars maxChars (a ++ b)).
Proof.
  intro W.
  assert (Wab : words (a ++ b) <> []).
  { destruct (split_space_append a) as (pa & la & E & H).
    unfold words in *. rewrite H. rewrite E in W.
    rewrite filter_app in *. simpl in *.
    destruct (filter truthy pa); [|discriminate].
    destruct la; simpl in *; [contradiction | discriminate]. }
  assert (One : 1 <= List.length (wrapChars maxChars (a ++ b))).
  { pose proof (wrapChars_words maxChars (a ++ b)) as F.
    destruct (wrapChars maxChars (a ++ b)); simpl in *; [congruence | lia]. }
  unfold wrapChars in *.
  destruct (le_len (String.length a) maxChars) eqn:Ea; [exact One|].
  destruct (le_len (String.length (a ++ b)) maxChars) eqn:Eab.
  - apply (le_len_mono (String.length a)) in Eab; [congruence|].
    rewrite length_append. lia.
  - destruct (split_space_append a) as (pa & la & E & H).
    rewrite H, E. rewrite !fold_left_app. cbn [fold_left].
    fold (lineCount (wrapStep maxChars
            (fold_left (wrapStep maxChars) pa ([], "")) la)).
    etransitivity; [apply wrapStep_longer_word|].
    apply wrapLoop_lineCount.
Qed.

(** *** Wrapping and normalization *)

Lemma wrapChars_one_word maxChars str :
  hasSpace str = false -> str <> "" -> wrapChars maxChars str = [str].
Proof.
  intros H N. unfold wrapChars. destruct (le_len _ maxChars); [reflexivity|].
  rewrite (split_space_word str H). cbn [fold_left wrapStep truthy].
  rewrite andb_false_r. cbn [wrapFinish].
  destruct str; [congruence | reflexivity].
Qed.

(** C6 (as stated) fails: a text with a double space that fits the budget
    comes back as it is, so the joined lines are the input and not the
    input normalized; on the splitting path too a repeated space can stay
    at the end of a line.  Nor does text that fits the budget always come
    back as one line: the seven characters of "aaa bbb" are 35.91 wide at
    the font size 9, but binary64 gives [35.91 / (9 * 0.57)] a floor of 6,
    and the text is split; with the font size -1 every width is negative
    and [wrap] splits all the same. *)
Lemma wrap_join_not_normalized :
  PrimFloat.ltb 0 100 = true /\
  wrap "a  b" 100 10 = ["a  b"] /\
  joinSpace (wrap "a  b" 100 10) = "a  b" /\
  normalize "a  b" = "a b" /\
  wrap "a  b c" 18 10 = ["a "; "b c"] /\
  joinSpace (wrap "a  b c" 18 10) = "a  b c" /\
  normalize "a  b c" = "a b c" /\
  PrimFloat.leb (approxW "aaa bbb" 9) 35.91 = true /\
  wrap "aaa bbb" 35.91 9 = ["aaa"; "bbb"] /\
  PrimFloat.leb (approxW "aa bb" (-1)) 10 = true /\
  wrap "aa bb" 10 (-1) = ["aa"; "bb"].
Proof. repeat split; vm_compute; reflexivity. Qed.

(** C6 (amended).  For every string, budget and font size, the lines of
    [wrap] joined with single spaces have the same words as the input:
    normalizing the joined lines gives the normalized input.  When the
    input is already normalized, the joined lines are the input itself.
    A text of at most [Math.floor(maxPx / (fontSize * 0.57))] characters,
    and a text that is one word, comes back as the single line [[str]],
    unchanged; at the budgets of the layout engine these are the label of
    a decision of at most 54 characters and the description of a hidden
    action of at most 68. *)
Theorem wrap_join_normalizes (str : string) (maxPx fontSize : float) :
  normalize (joinSpace (wrap str maxPx fontSize)) = normalize str /\
  (normalize str = str -> joinSpace (wrap str maxPx fontSize) = str) /\
  (le_len (String.length str) (maxCharsOf maxPx fontSize) = true \/
   (hasSpace str = false /\ str <> "") ->
   wrap str maxPx fontSize = [str]) /\
  ((String.length str <= 54)%nat ->
   wrap str (Layout.fl Layout.CFG.stepW * 0.65) 10 = [str]) /\
  ((String.length str <= 68)%nat ->
   wrap str (Layout.fl Layout.CFG.stepW - 50)
        (Layout.fl Layout.CFG.expActionFontSz) = [str]).
Proof.
  unfold wrap. split; [|split; [|split; [|split]]].
  - unfold normalize. f_equal.
    rewrite words_joinSpace. apply wrapChars_words.
  - apply wrapChars_normalized.
  - intros [H|[H N]].
    + unfold wrapChars. now rewrite H.
    + now apply wrapChars_one_word.
  - intro L.
    assert (E : maxCharsOf (Layout.fl Layout.CFG.stepW * 0.65) 10 = Int 54)
      by (vm_compute; reflexivity).
    rewrite E. unfold wrapChars, le_len.
    destruct (Z.leb_spec (Z.of_nat (String.length str)) 54);
      [reflexivity | lia].
  - intro L.
    assert (E : maxCharsOf (Layout.fl Layout.CFG.stepW - 50)
                           (Layout.fl Layout.CFG.expActionFontSz) = Int 68)
      by (vm_compute; reflexivity).
    rewrite E. unfold wrapChars, le_len.
    destruct (Z.leb_spec (Z.of_nat (String.length str)) 68);
      [reflexivity | lia].
Qed.

Lemma wrap_join_normalizes_witness :
  joinSpace (wrap "aa bb cc" 30 10) = "aa bb cc" /\
  wrap "aa bb" 30 10 = ["aa bb"] /\
  wrap "aaaaaaaa" 30 10 = ["aaaaaaaa"].
Proof.
  split; [|split].
  - apply (proj1 (proj2 (wrap_join_normalizes "aa bb cc" 30 10))).
    vm_compute. reflexivity.
  - apply (proj1 (proj2 (proj2 (wrap_join_normalizes "aa bb" 30 10)))).
    left. vm_compute. reflexivity.
  - apply (proj1 (proj2 (proj2 (wrap_join_normalizes "aaaaaaaa" 30 10)))).
    right. split; [reflexivity | discriminate].
Defined.

(** *** Wrapping and the pixel budget *)

(** C7 (as stated) fails: for the budget 51.29999999999999 and font size
    10, binary64 gives [10 * 0.57 = 5.699999999999999] and
    [51.29999999999999 / 5.699999999999999 = 9], so the character budget is
    9; the two-word line "aaaa bbbb" has nine characters and is kept, and
    its estimated width [9 * 10 * 0.57 = 51.3] exceeds the budget. *)
Lemma wrap_two_words_over_budget :
  PrimFloat.ltb 0 51.29999999999999 = true /\
  maxCharsOf 51.29999999999999 10 = Int 9 /\
  wrap "aaaa bbbb cccc" 51.29999999999999 10 = ["aaaa bbbb"; "cccc"] /\
  hasSpace "aaaa bbbb" = true /\
  PrimFloat.ltb 51.29999999999999 (approxW "aaaa bbbb" 10) = true.
Proof. repeat split; vm_compute; reflexivity. Qed.

(** Every line passed the character test of [wrap]. *)
Lemma wrap_line_chars str maxPx fontSize line :
  In line (wrap str maxPx fontSize) ->
  (hasSpace line = true ->
   gt_len (String.length line) (maxCharsOf maxPx fontSize) = false) /\
  (gt_len (String.length line) (maxCharsOf maxPx fontSize) = true ->
   hasSpace line = false).
Proof.
  intro H.
  pose proof (wrapChars_ok (maxCharsOf maxPx fontSize) str) as F.
  rewrite Forall_forall in F. destruct (F line H) as [G|S].
  - split; [auto | congruence].
  - split; [congruence | auto].
Qed.

(** A budget whose character count is [z], and for which the widths of up
    to [z] characters have been checked, bounds the width of every line of
    more than one word. *)
Lemma checked_budget_width z str maxPx fontSize line :
  maxCharsOf maxPx fontSize = Int z ->
  fitsUpTo (Z.to_nat z) fontSize maxPx = true ->
  In line (wrap str maxPx fontSize) -> hasSpace line = true ->
  PrimFloat.leb (approxW line fontSize) maxPx = true.
Proof.
  intros E F I S.
  destruct (wrap_line_chars _ _ _ _ I) as [G _]. specialize (G S).
  rewrite E in G. cbn [gt_len] in G. apply Z.ltb_ge in G.
  unfold fitsUpTo in F. rewrite forallb_forall in F.
  apply (F (String.length line)). apply in_seq. lia.
Qed.

Ltac checked_budget :=
  eapply checked_budget_width;
  [ vm_compute; reflexivity | vm_compute; reflexivity
  | eassumption | assumption ].

(** C7 (amended).  [wrap] returns for every string, budget and font size,
    and every line it returns passed its character test: a line that holds
    a space (so every line of more than one word) is not longer than
    [maxChars = Math.floor(maxPx / (fontSize * 0.57))] characters, and a
    line longer than [maxChars] characters holds no space, that is, it is
    one unsplittable word alone on its line.  At the budgets the program
    passes -- the label of a decision, the description of a hidden action
    when it is measured and when it is drawn, the name of a step whose
    identifier has at most eight characters -- a line that holds a space
    is at most as wide as the budget, with the widths as binary64 computes
    them. *)
Theorem wrap_long_line_is_one_word :
  (forall (str : string) (maxPx fontSize : float) (line : string),
     In line (wrap str maxPx fontSize) ->
     (hasSpace line = true ->
      gt_len (String.length line) (maxCharsOf maxPx fontSize) = false) /\
     (gt_len (String.length line) (maxCharsOf maxPx fontSize) = true ->
      hasSpace line = false)) /\
  (forall (str line : string),
     In line (wrap str (Layout.fl Layout.CFG.stepW * 0.65) 10) ->
     hasSpace line = true ->
     PrimFloat.leb (approxW line 10) (Layout.fl Layout.CFG.stepW * 0.65)
     = true) /\
  (forall (str line : string),
     In line (wrap str (Layout.fl Layout.CFG.stepW - 50)
                   (Layout.fl Layout.CFG.expActionFontSz)) ->
     hasSpace line = true ->
     PrimFloat.leb (approxW line (Layout.fl Layout.CFG.expActionFontSz))
                   (Layout.fl Layout.CFG.stepW - 50)
     = true) /\
  (forall (str line : string),
     In line (wrap str (Layout.fl Layout.CFG.stepW - 52)
                   (Layout.fl Layout.CFG.expActionFontSz)) ->
     hasSpace line = true ->
     PrimFloat.leb (approxW line (Layout.fl Layout.CFG.expActionFontSz))
                   (Layout.fl Layout.CFG.stepW - 52)
     = true) /\
  (forall (step : Layout.Step) (line : string),
     (String.length (Layout.id step) <= 8)%nat ->
     In line (wrap (Layout.name step) (Layout.nameW step)
                   (Layout.fl Layout.CFG.stepFontSz)) ->
     hasSpace line = true ->
     PrimFloat.leb (approxW line (Layout.fl Layout.CFG.stepFontSz))
                   (Layout.nameW step)
     = true).
Proof.
  split; [|split; [|split; [|split]]].
  - intros str maxPx fontSize line. apply wrap_line_chars.
  - intros str line I S. checked_budget.
  - intros str line I S. checked_budget.
  - intros str line I S. checked_budget.
  - intros step line L I S. unfold Layout.nameW, approxW in I |- *.
    fold (approxW line (Layout.fl Layout.CFG.stepFontSz)).
    destruct (Layout.hasExp step);
      destruct (String.length (Layout.id step)) as [|n];
      try (do 8 (try (destruct n as [|n]))); try lia; checked_budget.
Qed.

Lemma wrap_long_line_is_one_word_witness :
  hasSpace "bbbbbbbb" = false /\
  PrimFloat.leb
    (approxW "aaaa bbbb cccc dddd eeee ffff gggg hhhh iiii jjjj kkkk" 10)
    (Layout.fl Layout.CFG.stepW * 0.65) = true.
Proof.
  split.
  - apply (proj1 wrap_long_line_is_one_word "aa bbbbbbbb" 30%float 10%float
             "bbbbbbbb" ltac:(vm_compute; auto)).
    vm_compute. reflexivity.
  - apply (proj1 (proj2 wrap_long_line_is_one_word)
             "aaaa bbbb cccc dddd eeee ffff gggg hhhh iiii jjjj kkkk llll"
             "aaaa bbbb cccc dddd eeee ffff gggg hhhh iiii jjjj kkkk").
    + vm_compute. left. reflexivity.
    + reflexivity.
Defined.

End TextFacts.
(** ** Facts about the layout engine *)

Module LayoutFacts.
Import Text Layout.
Local Open Scope Q_scope.

(** *** Determinism *)

Lemma layoutStep_ext st1 st2 cx phase acc step :
  (forall x, has (expandedSteps st1) x = has (expandedSteps st2) x) ->
  layoutStep st1 cx phase acc step = layoutStep st2 cx phase acc step.
Proof.
  intro H. unfold layoutStep. destruct acc as [es y].
  destruct (isDecisionPoint step); [reflexivity|].
  now rewrite H.
Qed.

Lemma layoutSteps_ext st1 st2 cx phase l : forall acc,
  (forall x, has (expandedSteps st1) x = has (expandedSteps st2) x) ->
  fold_left (layoutStep st1 cx phase) l acc
  = fold_left (layoutStep st2 cx phase) l acc.
Proof.
  induction l as [|s l IH]; intros acc H; simpl; [reflexivity|].
  rewrite (layoutStep_ext st1 st2) by exact H. now apply IH.
Qed.

Lemma layoutPhases_ext st1 st2 cx l : forall acc,
  (forall x, has (expandedSteps st1) x = has (expandedSteps st2) x) ->
  fold_left (layoutPhase st1 cx) l acc = fold_left (layoutPhase st2 cx) l acc.
Proof.
  induction l as [|p l IH]; intros acc H; simpl; [reflexivity|].
  rewrite IH by exact H. f_equal.
  unfold layoutPhase. destruct acc as [es y].
  now rewrite (layoutSteps_ext st1 st2) by exact H.
Qed.

(** C5.  [computeLayout] reads the process description and the set of
    expanded steps and nothing else: two calls on the same description, in
    module states whose sets of expanded steps have the same members, give
    the same layout -- the same elements with the same positions and
    sizes, the same width and height -- whatever the other module variables
    hold. *)
Theorem computeLayout_deterministic (PROCESS_MAP : ProcessMap)
    (st1 st2 : ModuleState) :
  (forall x, has (expandedSteps st1) x = has (expandedSteps st2) x) ->
  computeLayout PROCESS_MAP st1 = computeLayout PROCESS_MAP st2.
Proof.
  intro H. unfold computeLayout.
  now rewrite (layoutPhases_ext st1 st2) by exact H.
Qed.

Lemma computeLayout_deterministic_witness :
  computeLayout sampleMap (mkModuleState ["2.1"; "1.1"] None "pm" 0 None)
  = computeLayout sampleMap
      (mkModuleState ["1.1"; "2.1"; "1.1"] (Some "map") "pmb1" 1
                     (Some (computeLayout sampleMap sampleState))).
Proof.
  apply computeLayout_deterministic.
  intro x. simpl.
  destruct (x =? "1.1")%string, (x =? "2.1")%string; reflexivity.
Defined.

(** *** Task-box height *)

Lemma Math_max_ge_r a b : b <= Math_max a b.
Proof.
  unfold Math_max. destruct (Qltb a b) eqn:E.
  - apply Qle_refl.
  - now apply Qltb_ge.
Qed.

Lemma Math_max_mono a a' b : a <= a' -> Math_max a b <= Math_max a' b.
Proof.
  intro H. unfold Math_max.
  destruct (Qltb a b) eqn:E, (Qltb a' b) eqn:E';
    rewrite ?Qltb_lt, ?Qltb_ge in *; lra.
Qed.

Lemma qlen_mono {A B} (l : list A) (l' : list B) :
  (List.length l <= List.length l')%nat -> qlen l <= qlen l'.
Proof. intro H. unfold qlen. rewrite <- Zle_Qle. lia. Qed.

(** The height of a task box as a function of the number of name lines. *)
Lemma stepDims_h step :
  dims_h (stepDims step)
  = Math_max (q CFG.stepPadTop
              + qlen (wrap (name step) (nameW step) (fl CFG.stepFontSz))
                * q CFG.stepNameLineH
              + q CFG.stepNameBadgeGap + q CFG.stepBadgeRowH
              + q CFG.stepPadBottom)
             (q CFG.stepMinH).
Proof. reflexivity. Qed.

(** C8 (as stated) fails: for the step "1.1" the name budget is 60
    characters; a name of 81 characters made of two words of 40 wraps into
    two lines and gives a box of height 84, while a longer name, one word of
    82 characters, stays on one line and gives a box of height 67.  Even
    appending can lower the box when the name holds no word: sixty spaces
    fit the budget and count as one line (height 67); one more space and
    the name is split into empty pieces, no line is left and the box falls
    to the minimum height 56. *)
Lemma longer_name_lower_box :
  maxCharsOf (nameW (withName sampleStep twoWords81)) (fl CFG.stepFontSz) = Int 60 /\
  (String.length twoWords81 < String.length oneWord82)%nat /\
  dims_h (stepDims (withName sampleStep twoWords81)) == 84 /\
  dims_h (stepDims (withName sampleStep oneWord82)) == 67 /\
  dims_h (stepDims (withName sampleStep oneWord82))
  < dims_h (stepDims (withName sampleStep twoWords81)) /\
  dims_h (stepDims (withName sampleStep spaces60)) == 67 /\
  dims_h (stepDims (withName sampleStep (spaces60 ++ " "))) == 56.
Proof. repeat split; vm_compute; reflexivity. Qed.

(** C8 (amended).  The height of a task box is never below the minimum
    height [stepMinH], whatever the step; and appending text to a name that
    holds at least one word never lowers the height. *)
Theorem stepDims_floor_and_append (step : Step) (suffix : string) :
  q CFG.stepMinH <= dims_h (stepDims step) /\
  (words (name step) <> [] ->
   dims_h (stepDims step)
   <= dims_h (stepDims (withName step (name step ++ suffix)))).
Proof.
  split.
  - rewrite stepDims_h. apply Math_max_ge_r.
  - intro W. rewrite !stepDims_h.
    apply Math_max_mono.
    change (nameW (withName step (name step ++ suffix))) with (nameW step).
    change (name (withName step (name step ++ suffix)))
      with (name step ++ suffix)%string.
    pose proof (TextFacts.wrapChars_append_lines
                  (maxCharsOf (nameW step) (fl CFG.stepFontSz))
                  (name step) suffix W) as L.
    apply qlen_mono in L. unfold wrap.
    assert (P : 0 <= q CFG.stepNameLineH) by (vm_compute; discriminate).
    nra.
Qed.

Lemma stepDims_floor_and_append_witness :
  dims_h (stepDims sampleStep)
  <= dims_h (stepDims (withName sampleStep (name sampleStep ++ " and sign it"))).
Proof.
  apply (proj2 (stepDims_floor_and_append sampleStep " and sign it")).
  vm_compute. discriminate.
Defined.

End LayoutFacts.

(** ** Facts about zone reconciliation *)

Module ReconcileFacts.
Import Layout Reconcile.
Local Open Scope Q_scope.

(** *** Shifts *)

Lemma Math_max_cases a b :
  (a < b /\ Math_max a b = b) \/ (b <= a /\ Math_max a b = a).
Proof.
  unfold Math_max. destruct (Qltb a b) eqn:E.
  - left. split; [now apply Qltb_lt | reflexivity].
  - right. split; [now apply Qltb_ge | reflexivity].
Qed.

Lemma shiftFrom_ge bs y : forall s0, s0 <= shiftFrom s0 bs y.
Proof.
  induction bs as [|b bs IH]; intro s0; simpl; [apply Qle_refl|].
  destruct (Qltb (boundaryY b) y).
  - eapply Qle_trans; [|apply IH].
    destruct (Math_max_cases s0 (cumulShift b)) as [[H ->]|[H ->]]; lra.
  - apply IH.
Qed.

Lemma shiftFrom_mono bs : forall s0 s1 y0 y1,
  s0 <= s1 -> y0 <= y1 -> shiftFrom s0 bs y0 <= shiftFrom s1 bs y1.
Proof.
  induction bs as [|b bs IH]; intros s0 s1 y0 y1 Hs Hy; simpl; [exact Hs|].
  destruct (Qltb (boundaryY b) y0) eqn:E0, (Qltb (boundaryY b) y1) eqn:E1;
    rewrite ?Qltb_lt, ?Qltb_ge in *; apply IH; try assumption;
    destruct (Math_max_cases s0 (cumulShift b)) as [[H M0]|[H M0]];
    destruct (Math_max_cases s1 (cumulShift b)) as [[H' M1]|[H' M1]];
    rewrite ?M0, ?M1; lra.
Qed.

Lemma shiftFrom_upper bs y M : forall s0,
  s0 <= M ->
  (forall b, In b bs -> boundaryY b < y -> cumulShift b <= M) ->
  shiftFrom s0 bs y <= M.
Proof.
  induction bs as [|b bs IH]; intros s0 Hs H; simpl; [exact Hs|].
  destruct (Qltb (boundaryY b) y) eqn:E.
  - apply IH; [|intros; apply H; simpl; auto].
    apply Qltb_lt in E. pose proof (H b (or_introl eq_refl) E).
    destruct (Math_max_cases s0 (cumulShift b)) as [[? ->]|[? ->]]; lra.
  - apply IH; [exact Hs | intros; apply H; simpl; auto].
Qed.

Lemma shiftFrom_lower bs y b : forall s0,
  In b bs -> boundaryY b < y -> cumulShift b <= shiftFrom s0 bs y.
Proof.
  induction bs as [|c bs IH]; intros s0 I L; [destruct I|].
  destruct I as [->|I]; simpl.
  - apply Qltb_lt in L. rewrite L.
    eapply Qle_trans; [|apply shiftFrom_ge].
    destruct (Math_max_cases s0 (cumulShift b)) as [[? ->]|[? ->]]; lra.
  - now apply IH.
Qed.

Lemma shiftAt_nonneg bs y : 0 <= shiftAt bs y.
Proof. apply shiftFrom_ge. Qed.

Lemma shiftAt_mono bs y0 y1 : y0 <= y1 -> shiftAt bs y0 <= shiftAt bs y1.
Proof. intro H. apply shiftFrom_mono; [apply Qle_refl | exact H]. Qed.

(** *** What [adjustElem] does to one element *)

Lemma topY_moveY d e : topY (moveY d e) == topY e + d.
Proof. destruct e; simpl; ring. Qed.

Lemma bottomY_moveY d e : bottomY (moveY d e) == bottomY e + d.
Proof. destruct e; simpl; ring. Qed.

Lemma topY_adjustElem bs e :
  topY (adjustElem bs e) == topY e + shiftAt bs (topY e).
Proof.
  assert (G : forall e', topY e' = topY e ->
              topY (if Qltb 0 (shiftAt bs (topY e)) then moveY (shiftAt bs (topY e)) e'
                    else e')
              == topY e + shiftAt bs (topY e)).
  { intros e' Ee. destruct (Qltb 0 (shiftAt bs (topY e))) eqn:E.
    - rewrite topY_moveY, Ee. reflexivity.
    - apply Qltb_ge in E. pose proof (shiftAt_nonneg bs (topY e)).
      rewrite Ee. lra. }
  destruct e; try (apply G; reflexivity).
  simpl. reflexivity.
Qed.

(** Tasks, decisions and the two markers move as a whole. *)
Lemma bottomY_adjustElem bs e :
  (forall p x y w h, e <> Band p x y w h) ->
  bottomY (adjustElem bs e) == bottomY e + shiftAt bs (topY e).
Proof.
  intro NB.
  assert (G : bottomY (if Qltb 0 (shiftAt bs (topY e))
                       then moveY (shiftAt bs (topY e)) e else e)
              == bottomY e + shiftAt bs (topY e)).
  { destruct (Qltb 0 (shiftAt bs (topY e))) eqn:E.
    - apply bottomY_moveY.
    - apply Qltb_ge in E. pose proof (shiftAt_nonneg bs (topY e)). lra. }
  destruct e; try exact G.
  exfalso. eapply NB. reflexivity.
Qed.

Lemma sameButVertical_refl e : sameButVertical e e.
Proof. destruct e; simpl; repeat split. Qed.

Lemma sameButVertical_trans a b c :
  sameButVertical a b -> sameButVertical b c -> sameButVertical a c.
Proof.
  destruct a, b, c; simpl; try tauto; intros; 
    repeat match goal with H : _ /\ _ |- _ => destruct H end; subst;
    repeat split.
Qed.

Lemma sameButVertical_adjustElem bs e : sameButVertical e (adjustElem bs e).
Proof.
  destruct e; simpl;
    try (destruct (Qltb 0 _); simpl; repeat split); repeat split.
Qed.

Lemma isMember_sameButVertical zone e e' :
  sameButVertical e e' -> isMember zone e' = isMember zone e.
Proof.
  destruct e, e'; simpl; try tauto; intros;
    repeat match goal with H : _ /\ _ |- _ => destruct H end; subst;
    reflexivity.
Qed.

(** *** Every pass is a shift *)

Lemma Shifting_id : Shifting (fun e => e).
Proof.
  exists (fun _ => 0). repeat split.
  - intros. apply Qle_refl.
  - intro e. ring.
  - intros e _. ring.
  - apply sameButVertical_refl.
Qed.

Lemma Shifting_adjustElem bs : Shifting (adjustElem bs).
Proof.
  exists (shiftAt bs). repeat split.
  - apply shiftAt_mono.
  - apply topY_adjustElem.
  - intros e NB. apply bottomY_adjustElem. intros p x y w h ->. discriminate.
  - apply sameButVertical_adjustElem.
Qed.

Lemma isBand_sameButVertical e e' :
  sameButVertical e e' -> isBand e' = isBand e.
Proof. destruct e, e'; simpl; tauto. Qed.

Lemma Shifting_compose f g :
  Shifting f -> Shifting g -> Shifting (fun e => g (f e)).
Proof.
  intros (sf & Mf & Tf & Bf & Sf) (sg & Mg & Tg & Bg & Sg).
  assert (Eg : forall y0 y1, y0 == y1 -> sg y0 == sg y1).
  { intros y0 y1 E. apply Qle_antisym; apply Mg; lra. }
  exists (fun y => sf y + sg (y + sf y)). repeat split.
  - intros y0 y1 H. pose proof (Mf _ _ H).
    assert (y0 + sf y0 <= y1 + sf y1) by lra.
    pose proof (Mg _ _ H1). lra.
  - intro e. rewrite Tg. rewrite (Eg _ _ (Tf e)). rewrite Tf. ring.
  - intros e NB. rewrite Bg by (now rewrite (isBand_sameButVertical _ _ (Sf e))).
    rewrite (Eg _ _ (Tf e)). rewrite Bf by exact NB. ring.
  - intro e. eapply sameButVertical_trans; [apply Sf | apply Sg].
Qed.

Lemma adjustZone_shifting layout zone reqMin :
  exists f, Shifting f /\
    elems (adjustZone layout zone reqMin) = map f (elems layout) /\
    layout_w (adjustZone layout zone reqMin) = layout_w layout /\
    cx (adjustZone layout zone reqMin) = cx layout.
Proof.
  assert (Id : exists f, Shifting f /\ elems layout = map f (elems layout) /\
                         layout_w layout = layout_w layout /\
                         cx layout = cx layout).
  { exists (fun e => e). split; [apply Shifting_id|]. now rewrite map_id. }
  unfold adjustZone. destruct reqMin as [r|]; [|exact Id].
  destruct (Qle_bool r 0); [exact Id|].
  destruct (zoneElems layout zone) as [|first rest]; [exact Id|].
  cbv zeta. destruct (Qle_bool r _); [exact Id|].
  eexists. split; [apply Shifting_adjustElem|]. simpl. auto.
Qed.

Lemma adjustLoop_shifting zones : forall layout minHeights,
  exists f, Shifting f /\
    elems (adjustLoop layout zones minHeights) = map f (elems layout) /\
    layout_w (adjustLoop layout zones minHeights) = layout_w layout /\
    cx (adjustLoop layout zones minHeights) = cx layout.
Proof.
  induction zones as [|z zs IH]; intros layout ms; simpl.
  - exists (fun e => e). split; [apply Shifting_id|]. now rewrite map_id.
  - destruct (adjustZone_shifting layout z (hd_error ms)) as (f & Sf & Ef & Wf & Cf).
    destruct (IH (adjustZone layout z (hd_error ms)) (tl ms))
      as (g & Sg & Eg & Wg & Cg).
    exists (fun e => g (f e)). split; [now apply Shifting_compose|].
    rewrite Eg, Ef, map_map, Wg, Wf, Cg, Cf. auto.
Qed.

(** *** Frame and order (C10) *)

Lemma Shifting_strict f a b :
  Shifting f -> topY a < topY b -> topY (f a) < topY (f b).
Proof.
  intros (s & M & T & _ & _) H. rewrite !T.
  assert (L : topY a <= topY b) by lra.
  pose proof (M _ _ L). lra.
Qed.

Lemma Shifting_weak f a b :
  Shifting f -> topY a <= topY b -> topY (f a) <= topY (f b).
Proof.
  intros (s & M & T & _ & _) H. rewrite !T. pose proof (M _ _ H). lra.
Qed.

Lemma Forall2_map_same {A} (R : A -> A -> Prop) (f : A -> A) l :
  (forall a, R a (f a)) -> Forall2 R l (map f l).
Proof. intro H. induction l; simpl; constructor; auto. Qed.

(** C10.  Reconciliation keeps the number, order and kind of the elements;
    of each element it may change only [y], and of a band also [h]: the
    step, phase, [x], width, radius, size, the height of a task, its
    cached dimensions with the wrapped lines, the wrapped label of a
    decision, the expansion flag and height are the same.  Of the layout
    it may change only the total height.  And an element whose top was
    above another's before has its top above the other's after (strictly
    above if it was strictly above). *)
Theorem reconcile_vertical_only (layout : LayoutT)
    (zones : option (list Zone)) (minHeights : option (list Q)) :
  let layout' := adjustLayoutForZoneMinHeights layout zones minHeights in
  Forall2 sameButVertical (elems layout) (elems layout') /\
  layout_w layout' = layout_w layout /\
  cx layout' = cx layout /\
  (forall i j a b a' b',
     nth_error (elems layout) i = Some a ->
     nth_error (elems layout) j = Some b ->
     nth_error (elems layout') i = Some a' ->
     nth_error (elems layout') j = Some b' ->
     (topY a < topY b -> topY a' < topY b') /\
     (topY a <= topY b -> topY a' <= topY b')).
Proof.
  cbv zeta.
  assert (G : exists f, Shifting f /\
            elems (adjustLayoutForZoneMinHeights layout zones minHeights)
            = map f (elems layout) /\
            layout_w (adjustLayoutForZoneMinHeights layout zones minHeights)
            = layout_w layout /\
            cx (adjustLayoutForZoneMinHeights layout zones minHeights)
            = cx layout).
  { unfold adjustLayoutForZoneMinHeights.
    destruct zones as [zs|], minHeights as [ms|];
      try (exists (fun e => e); split; [apply Shifting_id|]; now rewrite map_id).
    apply adjustLoop_shifting. }
  destruct G as (f & Sf & E & W & C). rewrite E, W, C.
  split; [|split; [reflexivity|split; [reflexivity|]]].
  - apply Forall2_map_same. destruct Sf as (s & _ & _ & _ & S). exact S.
  - intros i j a b a' b' Ha Hb Ha' Hb'.
    rewrite nth_error_map in Ha', Hb'. rewrite Ha in Ha'. rewrite Hb in Hb'.
    injection Ha' as <-. injection Hb' as <-.
    split; intro; [now apply Shifting_strict | now apply Shifting_weak].
Qed.

(** *** Total height (C3) *)

Lemma adjustZone_noop layout zone reqMin :
  zoneDelta layout zone reqMin = None -> adjustZone layout zone reqMin = layout.
Proof.
  unfold zoneDelta, span, adjustZone, Qltb.
  destruct reqMin as [r|]; [|reflexivity].
  destruct (Qle_bool r 0); [reflexivity|].
  destruct (zoneElems layout zone) as [|first rest]; [reflexivity|].
  cbv zeta. destruct (Qle_bool r _); [reflexivity|].
  simpl. discriminate.
Qed.

Lemma adjustZone_height layout zone reqMin d :
  zoneDelta layout zone reqMin = Some d ->
  0 < d /\ layout_h (adjustZone layout zone reqMin) == layout_h layout + d.
Proof.
  unfold zoneDelta, span, adjustZone.
  destruct reqMin as [r|]; [|discriminate].
  destruct (zoneElems layout zone) as [|first rest]; [discriminate|].
  cbv zeta.
  set (s := bottomY (last (first :: rest) first) - topY first).
  destruct (Qltb 0 r) eqn:E0; [|discriminate].
  destruct (Qltb s r) eqn:E1; [|discriminate].
  cbn [andb]. intro H. injection H as <-.
  pose proof E1 as L1. apply Qltb_lt in L1.
  unfold Qltb in E0, E1. apply negb_true_iff in E0, E1. rewrite E0, E1.
  cbn [layout_h]. split; [lra | reflexivity].
Qed.

Lemma appliedDeltas_sum zones : forall layout minHeights,
  layout_h (adjustLoop layout zones minHeights)
  == layout_h layout + sumQ (appliedDeltas layout zones minHeights) /\
  Forall (fun d => 0 < d) (appliedDeltas layout zones minHeights).
Proof.
  induction zones as [|z zs IH]; intros layout ms; simpl.
  - split; [ring | constructor].
  - destruct (IH (adjustZone layout z (hd_error ms)) (tl ms)) as [S P].
    destruct (zoneDelta layout z (hd_error ms)) as [d|] eqn:D.
    + destruct (adjustZone_height _ _ _ _ D) as [Pd Hd].
      split; [|constructor; assumption].
      rewrite S, Hd. simpl. ring.
    + rewrite (adjustZone_noop _ _ _ D) in *. now split.
Qed.

Lemma sumQ_nonneg l : Forall (fun d => 0 < d) l -> 0 <= sumQ l.
Proof.
  induction 1 as [|d l Hd Hl IH]; simpl; [apply Qle_refl | lra].
Qed.

(** C3.  A zone whose span already meets its minimum leaves the layout as
    it is.  Over the whole loop, the total height after reconciliation is
    the height before plus the sum of the deltas applied, each of them
    positive and equal to the required minimum minus the zone's span on the
    layout as shifted so far (a zone without member elements or without a
    positive minimum is passed over); so the total height never
    decreases. *)
Theorem reconcile_height (layout : LayoutT) (zones : list Zone)
    (minHeights : list Q) :
  (forall zone r s, span layout zone = Some s -> r <= s ->
                    adjustZone layout zone (Some r) = layout) /\
  layout_h (adjustLayoutForZoneMinHeights layout (Some zones) (Some minHeights))
  == layout_h layout + sumQ (appliedDeltas layout zones minHeights) /\
  Forall (fun d => 0 < d) (appliedDeltas layout zones minHeights) /\
  layout_h layout
  <= layout_h (adjustLayoutForZoneMinHeights layout (Some zones) (Some minHeights)).
Proof.
  destruct (appliedDeltas_sum zones layout minHeights) as [S P].
  split; [|split; [exact S | split; [exact P|]]].
  - intros zone r s Hs Hr. apply adjustZone_noop.
    unfold zoneDelta. rewrite Hs.
    assert (E : Qltb s r = false) by now apply Qltb_ge.
    rewrite E. now rewrite andb_false_r.
  - simpl. rewrite S. pose proof (sumQ_nonneg _ P). lra.
Qed.

(** *** The stable sort *)

Lemma insert_by_perm {A} (key : A -> Q) x l :
  Permutation (insert_by key x l) (x :: l).
Proof.
  induction l as [|y t IH]; simpl; [reflexivity|].
  destruct (Qle_bool (key x) (key y)); [reflexivity|].
  eapply perm_trans; [apply perm_skip, IH | apply perm_swap].
Qed.

Lemma sort_by_perm {A} (key : A -> Q) l : Permutation (sort_by key l) l.
Proof.
  induction l as [|x l IH]; simpl; [reflexivity|].
  eapply perm_trans; [apply insert_by_perm | now apply perm_skip].
Qed.

Lemma sort_by_In {A} (key : A -> Q) l x : In x (sort_by key l) <-> In x l.
Proof.
  split; apply Permutation_in;
    [apply sort_by_perm | apply Permutation_sym, sort_by_perm].
Qed.

Lemma insert_by_map {A} (key : A -> Q) (f : A -> A) x l :
  (forall a b, Qle_bool (key (f a)) (key (f b)) = Qle_bool (key a) (key b)) ->
  insert_by key (f x) (map f l) = map f (insert_by key x l).
Proof.
  intro H. induction l as [|y t IH]; simpl; [reflexivity|].
  rewrite H. destruct (Qle_bool (key x) (key y)); simpl; [reflexivity|].
  now rewrite IH.
Qed.

Lemma sort_by_map {A} (key : A -> Q) (f : A -> A) l :
  (forall a b, Qle_bool (key (f a)) (key (f b)) = Qle_bool (key a) (key b)) ->
  sort_by key (map f l) = map f (sort_by key l).
Proof.
  intro H. induction l as [|x l IH]; simpl; [reflexivity|].
  rewrite IH. now apply insert_by_map.
Qed.

Lemma insert_by_sorted {A} (key : A -> Q) x l :
  StronglySorted (fun a b => key a <= key b) l ->
  StronglySorted (fun a b => key a <= key b) (insert_by key x l).
Proof.
  induction 1 as [|y t St IH Hy]; simpl.
  - constructor; constructor.
  - destruct (Qle_bool (key x) (key y)) eqn:E.
    + apply Qle_bool_iff in E. constructor; [now constructor|].
      constructor; [exact E|].
      rewrite Forall_forall in *. intros z Hz. specialize (Hy z Hz). lra.
    + assert (L : key y <= key x).
      { apply Qlt_le_weak, Qnot_le_lt. intro L.
        apply Qle_bool_iff in L. congruence. }
      constructor; [exact IH|].
      rewrite Forall_forall in *. intros z Hz.
      apply (Permutation_in _ (insert_by_perm key x t)) in Hz.
      destruct Hz as [<-|Hz]; auto.
Qed.

Lemma sort_by_sorted {A} (key : A -> Q) l :
  StronglySorted (fun a b => key a <= key b) (sort_by key l).
Proof.
  induction l as [|x l IH]; simpl; [constructor|].
  now apply insert_by_sorted.
Qed.

Lemma sorted_first_le_last {A} (key : A -> Q) first rest :
  StronglySorted (fun a b => key a <= key b) (first :: rest) ->
  key first <= key (last (first :: rest) first).
Proof.
  intro S. inversion S as [|? ? _ F]; subst.
  destruct rest as [|y t]; [apply Qle_refl|].
  rewrite Forall_forall in F. apply F.
  change (last (first :: y :: t) first) with (last (y :: t) first).
  clear. revert y. induction t as [|z t IH]; intro y; [now left|].
  right. apply IH.
Qed.

Lemma sorted_first_le {A} (key : A -> Q) first rest e :
  StronglySorted (fun a b => key a <= key b) (first :: rest) ->
  In e (first :: rest) -> key first <= key e.
Proof.
  intros S [<-|I]; [apply Qle_refl|].
  inversion S as [|? ? _ F]; subst.
  rewrite Forall_forall in F. now apply F.
Qed.

Lemma last_in {A} (x d : A) l : In (last (x :: l) d) (x :: l).
Proof.
  revert x. induction l as [|y t IH]; intro x; [now left|].
  right. apply IH.
Qed.

Lemma last_map {A B} (f : A -> B) l d : last (map f l) (f d) = f (last l d).
Proof.
  induction l as [|x l IH]; [reflexivity|].
  destruct l; [reflexivity|]. exact IH.
Qed.

Lemma filter_map_comm {A} (p : A -> bool) (f : A -> A) l :
  (forall a, p (f a) = p a) -> filter p (map f l) = map f (filter p l).
Proof.
  intro H. induction l as [|x l IH]; simpl; [reflexivity|].
  rewrite H. destruct (p x); simpl; now rewrite IH.
Qed.

(** *** Zones under a shift *)

Lemma Shifting_Qle_bool f a b :
  Shifting f ->
  Qle_bool (topY (f a)) (topY (f b)) = Qle_bool (topY a) (topY b).
Proof.
  intro S. destruct (Qle_bool (topY a) (topY b)) eqn:E.
  - apply Qle_bool_iff. apply Qle_bool_iff in E. now apply Shifting_weak.
  - destruct (Qle_bool (topY (f a)) (topY (f b))) eqn:E'; [|reflexivity].
    apply Qle_bool_iff in E'.
    assert (L : topY b < topY a).
    { apply Qnot_le_lt. intro L. apply Qle_bool_iff in L. congruence. }
    pose proof (Shifting_strict f b a S L). lra.
Qed.

Lemma zoneElems_shift f layout layout' zone :
  Shifting f -> elems layout' = map f (elems layout) ->
  zoneElems layout' zone = map f (zoneElems layout zone).
Proof.
  intros S E. unfold zoneElems. rewrite E.
  rewrite filter_map_comm.
  - apply sort_by_map. intros a b. now apply Shifting_Qle_bool.
  - intro a. apply isMember_sameButVertical.
    destruct S as (s & _ & _ & _ & Sv). apply Sv.
Qed.

Lemma zoneElems_member layout zone e :
  In e (zoneElems layout zone) -> isBand e = false.
Proof.
  unfold zoneElems. rewrite sort_by_In, filter_In. intros [_ M].
  destruct e; simpl in *; congruence.
Qed.

Lemma zoneElems_sorted layout zone :
  StronglySorted (fun a b => topY a <= topY b) (zoneElems layout zone).
Proof. apply sort_by_sorted. Qed.

(** A shift never shortens the span of a zone. *)
Lemma span_shift f layout layout' zone :
  Shifting f -> elems layout' = map f (elems layout) ->
  match span layout zone, span layout' zone with
  | None, None => True
  | Some s, Some s' => s <= s'
  | _, _ => False
  end.
Proof.
  intros S E. unfold span. rewrite (zoneElems_shift f layout layout' zone S E).
  pose proof (zoneElems_sorted layout zone) as St.
  pose proof (zoneElems_member layout zone) as NB.
  destruct (zoneElems layout zone) as [|first rest]; [exact I|].
  change (map f (first :: rest)) with (f first :: map f rest).
  cbv iota beta.
  change (f first :: map f rest) with (map f (first :: rest)).
  rewrite last_map.
  pose proof (sorted_first_le_last topY first rest St) as L.
  destruct S as (s & M & T & B & _).
  rewrite T, B.
  - pose proof (M _ _ L). lra.
  - apply NB. apply last_in.
Qed.

Lemma zoneDelta_shift f layout layout' zone reqMin :
  Shifting f -> elems layout' = map f (elems layout) ->
  zoneDelta layout zone reqMin = None -> zoneDelta layout' zone reqMin = None.
Proof.
  intros S E. unfold zoneDelta.
  pose proof (span_shift f layout layout' zone S E) as P.
  destruct reqMin as [r|]; [|reflexivity].
  destruct (span layout zone) as [s|], (span layout' zone) as [s'|];
    try contradiction; try reflexivity.
  destruct (Qltb 0 r); cbn [andb]; [|reflexivity].
  destruct (Qltb s r) eqn:E1; [discriminate|]. intros _.
  apply Qltb_ge in E1.
  assert (E2 : Qltb s' r = false) by (apply Qltb_ge; lra).
  now rewrite E2.
Qed.

Lemma consecutive_map {A} (R R' : A -> A -> Prop) (P : A -> Prop)
    (f : A -> A) l :
  (forall a b, P a -> R a b -> R' (f a) (f b)) ->
  Forall P l -> consecutive R l -> consecutive R' (map f l).
Proof.
  intros H F. induction F as [|a t Pa Pt IH]; [trivial|].
  destruct t as [|b t]; [trivial|].
  intros [Rab C]. split; [now apply H | now apply IH].
Qed.

Lemma separated_shift f layout layout' zone :
  Shifting f -> elems layout' = map f (elems layout) ->
  separated layout zone -> separated layout' zone.
Proof.
  intros S E (N & F & C). unfold separated.
  rewrite (zoneElems_shift f layout layout' zone S E).
  pose proof (zoneElems_member layout zone) as NB.
  destruct S as (s & M & T & B & _).
  split; [now rewrite length_map|]. split.
  - rewrite Forall_forall in *. intros e' I.
    apply in_map_iff in I as (e & <- & I).
    rewrite T, B by now apply NB. specialize (F e I). lra.
  - assert (F' : Forall (fun e => topY e <= bottomY e /\ isBand e = false)
                        (zoneElems layout zone)).
    { rewrite Forall_forall in *. intros e I. split; [now apply F | now apply NB]. }
    revert F' C. apply consecutive_map.
    intros a b [Pa Na] Rab. rewrite T, B by exact Na.
    assert (L : topY a <= topY b) by lra.
    pose proof (M _ _ L). lra.
Qed.

(** *** The boundaries of a zone *)

Lemma gapBoundaries_gapFrom es g : gapBoundaries es g = gapFrom 0 es g.
Proof. reflexivity. Qed.

Lemma gapFrom_cons2 a e e' t g :
  gapFrom a (e :: e' :: t) g
  = mkBoundary (bottomY e) (inject_Z (Z.of_nat (a + 1)) * g)
    :: gapFrom (S a) (e' :: t) g.
Proof.
  unfold gapFrom. cbn [List.length]. rewrite !Nat.sub_succ, !Nat.sub_0_r.
  reflexivity.
Qed.

Lemma gapFrom_In es g : forall a b,
  In b (gapFrom a es g) ->
  exists i e, (i + 1 <= a + (List.length es - 1))%nat /\ In e es /\
              boundaryY b = bottomY e /\
              cumulShift b = inject_Z (Z.of_nat (i + 1)) * g.
Proof.
  induction es as [|e es IH]; intros a b I; [destruct I|].
  destruct es as [|e' t]; [destruct I|].
  rewrite gapFrom_cons2 in I. destruct I as [<-|I].
  - exists a, e. cbn [List.length]. repeat split; [lia | now left].
  - destruct (IH _ _ I) as (i & x & Hi & Hx & Hy & Hc).
    exists i, x. cbn [List.length] in *. repeat split; try assumption; [lia|].
    now right.
Qed.

Lemma gapFrom_last es g d : forall a,
  (2 <= List.length es)%nat ->
  consecutive (fun x y => bottomY x < topY y) es ->
  exists b, In b (gapFrom a es g) /\
            boundaryY b < topY (last es d) /\
            cumulShift b
            = inject_Z (Z.of_nat (a + (List.length es - 1))) * g.
Proof.
  induction es as [|e es IH]; intros a N C; [simpl in N; lia|].
  destruct es as [|e' t]; [simpl in N; lia|].
  rewrite gapFrom_cons2. destruct C as [R C].
  destruct t as [|e'' t].
  - eexists. split; [now left|]. split; [exact R|]. reflexivity.
  - destruct (IH (S a)) as (b & Ib & Lb & Cb); [simpl; lia | exact C|].
    exists b. split; [now right|]. split; [exact Lb|].
    rewrite Cb. cbn [List.length]. do 3 f_equal. lia.
Qed.

Lemma zoneBoundaries_In es yMax delta b :
  In b (zoneBoundaries es yMax delta) ->
  (boundaryY b = yMax /\ cumulShift b = delta) \/
  exists i e, (i + 1 <= List.length es - 1)%nat /\ In e es /\
              boundaryY b = bottomY e /\
              cumulShift b
              = inject_Z (Z.of_nat (i + 1))
                * (delta / inject_Z (Z.of_nat (List.length es - 1))).
Proof.
  unfold zoneBoundaries. rewrite sort_by_In, in_app_iff.
  intros [I|[<-|[]]]; [|left; split; reflexivity].
  right. destruct (1 <? List.length es)%nat; [|destruct I].
  rewrite gapBoundaries_gapFrom in I.
  destruct (gapFrom_In _ _ _ _ I) as (i & e & Hi & He & Hy & Hc).
  exists i, e. repeat split; assumption.
Qed.

Lemma gap_share (j k : nat) (delta : Q) :
  (1 <= j)%nat -> (j <= k)%nat -> 0 < delta ->
  inject_Z (Z.of_nat j) * (delta / inject_Z (Z.of_nat k)) <= delta /\
  inject_Z (Z.of_nat k) * (delta / inject_Z (Z.of_nat k)) == delta.
Proof.
  intros J K D.
  assert (Pk : 0 < inject_Z (Z.of_nat k)).
  { replace 0 with (inject_Z 0) by reflexivity. rewrite <- Zlt_Qlt. lia. }
  assert (Pj : inject_Z (Z.of_nat j) <= inject_Z (Z.of_nat k)).
  { rewrite <- Zle_Qle. lia. }
  assert (E : inject_Z (Z.of_nat k) * (delta / inject_Z (Z.of_nat k)) == delta).
  { field. lra. }
  split; [|exact E].
  set (x := delta / inject_Z (Z.of_nat k)) in *.
  assert (Px : 0 <= x) by nra.
  nra.
Qed.

(** In its own pass the first member of a zone stays and the last member
    moves down by the whole delta. *)
Lemma own_shift_first first rest delta :
  Forall (fun e => topY e <= bottomY e) (first :: rest) ->
  StronglySorted (fun a b => topY a <= topY b) (first :: rest) ->
  shiftAt (zoneBoundaries (first :: rest)
             (bottomY (last (first :: rest) first)) delta) (topY first) == 0.
Proof.
  intros F S. apply Qle_antisym; [|apply shiftAt_nonneg].
  apply shiftFrom_upper; [apply Qle_refl|].
  intros b I L. exfalso.
  rewrite Forall_forall in F.
  assert (G : forall e, In e (first :: rest) -> topY first <= bottomY e).
  { intros e Ie. pose proof (sorted_first_le topY first rest e S Ie).
    specialize (F e Ie). lra. }
  apply zoneBoundaries_In in I as [[Ey _]|(i & e & _ & Ie & Ey & _)].
  - rewrite Ey in L. specialize (G _ (last_in first first rest)). lra.
  - rewrite Ey in L. specialize (G e Ie). lra.
Qed.

Lemma own_shift_last first rest delta :
  (2 <= List.length (first :: rest))%nat ->
  consecutive (fun x y => bottomY x < topY y) (first :: rest) ->
  0 < delta ->
  shiftAt (zoneBoundaries (first :: rest)
             (bottomY (last (first :: rest) first)) delta)
          (topY (last (first :: rest) first)) == delta.
Proof.
  intros N C D. set (es := first :: rest) in *.
  apply Qle_antisym.
  - apply shiftFrom_upper; [lra|].
    intros b I _.
    apply zoneBoundaries_In in I as [[_ ->]|(i & e & Hi & _ & _ & ->)];
      [apply Qle_refl|].
    apply gap_share; [lia | lia | exact D].
  - destruct (gapFrom_last es
                (delta / inject_Z (Z.of_nat (List.length es - 1))) first 0 N C)
      as (b & Ib & Lb & Cb).
    assert (I : In b (zoneBoundaries es (bottomY (last es first)) delta)).
    { unfold zoneBoundaries. rewrite sort_by_In, in_app_iff. left.
      assert (T : (1 <? List.length es)%nat = true) by (apply Nat.ltb_lt; lia).
      rewrite T. exact Ib. }
    pose proof (shiftFrom_lower _ _ _ 0 I Lb) as L.
    rewrite Cb in L.
    change (0 + (List.length es - 1))%nat with (List.length es - 1)%nat in L.
    destruct (gap_share (List.length es - 1) (List.length es - 1) delta)
      as [_ E]; [lia | lia | exact D |].
    unfold shiftAt, shiftFrom in *. lra.
Qed.

(** *** A pass settles a separated zone *)

Lemma adjustZone_applied layout zone r d :
  zoneDelta layout zone (Some r) = Some d ->
  exists first rest,
    zoneElems layout zone = first :: rest /\
    d = r - (bottomY (last (first :: rest) first) - topY first) /\
    0 < d /\
    elems (adjustZone layout zone (Some r))
    = map (adjustElem (zoneBoundaries (first :: rest)
                         (bottomY (last (first :: rest) first)) d))
          (elems layout).
Proof.
  intro Z. destruct (adjustZone_height _ _ _ _ Z) as [D _].
  revert Z. unfold zoneDelta, span, adjustZone.
  destruct (zoneElems layout zone) as [|first rest]; [discriminate|].
  cbv zeta.
  set (s := bottomY (last (first :: rest) first) - topY first).
  destruct (Qltb 0 r) eqn:E0; [|discriminate].
  destruct (Qltb s r) eqn:E1; [|discriminate].
  cbn [andb]. intro H. injection H as <-.
  unfold Qltb in E0, E1. apply negb_true_iff in E0, E1. rewrite E0, E1.
  exists first, rest. repeat split. exact D.
Qed.

Lemma adjustZone_settles layout zone reqMin :
  separated layout zone ->
  zoneDelta (adjustZone layout zone reqMin) zone reqMin = None.
Proof.
  intros (N & F & C).
  destruct (zoneDelta layout zone reqMin) as [d|] eqn:Z;
    [|now rewrite (adjustZone_noop _ _ _ Z)].
  destruct reqMin as [r|]; [|discriminate].
  destruct (adjustZone_applied _ _ _ _ Z) as (first & rest & Ez & Ed & D & Ee).
  rewrite Ez in N, F, C.
  pose proof (zoneElems_sorted layout zone) as St. rewrite Ez in St.
  pose proof (zoneElems_member layout zone) as NB. rewrite Ez in NB.
  set (bs := zoneBoundaries (first :: rest)
               (bottomY (last (first :: rest) first)) d) in *.
  unfold zoneDelta, span.
  rewrite (zoneElems_shift (adjustElem bs) layout _ zone
             (Shifting_adjustElem bs) Ee), Ez.
  change (map (adjustElem bs) (first :: rest))
    with (adjustElem bs first :: map (adjustElem bs) rest).
  cbv iota beta.
  change (adjustElem bs first :: map (adjustElem bs) rest)
    with (map (adjustElem bs) (first :: rest)).
  rewrite last_map.
  assert (E : bottomY (adjustElem bs (last (first :: rest) first))
              - topY (adjustElem bs first) == r).
  { rewrite topY_adjustElem.
    rewrite bottomY_adjustElem.
    2:{ intros p x y w h Eb.
        pose proof (NB _ (last_in first first rest)) as B.
        rewrite Eb in B. discriminate. }
    unfold bs. rewrite own_shift_first by assumption.
    rewrite own_shift_last by assumption.
    rewrite Ed. ring. }
  assert (E1 : Qltb (bottomY (adjustElem bs (last (first :: rest) first))
                     - topY (adjustElem bs first)) r = false).
  { apply Qltb_ge. rewrite E. apply Qle_refl. }
  rewrite E1. now rewrite andb_false_r.
Qed.

Lemma zonesOk_shift f zones : forall layout layout' minHeights,
  Shifting f -> elems layout' = map f (elems layout) ->
  zonesOk layout zones minHeights -> zonesOk layout' zones minHeights.
Proof.
  induction zones as [|z zs IH]; intros layout layout' ms S E; simpl; [trivial|].
  intros [[Z|P] R]; (split; [|now apply (IH layout)]).
  - left. now apply (zoneDelta_shift f layout).
  - right. now apply (separated_shift f layout).
Qed.

Lemma first_pass_settles zones : forall layout minHeights,
  zonesOk layout zones minHeights ->
  allSettled (adjustLoop layout zones minHeights) zones minHeights.
Proof.
  induction zones as [|z zs IH]; intros layout ms; simpl; [trivial|].
  intros [H R].
  destruct (adjustZone_shifting layout z (hd_error ms)) as (f & Sf & Ef & _).
  destruct (adjustLoop_shifting zs (adjustZone layout z (hd_error ms)) (tl ms))
    as (g & Sg & Eg & _).
  split.
  - apply (zoneDelta_shift g (adjustZone layout z (hd_error ms)) _ _ _ Sg Eg).
    destruct H as [Z|P].
    + now rewrite (adjustZone_noop _ _ _ Z).
    + now apply adjustZone_settles.
  - apply IH. now apply (zonesOk_shift f zs layout).
Qed.

Lemma settled_pass_noop zones : forall layout minHeights,
  allSettled layout zones minHeights ->
  adjustLoop layout zones minHeights = layout.
Proof.
  induction zones as [|z zs IH]; intros layout ms; simpl; [reflexivity|].
  intros [Z R]. rewrite (adjustZone_noop _ _ _ Z). now apply IH.
Qed.

(** *** Layouts of the layout engine are separated *)

Lemma qlen_nonneg {A} (l : list A) : 0 <= qlen l.
Proof.
  unfold qlen. replace 0 with (inject_Z 0) by reflexivity.
  rewrite <- Zle_Qle. lia.
Qed.

Lemma fold_left_ge {A} (f : Q -> A -> Q) l :
  (forall h a, h <= f h a) -> forall h0, h0 <= fold_left f l h0.
Proof.
  intro H. induction l as [|a l IH]; intro h0; simpl; [apply Qle_refl|].
  eapply Qle_trans; [apply H | apply IH].
Qed.

Lemma expansionH_nonneg step : 0 <= expansionH step.
Proof.
  unfold expansionH.
  assert (F : forall h0, h0 <= fold_left
            (fun h a =>
               h + (qlen (Text.wrap (description a) (fl CFG.stepW - 50)%float
                                    (fl CFG.expActionFontSz))
                    * q CFG.expActionLineH + q CFG.expActionGap))
            (hiddenActions step) h0).
  { apply fold_left_ge. intros h a.
    pose proof (qlen_nonneg (Text.wrap (description a) (fl CFG.stepW - 50)%float
                                       (fl CFG.expActionFontSz))) as P.
    set (n := qlen _) in *.
    cbv [q CFG.expActionLineH CFG.expActionGap inject_Z]. nra. }
  destruct (hiddenActions step) as [|a l] eqn:Eh.
  - destruct (errorLoop step); [|apply Qle_refl].
    cbv [q CFG.expPadTop CFG.expErrorH CFG.expPadBottom inject_Z]. lra.
  - rewrite <- Eh in *.
    specialize (F (q CFG.expPadTop + (q CFG.expLabelH + q CFG.expLabelGap))).
    destruct (errorLoop step);
      cbv [q CFG.expPadTop CFG.expErrorH CFG.expPadBottom CFG.expLabelH
           CFG.expLabelGap inject_Z] in *; lra.
Qed.

Lemma stepDims_h_pos step : 0 < dims_h (stepDims step).
Proof.
  pose proof (Math_max_cases
    (q CFG.stepPadTop
     + qlen (Text.wrap (name step) (nameW step) (fl CFG.stepFontSz))
       * q CFG.stepNameLineH
     + q CFG.stepNameBadgeGap + q CFG.stepBadgeRowH + q CFG.stepPadBottom)
    (q CFG.stepMinH)) as [[L E]|[L E]];
    change (dims_h (stepDims step)) with
      (Math_max
         (q CFG.stepPadTop
          + qlen (Text.wrap (name step) (nameW step) (fl CFG.stepFontSz))
            * q CFG.stepNameLineH
          + q CFG.stepNameBadgeGap + q CFG.stepBadgeRowH + q CFG.stepPadBottom)
         (q CFG.stepMinH));
    rewrite E; cbv [q CFG.stepMinH inject_Z] in *; lra.
Qed.

Lemma ForallOrdPairs_snoc {A} (R : A -> A -> Prop) l x :
  ForallOrdPairs R l -> Forall (fun a => R a x) l ->
  ForallOrdPairs R (l ++ [x]).
Proof.
  induction 1 as [|a l Fa Fl IH]; intro F; simpl.
  - constructor; constructor.
  - inversion F; subst. constructor; [|now apply IH].
    apply Forall_app. split; [exact Fa | now constructor].
Qed.

Lemma flowInv_push es y e y' :
  flowInv (es, y) -> isFlow e = true ->
  y <= topY e -> topY e <= bottomY e -> bottomY e < y' -> y <= y' ->
  flowInv (es ++ [e], y').
Proof.
  intros [O F] Fe T H B Y. unfold flowInv in *. cbn [fst snd] in *.
  rewrite filter_app. cbn [filter]. rewrite Fe. split.
  - apply ForallOrdPairs_snoc; [exact O|].
    eapply Forall_impl; [|exact F]. cbv beta. intros a [_ Ha]. lra.
  - apply Forall_app. split.
    + eapply Forall_impl; [|exact F]. cbv beta. intros a [Ha Hb]. split; lra.
    + constructor; [split; lra | constructor].
Qed.

Lemma flowInv_skip es y e y' :
  flowInv (es, y) -> isFlow e = false -> y <= y' -> flowInv (es ++ [e], y').
Proof.
  intros [O F] Fe Y. unfold flowInv in *. cbn [fst snd] in *.
  rewrite filter_app. cbn [filter]. rewrite Fe, app_nil_r. split; [exact O|].
  eapply Forall_impl; [|exact F]. cbv beta. intros a [Ha Hb]. split; lra.
Qed.

Lemma flowInv_advance es y y' :
  flowInv (es, y) -> y <= y' -> flowInv (es, y').
Proof.
  intros [O F] Y. split; [exact O|]. cbn [fst snd] in *.
  eapply Forall_impl; [|exact F]. cbv beta. intros a [Ha Hb]. split; lra.
Qed.

(** The label height of a decision is at least zero. *)
Lemma lblH_nonneg (o : option string) {A} (l : list A) :
  0 <= match o with
       | Some o => if truthy o then 2 * 13 + 4 else qlen l * 13 + 4
       | None => qlen l * 13 + 4
       end.
Proof.
  pose proof (qlen_nonneg l).
  destruct o as [o|]; [destruct (truthy o)|]; lra.
Qed.

Ltac layout_constants :=
  cbv [q CFG.decisionSize CFG.stepGap CFG.phaseLabelH CFG.phasePadY
       CFG.phaseGap inject_Z Qdiv Qinv Qnum Qden] in *.

Lemma layoutStep_flowInv st cx phase acc step :
  flowInv acc -> flowInv (layoutStep st cx phase acc step).
Proof.
  destruct acc as [es y]. intro I. unfold layoutStep.
  destruct (isDecisionPoint step).
  - pose proof (lblH_nonneg (decisionOutcome step)
                  (Text.wrap (name step) (fl CFG.stepW * 0.65)%float 10)) as P.
    set (lblH := match decisionOutcome step with
                 | Some o => _ | None => _ end) in *.
    apply (flowInv_push es y); [exact I | reflexivity | | | | ];
      cbn [topY bottomY]; layout_constants; lra.
  - pose proof (stepDims_h_pos step) as H.
    pose proof (expansionH_nonneg step) as E.
    set (expH := if has (expandedSteps st) (id step) then expansionH step else 0).
    assert (E' : 0 <= expH) by (unfold expH; destruct (has _ _); lra).
    apply (flowInv_push es y); [exact I | reflexivity | | | | ];
      cbn [topY bottomY]; layout_constants; lra.
Qed.

Lemma layoutSteps_flowInv st cx phase l : forall acc,
  flowInv acc -> flowInv (fold_left (layoutStep st cx phase) l acc).
Proof.
  induction l as [|s l IH]; intros acc I; simpl; [exact I|].
  apply IH. now apply layoutStep_flowInv.
Qed.

Lemma layoutPhase_flowInv st cx acc phase :
  flowInv acc -> flowInv (layoutPhase st cx acc phase).
Proof.
  destruct acc as [es y]. intro I. unfold layoutPhase.
  pose proof (layoutSteps_flowInv st cx phase (steps phase)
                (es, y + (q CFG.phaseLabelH + q CFG.phasePadY))) as J.
  destruct (fold_left (layoutStep st cx phase) (steps phase)
              (es, y + (q CFG.phaseLabelH + q CFG.phasePadY))) as [es' y'].
  apply (flowInv_skip es' y'); [|reflexivity|].
  - apply J. apply (flowInv_advance es y); [exact I|].
    layout_constants. lra.
  - layout_constants. lra.
Qed.

Lemma layoutPhases_flowInv st cx l : forall acc,
  flowInv acc -> flowInv (fold_left (layoutPhase st cx) l acc).
Proof.
  induction l as [|p l IH]; intros acc I; simpl; [exact I|].
  apply IH. now apply layoutPhase_flowInv.
Qed.

(** In a layout of [computeLayout] the tasks and decisions lie strictly
    one below the other, in the order in which they were pushed. *)
Lemma computeLayout_flow PROCESS_MAP st :
  ForallOrdPairs (fun a b => bottomY a < topY b)
    (filter isFlow (elems (computeLayout PROCESS_MAP st))) /\
  Forall (fun e => topY e <= bottomY e)
    (filter isFlow (elems (computeLayout PROCESS_MAP st))).
Proof.
  unfold computeLayout.
  set (cx := q CFG.canvasPad + q CFG.phasePadX + q CFG.stepW / 2).
  set (acc0 := ([Start cx (q CFG.canvasPad + q CFG.circleR) (q CFG.circleR)],
                q CFG.canvasPad + (q CFG.circleR * 2 + 18))).
  assert (I0 : flowInv acc0).
  { split; cbn; constructor. }
  pose proof (layoutPhases_flowInv st cx (phases PROCESS_MAP) acc0 I0) as [O F].
  destruct (fold_left (layoutPhase st cx) (phases PROCESS_MAP) acc0) as [es y].
  cbn [fst snd elems] in *. rewrite filter_app. cbn [filter isFlow].
  rewrite app_nil_r. split; [exact O|].
  eapply Forall_impl; [|exact F]. cbv beta. tauto.
Qed.

Lemma sort_by_ordered {A} (key : A -> Q) l :
  ForallOrdPairs (fun a b => key a <= key b) l -> sort_by key l = l.
Proof.
  induction 1 as [|x l Fx Fl IH]; [reflexivity|].
  simpl. rewrite IH. destruct l as [|y t]; [reflexivity|].
  inversion Fx as [|? ? Hxy _]; subst. simpl.
  apply Qle_bool_iff in Hxy. now rewrite Hxy.
Qed.

Lemma ForallOrdPairs_filter {A} (R : A -> A -> Prop) (p : A -> bool) l :
  ForallOrdPairs R l -> ForallOrdPairs R (filter p l).
Proof.
  induction 1 as [|x l Fx Fl IH]; simpl; [constructor|].
  destruct (p x); [|exact IH]. constructor; [|exact IH].
  rewrite Forall_forall in *. intros y Hy. apply filter_In in Hy as [Hy _].
  now apply Fx.
Qed.

Lemma ForallOrdPairs_weaken {A} (R R' : A -> A -> Prop) (P : A -> Prop) l :
  (forall a b, P a -> R a b -> R' a b) ->
  Forall P l -> ForallOrdPairs R l -> ForallOrdPairs R' l.
Proof.
  intros H F O. induction O as [|x l Fx Fl IH]; [constructor|].
  inversion F as [|? ? Px Pl]; subst. constructor; [|now apply IH].
  eapply Forall_impl; [|exact Fx]. intros b. now apply H.
Qed.

Lemma ForallOrdPairs_consecutive {A} (R : A -> A -> Prop) l :
  ForallOrdPairs R l -> consecutive R l.
Proof.
  induction 1 as [|x l Fx Fl IH]; [exact I|].
  destruct l as [|y t]; [exact I|].
  inversion Fx; subst. split; assumption.
Qed.

Lemma filter_filter_impl {A} (p r : A -> bool) l :
  (forall a, p a = true -> r a = true) ->
  filter p (filter r l) = filter p l.
Proof.
  intro H. induction l as [|x l IH]; [reflexivity|]. simpl.
  destruct (r x) eqn:Er; simpl.
  - destruct (p x); now rewrite IH.
  - destruct (p x) eqn:Ep; [|exact IH].
    apply H in Ep. congruence.
Qed.

Lemma isMember_isFlow zone e : isMember zone e = true -> isFlow e = true.
Proof. destruct e; simpl; congruence. Qed.

(** Every zone with two members or more is separated in a layout of
    [computeLayout]. *)
Lemma computeLayout_zone_separated PROCESS_MAP st zone :
  (2 <= List.length (zoneElems (computeLayout PROCESS_MAP st) zone))%nat ->
  separated (computeLayout PROCESS_MAP st) zone.
Proof.
  destruct (computeLayout_flow PROCESS_MAP st) as [O F].
  unfold separated, zoneElems.
  rewrite <- (filter_filter_impl (isMember zone) isFlow)
    by apply isMember_isFlow.
  set (m := filter (isMember zone)
              (filter isFlow (elems (computeLayout PROCESS_MAP st)))).
  assert (Om : ForallOrdPairs (fun a b => bottomY a < topY b) m)
    by now apply ForallOrdPairs_filter.
  assert (Fm : Forall (fun e => topY e <= bottomY e) m).
  { rewrite Forall_forall in *. intros e He.
    apply filter_In in He as [He _]. now apply F. }
  assert (S : sort_by topY m = m).
  { apply sort_by_ordered.
    apply (ForallOrdPairs_weaken (fun a b => bottomY a < topY b) _
             (fun e => topY e <= bottomY e)); try assumption.
    intros a b Pa Rab. lra. }
  rewrite S. intro N. split; [exact N|]. split; [exact Fm|].
  now apply ForallOrdPairs_consecutive.
Qed.

Lemma zonesPaired_zonesOk PROCESS_MAP st zones : forall minHeights,
  zonesPaired (computeLayout PROCESS_MAP st) zones minHeights ->
  zonesOk (computeLayout PROCESS_MAP st) zones minHeights.
Proof.
  induction zones as [|z zs IH]; intros ms; simpl; [trivial|].
  intros [[Z|N] R]; (split; [|now apply IH]).
  - now left.
  - right. now apply computeLayout_zone_separated.
Qed.

(** On a layout of the layout engine, reconciliation is idempotent as soon
    as no zone with a single member has to grow. *)
Lemma reconcile_idempotent_on_computed PROCESS_MAP st zones minHeights :
  zonesPaired (computeLayout PROCESS_MAP st) zones minHeights ->
  adjustLoop (adjustLoop (computeLayout PROCESS_MAP st) zones minHeights)
             zones minHeights
  = adjustLoop (computeLayout PROCESS_MAP st) zones minHeights.
Proof.
  intro H. apply settled_pass_noop, first_pass_settles.
  now apply zonesPaired_zonesOk.
Qed.

(** *** Idempotence (C1) *)







End ReconcileFacts.

(** ** SVG text helpers *)

Module SvgFacts.
Import Svg.

Lemma replaceAll_app c rep s1 s2 :
  replaceAll c rep (s1 ++ s2)
  = (replaceAll c rep s1 ++ replaceAll c rep s2)%string.
Proof.
  induction s1 as [|x s1 IH]; simpl; [reflexivity|].
  rewrite IH. destruct (Ascii.eqb x c); [|reflexivity].
  now rewrite TextFacts.append_assoc.
Qed.

Lemma replaceAll_cons c rep x s :
  replaceAll c rep (String x s)
  = (replaceAll c rep (String x "") ++ replaceAll c rep s)%string.
Proof. apply (replaceAll_app c rep (String x "") s). Qed.

(** [E.a] works on each character by itself. *)
Lemma a_cons c s : E.a (String c s) = (entity_a c ++ E.a s)%string.
Proof.
  unfold E.a, entity_a. cbn [replaceAll].
  destruct (Ascii.eqb_spec c "&") as [->|N1].
  { rewrite !replaceAll_app. reflexivity. }
  cbn [replaceAll].
  destruct (Ascii.eqb_spec c dquote) as [->|N2].
  { rewrite !replaceAll_app. reflexivity. }
  cbn [replaceAll].
  destruct (Ascii.eqb_spec c "<") as [->|N3].
  { rewrite !replaceAll_app. reflexivity. }
  cbn [replaceAll].
  destruct (Ascii.eqb_spec c ">") as [->|N4]; reflexivity.
Qed.

Lemma t_cons c s : E.t (String c s) = (entity_t c ++ E.t s)%string.
Proof.
  unfold E.t, entity_t. cbn [replaceAll].
  destruct (Ascii.eqb_spec c "&") as [->|N1].
  { rewrite !replaceAll_app. reflexivity. }
  cbn [replaceAll].
  destruct (Ascii.eqb_spec c "<") as [->|N3].
  { rewrite !replaceAll_app. reflexivity. }
  cbn [replaceAll].
  destruct (Ascii.eqb_spec c ">") as [->|N4]; reflexivity.
Qed.

Lemma occurs_app c s1 s2 :
  occurs c (s1 ++ s2) = occurs c s1 || occurs c s2.
Proof.
  induction s1 as [|x s1 IH]; simpl; [reflexivity|].
  now rewrite IH, orb_assoc.
Qed.

Lemma occurs_entity_a c x :
  x = dquote \/ x = "<"%char \/ x = ">"%char -> occurs x (entity_a c) = false.
Proof.
  intro H. unfold entity_a.
  destruct (Ascii.eqb_spec c "&"); [destruct H as [->|[->| ->]]; reflexivity|].
  destruct (Ascii.eqb_spec c dquote); [destruct H as [->|[->| ->]]; reflexivity|].
  destruct (Ascii.eqb_spec c "<"); [destruct H as [->|[->| ->]]; reflexivity|].
  destruct (Ascii.eqb_spec c ">"); [destruct H as [->|[->| ->]]; reflexivity|].
  simpl. rewrite orb_false_r. apply Ascii.eqb_neq.
  destruct H as [->|[->| ->]]; assumption.
Qed.

Lemma occurs_entity_t c x :
  x = "<"%char \/ x = ">"%char -> occurs x (entity_t c) = false.
Proof.
  intro H. unfold entity_t.
  destruct (Ascii.eqb_spec c "&"); [destruct H as [->| ->]; reflexivity|].
  destruct (Ascii.eqb_spec c "<"); [destruct H as [->| ->]; reflexivity|].
  destruct (Ascii.eqb_spec c ">"); [destruct H as [->| ->]; reflexivity|].
  simpl. rewrite orb_false_r. apply Ascii.eqb_neq.
  destruct H as [->| ->]; assumption.
Qed.

(** X1.  Escaped text holds no markup character: the result of [E.a]
    holds no double quote, no [<] and no [>], so an attribute value cannot
    close its own quotes; the result of [E.t] holds no [<] and no [>]. *)
Theorem escaped_text_has_no_markup (v : string) :
  occurs dquote (E.a v) = false /\
  occurs "<" (E.a v) = false /\
  occurs ">" (E.a v) = false /\
  occurs "<" (E.t v) = false /\
  occurs ">" (E.t v) = false.
Proof.
  induction v as [|c v (A & B & C & D & F)]; [repeat split|].
  rewrite a_cons, t_cons, !occurs_app, A, B, C, D, F, !orb_false_r.
  repeat split;
    first [apply occurs_entity_a; tauto | apply occurs_entity_t; tauto].
Qed.

Ltac entity_cases :=
  repeat match goal with
         | |- context [Ascii.eqb ?x ?y] => destruct (Ascii.eqb_spec x y)
         end;
  subst; simpl;
  let H := fresh "H" in
  intro H; try discriminate;
  try (injection H; intros; subst; split; congruence).

Lemma entity_a_prefix c1 c2 s1 s2 :
  (entity_a c1 ++ s1 = entity_a c2 ++ s2)%string -> c1 = c2 /\ s1 = s2.
Proof. unfold entity_a. entity_cases. Qed.

Lemma entity_t_prefix c1 c2 s1 s2 :
  (entity_t c1 ++ s1 = entity_t c2 ++ s2)%string -> c1 = c2 /\ s1 = s2.
Proof. unfold entity_t. entity_cases. Qed.

Lemma entity_a_nonempty c s : (entity_a c ++ s)%string <> "".
Proof. unfold entity_a. entity_cases. Qed.

Lemma entity_t_nonempty c s : (entity_t c ++ s)%string <> "".
Proof. unfold entity_t. entity_cases. Qed.

(** X2.  Escaping loses nothing: two values with the same escaped text
    are the same value, for [E.a] and for [E.t]. *)
Theorem escaping_is_injective (v1 v2 : string) :
  (E.a v1 = E.a v2 -> v1 = v2) /\ (E.t v1 = E.t v2 -> v1 = v2).
Proof.
  revert v2. induction v1 as [|c1 r1 IH]; intros [|c2 r2];
    rewrite ?a_cons, ?t_cons.
  - split; reflexivity.
  - split; intro H; symmetry in H;
      [now apply entity_a_nonempty in H | now apply entity_t_nonempty in H].
  - split; intro H;
      [now apply entity_a_nonempty in H | now apply entity_t_nonempty in H].
  - destruct (IH r2) as [A T]. split; intro H.
    + apply entity_a_prefix in H as [-> H]. now rewrite (A H).
    + apply entity_t_prefix in H as [-> H]. now rewrite (T H).
Qed.

Lemma occurrences_app c s1 s2 :
  occurrences c (s1 ++ s2) = occurrences c s1 + occurrences c s2.
Proof.
  induction s1 as [|x s1 IH]; simpl; [reflexivity|]. rewrite IH. lia.
Qed.

Lemma occurs_occurrences c s : occurs c s = false -> occurrences c s = 0.
Proof.
  induction s as [|x s IH]; simpl; [reflexivity|].
  intro H. apply orb_false_elim in H as [-> H]. now rewrite IH.
Qed.

Lemma occurrences_attr kv :
  occurrences dquote (attr kv) = occurrences dquote (fst kv) + 2.
Proof.
  unfold attr. rewrite !occurrences_app. cbn [occurrences].
  rewrite occurrences_app.
  assert (Z0 : occurrences dquote (E.a (snd kv)) = 0).
  { apply occurs_occurrences.
    induction (snd kv) as [|c v IH]; [reflexivity|].
    rewrite a_cons, occurs_app, IH, orb_false_r.
    apply occurs_entity_a. now left. }
  rewrite Z0. simpl. lia.
Qed.

Lemma occurrences_attrs attrs :
  occurrences dquote (String.concat " " (map attr attrs))
  = list_sum (map (fun kv => occurrences dquote (fst kv)) attrs)
    + 2 * List.length attrs.
Proof.
  induction attrs as [|kv [|kv' attrs] IH].
  - reflexivity.
  - cbn [map String.concat list_sum List.length fold_right].
    rewrite occurrences_attr. lia.
  - change (String.concat " " (map attr (kv :: kv' :: attrs)))
      with (attr kv ++ " " ++ String.concat " " (map attr (kv' :: attrs)))%string.
    rewrite !occurrences_app, IH, occurrences_attr.
    cbn [map list_sum fold_right List.length occurrences]. simpl (Ascii.eqb _ _).
    unfold list_sum. lia.
Qed.

(** X3.  In the text of an element built by [tag], the attribute values
    contribute no double quote: the double quotes are those of the element
    name (written twice), of the attribute keys and of the inner text, and
    two for each attribute.  With a name and keys free of double quotes,
    every attribute value is therefore enclosed by exactly its own two. *)
Theorem tag_values_stay_quoted (name : string)
    (attrs : list (string * string)) (inner : string) :
  occurrences dquote (tag name attrs inner)
  = 2 * occurrences dquote name
    + list_sum (map (fun kv => occurrences dquote (fst kv)) attrs)
    + 2 * List.length attrs
    + occurrences dquote inner.
Proof.
  unfold tag. rewrite !occurrences_app, occurrences_attrs.
  change (occurrences dquote "<") with 0.
  change (occurrences dquote " ") with 0.
  change (occurrences dquote ">") with 0.
  change (occurrences dquote "</") with 0.
  lia.
Qed.

End SvgFacts.

(** ** The server's request handlers *)

Module ServerFacts.
Import Randomizer RandomizerFacts Server.

(** *** Creating a session *)

Lemma session_create_known rnd req newId existing s r :
  find (fun x => samePid (req_prolific_pid req) x && completed x) existing
  = Some r \/
  (find (fun x => samePid (req_prolific_pid req) x && completed x) existing
   = None /\
   find (fun x => samePid (req_prolific_pid req) x && negb (completed x))
        existing = Some r) ->
  session_create rnd req newId existing s
  = (mkCreateResponse (session_id r) (condition r) (completed r)
                      (negb (completed r)), existing, s) /\
  In r existing /\ samePid (req_prolific_pid req) r = true.
Proof.
  unfold session_create. intros [F|[N F]].
  - rewrite F. apply find_some in F as [I P].
    apply andb_prop in P as [P C]. rewrite C. now repeat split.
  - rewrite N, F. apply find_some in F as [I P].
    apply andb_prop in P as [P C]. apply negb_true_iff in C. rewrite C.
    now repeat split.
Qed.

Lemma find_known_cases pid existing :
  (exists r, In r existing /\ samePid pid r = true) ->
  exists r,
    find (fun x => samePid pid x && completed x) existing = Some r \/
    (find (fun x => samePid pid x && completed x) existing = None /\
     find (fun x => samePid pid x && negb (completed x)) existing = Some r).
Proof.
  intros (r & I & P).
  destruct (find (fun x => samePid pid x && completed x) existing)
    as [d|] eqn:F; [exists d; now left|].
  destruct (find (fun x => samePid pid x && negb (completed x)) existing)
    as [i|] eqn:G; [exists i; now right|].
  exfalso.
  pose proof (find_none _ _ F r I) as A. pose proof (find_none _ _ G r I) as B.
  cbn beta in A, B. rewrite P in A, B. simpl in A, B.
  rewrite A in B. discriminate.
Qed.

Lemma find_unknown pid existing :
  (forall r, In r existing -> samePid pid r = false) ->
  find (fun x => samePid pid x && completed x) existing = None /\
  find (fun x => samePid pid x && negb (completed x)) existing = None.
Proof.
  intro H. split.
  - destruct (find _ existing) as [d|] eqn:F; [|reflexivity].
    apply find_some in F as [I P]. rewrite (H d I) in P. discriminate.
  - destruct (find (fun x => _ && negb _) existing) as [d|] eqn:F;
      [|reflexivity].
    apply find_some in F as [I P]. rewrite (H d I) in P. discriminate.
Qed.

Lemma returning_known rnd req newId existing s :
  (exists r, In r existing /\ samePid (req_prolific_pid req) r = true) ->
  exists r,
    session_create rnd req newId existing s
    = (mkCreateResponse (session_id r) (condition r) (completed r)
                        (negb (completed r)), existing, s).
Proof.
  intro K. destruct (find_known_cases _ _ K) as (r & C).
  exists r. apply (session_create_known rnd req newId existing s r C).
Qed.

(** X4.  A participant who already has a session gets it back: when a
    line of the log carries the request's (non-empty) participant
    identifier, the handler writes nothing, draws no random number, and
    answers with the identifier and the condition of such a line -- a
    completed one, flagged [already_complete], if there is any, otherwise
    an incomplete one, flagged [resumed]. *)
Theorem returning_participant_keeps_session (rnd : nat -> Q)
    (req : CreateRequest) (newId : string) (existing : list SessionRec)
    (s : RState) :
  (exists r, In r existing /\ samePid (req_prolific_pid req) r = true) ->
  exists r,
    In r existing /\ samePid (req_prolific_pid req) r = true /\
    session_create rnd req newId existing s
    = (mkCreateResponse (session_id r) (condition r) (completed r)
                        (negb (completed r)), existing, s) /\
    (completed r = false ->
     forall r', In r' existing -> samePid (req_prolific_pid req) r' = true ->
                completed r' = false).
Proof.
  intro K. destruct (find_known_cases _ _ K) as (r & C).
  destruct (session_create_known rnd req newId existing s r C) as (E & I & P).
  exists r. repeat split; try assumption.
  intros N r' I' P'. destruct C as [F|[F _]].
  - apply find_some in F as [_ F]. rewrite N, andb_false_r in F. discriminate.
  - pose proof (find_none _ _ F r' I') as A. cbn beta in A.
    now rewrite P' in A.
Qed.

Lemma returning_participant_keeps_session_witness :
  exists r,
    In r [sampleSession] /\
    samePid (Some "P1") r = true /\
    session_create (fun _ => 0%Q) (mkCreateRequest (Some "P1") None None None)
                   "s-2" [sampleSession] freshState
    = (mkCreateResponse (session_id r) (condition r) (completed r)
                        (negb (completed r)), [sampleSession], freshState) /\
    (completed r = false ->
     forall r', In r' [sampleSession] -> samePid (Some "P1") r' = true ->
                completed r' = false).
Proof.
  apply (returning_participant_keeps_session (fun _ => 0%Q)
           (mkCreateRequest (Some "P1") None None None) "s-2"
           [sampleSession] freshState).
  exists sampleSession. split; [now left | reflexivity].
Defined.

(** *** One session for each participant *)

Lemma pidsOf_app l1 l2 : pidsOf (l1 ++ l2) = pidsOf l1 ++ pidsOf l2.
Proof. unfold pidsOf. apply flat_map_app. Qed.

Lemma pidsOf_In p log :
  In p (pidsOf log) ->
  exists r, In r log /\ samePid (Some p) r = true.
Proof.
  unfold pidsOf. rewrite in_flat_map. intros (r & I & H).
  exists r. split; [exact I|]. unfold samePid, orNull in *.
  destruct (prolific_pid r) as [sp|]; [|contradiction].
  destruct (truthy sp) eqn:T; [|contradiction].
  destruct H as [<-|[]]. simpl. apply String.eqb_refl.
Qed.

Lemma session_create_new rnd req newId existing s :
  (forall r, In r existing -> samePid (req_prolific_pid req) r = false) ->
  exists c s',
    (if validCondition (req_condition req)
     then (match req_condition req with Some c => c | None => "" end, s)
     else blockRandomize rnd (map toSession existing) s) = (c, s') /\
    session_create rnd req newId existing s
    = (mkCreateResponse newId (Some c) false false,
       existing ++
       [mkSessionRec newId (orNull (req_prolific_pid req))
          (orNull (req_study_id req)) (orNull (req_session_id req)) (Some c)
          (sameCondition (req_condition req) c) false],
       s').
Proof.
  intro U. destruct (find_unknown _ _ U) as [F G].
  unfold session_create. rewrite F, G. unfold bind, ret.
  destruct (validCondition (req_condition req)).
  - eexists _, _. split; reflexivity.
  - destruct (blockRandomize rnd (map toSession existing) s) as [c s'].
    exists c, s'. split; reflexivity.
Qed.

Lemma known_or_unknown pid (existing : list SessionRec) :
  (exists r, In r existing /\ samePid pid r = true) \/
  (forall r, In r existing -> samePid pid r = false).
Proof.
  induction existing as [|x l [(r & I & P)|U]].
  - right. intros r [].
  - left. exists r. split; [now right | exact P].
  - destruct (samePid pid x) eqn:E.
    + left. exists x. split; [now left | exact E].
    + right. intros r [<-|I]; [exact E | now apply U].
Qed.

(** X5.  Each participant has one session: if no two lines of the log
    carry the same non-empty participant identifier, this is still so
    after the handler has served a request, whatever the request. *)
Theorem one_session_per_participant (rnd : nat -> Q) (req : CreateRequest)
    (newId : string) (existing : list SessionRec) (s : RState) :
  NoDup (pidsOf existing) ->
  NoDup (pidsOf (snd (fst (session_create rnd req newId existing s)))).
Proof.
  intro N.
  destruct (known_or_unknown (req_prolific_pid req) existing) as [K|U].
  - destruct (returning_known rnd req newId existing s K) as (r & E).
    now rewrite E.
  - destruct (session_create_new rnd req newId existing s U)
      as (c & s' & _ & E).
    rewrite E. cbn [fst snd]. rewrite pidsOf_app.
    unfold pidsOf at 2. cbn [flat_map prolific_pid]. rewrite app_nil_r.
    destruct (orNull (req_prolific_pid req)) as [p|] eqn:O.
    + assert (Hp : req_prolific_pid req = Some p).
      { unfold orNull in O. destruct (req_prolific_pid req) as [x|];
          [|discriminate]. destruct (truthy x); congruence. }
      replace (orNull (Some p)) with (Some p)
        by (rewrite <- Hp at 2; now rewrite O).
      apply NoDup_app; [exact N | repeat constructor; intros [] |].
      intros x Ix [<-|[]].
      apply pidsOf_In in Ix as (r & I & P).
      rewrite <- Hp in P. rewrite (U r I) in P. discriminate.
    + simpl. now rewrite app_nil_r.
Qed.

Lemma one_session_per_participant_witness :
  NoDup (pidsOf (snd (fst (session_create (fun _ => 0%Q)
           (mkCreateRequest (Some "P2") None None None) "s-2"
           [sampleSession] freshState)))).
Proof.
  apply one_session_per_participant.
  repeat constructor; simpl; tauto.
Defined.

(** *** New sessions *)

Lemma validCondition_In c :
  validCondition (Some c) = true <-> In c CONDITIONS.
Proof.
  unfold validCondition, CONDITIONS. cbn [existsb In]. rewrite orb_false_r.
  split.
  - intro H. apply andb_prop in H as [_ H]. apply orb_prop in H.
    destruct H as [H|H]; apply String.eqb_eq in H; auto.
  - intros [<-|[<-|[]]]; reflexivity.
Qed.

Lemma randomized_not_forced requested c :
  validCondition requested = false -> In c CONDITIONS ->
  sameCondition requested c = false.
Proof.
  intros V I. destruct requested as [r|]; [|reflexivity].
  simpl. destruct (String.eqb_spec r c) as [->|]; [|reflexivity].
  apply validCondition_In in I. congruence.
Qed.

Lemma session_create_fresh (rnd : nat -> Q) (req : CreateRequest)
    (newId : string) (existing : list SessionRec) (s : RState) :
  cache_ok s ->
  (forall r, In r existing -> samePid (req_prolific_pid req) r = false) ->
  exists c s' line,
    session_create rnd req newId existing s
    = (mkCreateResponse newId (Some c) false false, existing ++ [line], s') /\
    In c CONDITIONS /\ cache_ok s' /\
    session_id line = newId /\ condition line = Some c /\
    completed line = false /\
    prolific_pid line = orNull (req_prolific_pid req) /\
    condition_forced line = validCondition (req_condition req) /\
    (validCondition (req_condition req) = true ->
     req_condition req = Some c /\ s' = s) /\
    (validCondition (req_condition req) = false ->
     blockRandomize rnd (map toSession existing) s = (c, s')).
Proof.
  intros C U.
  destruct (session_create_new rnd req newId existing s U)
    as (c & s' & R & E).
  exists c, s'. eexists. split; [exact E|]. cbn [session_id condition
    completed prolific_pid condition_forced].
  destruct (validCondition (req_condition req)) eqn:V.
  - destruct (req_condition req) as [r|] eqn:Q; [|discriminate].
    injection R as <- <-.
    repeat split; try assumption; try discriminate.
    + now apply validCondition_In.
    + simpl. apply String.eqb_refl.
  - pose proof (blockRandomize_label rnd (map toSession existing) s C)
      as [L K].
    rewrite R in L, K. cbn [fst snd] in L, K.
    repeat split; try assumption; try discriminate; try (intros _; exact R).
    now apply randomized_not_forced.
Qed.

(** X6.  A request of a participant without a session creates one, and
    its condition is always one of the two: a request that names
    "detailed" or "simple" gets that condition, marked as forced, and
    draws no random number; any other request gets the condition
    [blockRandomize] chooses, not marked as forced.  The line is appended
    to the log with the fresh identifier, not completed. *)
Theorem new_session_condition (rnd : nat -> Q) (req : CreateRequest)
    (newId : string) (existing : list SessionRec) (s : RState) :
  cache_ok s ->
  (forall r, In r existing -> samePid (req_prolific_pid req) r = false) ->
  exists c s' line,
    session_create rnd req newId existing s
    = (mkCreateResponse newId (Some c) false false, existing ++ [line], s') /\
    In c CONDITIONS /\ cache_ok s' /\
    session_id line = newId /\ condition line = Some c /\
    completed line = false /\
    prolific_pid line = orNull (req_prolific_pid req) /\
    condition_forced line = validCondition (req_condition req) /\
    (validCondition (req_condition req) = true ->
     req_condition req = Some c /\ s' = s) /\
    (validCondition (req_condition req) = false ->
     blockRandomize rnd (map toSession existing) s = (c, s')).
Proof. apply session_create_fresh. Qed.

Lemma new_session_condition_witness :
  exists c s' line,
    session_create (fun _ => 0%Q)
      (mkCreateRequest (Some "P2") None None (Some "DETAILED")) "s-2"
      [sampleSession] freshState
    = (mkCreateResponse "s-2" (Some c) false false,
       [sampleSession] ++ [line], s') /\
    In c CONDITIONS /\ condition_forced line = false.
Proof.
  destruct (new_session_condition (fun _ => 0%Q)
              (mkCreateRequest (Some "P2") None None (Some "DETAILED")) "s-2"
              [sampleSession] freshState)
    as (c & s' & line & E & I & _ & _ & _ & _ & _ & F & _).
  - exact I.
  - intros r [<-|[]]. reflexivity.
  - exists c, s', line. repeat split; assumption.
Defined.

(** *** Block balance with every kind of request *)

Lemma assignedOf_forced log c :
  assignedOf (log ++ [mkSession (Some c) true]) = assignedOf log.
Proof. rewrite assignedOf_app. simpl. apply app_nil_r. Qed.

Lemma Inv_same_assigned m log log' s :
  assignedOf log' = assignedOf log -> Inv m log s -> Inv m log' s.
Proof. unfold Inv. now intros ->. Qed.

Lemma session_create_Inv rnd m req newId log s :
  Inv m (map toSession log) s ->
  let r := session_create rnd req newId log s in
  Inv m (map toSession (snd (fst r))) (snd r) /\
  exists labels,
    assignedOf (map toSession (snd (fst r)))
    = assignedOf (map toSession log) ++ labels.
Proof.
  intros I r. subst r.
  destruct (known_or_unknown (req_prolific_pid req) log) as [K|U].
  - destruct (returning_known rnd req newId log s K) as (r & E).
    rewrite E. cbn [fst snd]. split; [exact I|].
    exists []. now rewrite app_nil_r.
  - destruct I as (C & B & K).
    destruct (session_create_fresh rnd req newId log s C U)
      as (c & s' & line & E & Ic & _ & _ & Hc & _ & _ & Hf & V & R).
    rewrite E. cbn [fst snd]. rewrite map_app. cbn [map].
    replace (toSession line)
      with (mkSession (Some c) (validCondition (req_condition req)))
      by (unfold toSession; now rewrite Hc, Hf).
    destruct (validCondition (req_condition req)) eqn:Q.
    + destruct (V eq_refl) as [_ ->].
      split.
      * apply (Inv_same_assigned m (map toSession log));
          [apply assignedOf_forced | exact (conj C (conj B K))].
      * exists []. now rewrite assignedOf_forced, app_nil_r.
    + specialize (R eq_refl).
      pose proof (createSession_Inv rnd m (map toSession log) s
                    (conj C (conj B K))) as [I' A'].
      unfold createSession, bind, ret in I', A'. rewrite R in I', A'.
      cbn [fst snd] in I', A'. split; [exact I'|].
      exists [c]. exact A'.
Qed.

Lemma serve_Inv rnd m reqs : forall log s,
  Inv m (map toSession log) s ->
  let r := serve rnd reqs log s in
  Inv m (map toSession (snd (fst r))) (snd r) /\
  exists labels,
    assignedOf (map toSession (snd (fst r)))
    = assignedOf (map toSession log) ++ labels.
Proof.
  induction reqs as [|[req newId] reqs IH]; intros log s I; cbn zeta.
  - simpl. split; [exact I|]. exists []. now rewrite app_nil_r.
  - cbn [serve]. unfold bind, ret.
    pose proof (session_create_Inv rnd m req newId log s I) as [I1 (l1 & A1)].
    destruct (session_create rnd req newId log s) as [[resp log1] s1].
    cbn [fst snd] in *.
    pose proof (IH log1 s1 I1) as [I2 (l2 & A2)].
    destruct (serve rnd reqs log1 s1) as [[resps log2] s2].
    cbn [fst snd] in *. split; [exact I2|].
    exists (l1 ++ l2). now rewrite A2, A1, app_assoc.
Qed.

(** X7.  Block balance holds for the handler as a whole: after any
    sequence of requests served one after the other -- returning
    participants, forced previews and randomized new sessions mixed --
    the counted (non-forced) assignments are the old ones followed by new
    ones, and every complete block of four of them that starts at or
    after the old ones holds exactly two "detailed" and two "simple". *)
Theorem served_blocks_balanced (rnd : nat -> Q)
    (reqs : list (CreateRequest * string)) (log : list SessionRec)
    (s : RState) (k : nat) :
  unit_interval rnd -> cache_ok s ->
  let log' := snd (fst (serve rnd reqs log s)) in
  (exists labels,
     assignedOf (map toSession log')
     = assignedOf (map toSession log) ++ labels) /\
  (List.length (assignedOf (map toSession log)) <= k * BLOCK_SIZE ->
   k * BLOCK_SIZE + BLOCK_SIZE <= List.length (assignedOf (map toSession log')) ->
   balanced (blockAt k (assignedOf (map toSession log')))).
Proof.
  intros _ C log'. subst log'.
  pose proof (Inv_start (map toSession log) s C) as I. cbn zeta in I.
  destruct (serve_Inv rnd _ reqs log s I) as ((_ & B & _) & A).
  split; [exact A|].
  intros Hk Hl. apply B; [|exact Hl].
  destruct (Nat.eqb_spec
              (List.length (assignedOf (map toSession log)) mod BLOCK_SIZE) 0);
    unfold BLOCK_SIZE in *; lia.
Qed.

Lemma served_blocks_balanced_witness :
  balanced (blockAt 0 (assignedOf (map toSession
    (snd (fst (serve (fun _ => 0%Q) sampleRequests [] freshState)))))).
Proof.
  apply (served_blocks_balanced (fun _ => 0%Q) sampleRequests [] freshState 0).
  - apply unit_interval_const; [apply Qle_refl | reflexivity].
  - exact I.
  - simpl. lia.
  - vm_compute. lia.
Defined.

(** *** Submitting the estimates *)

Lemma samePid_markCompleted pid r :
  samePid pid (markCompleted r) = samePid pid r.
Proof. reflexivity. Qed.

Lemma toSession_markCompleted r : toSession (markCompleted r) = toSession r.
Proof. reflexivity. Qed.

(** X8.  A submission with a non-empty session identifier appends one
    line to the estimations and marks the sessions with that identifier as
    completed; it adds and removes no session, changes no other field and
    no other session, and leaves what the randomizer counts as it was.  A
    submission without a session identifier is refused with status 400 and
    writes nothing. *)
Theorem submit_marks_session_completed (req : SubmitRequest) (store : Store) :
  let r := estimation_submit req store in
  match orNull (sub_session_id req) with
  | None => r = (SubmitError 400 "session_id required", store)
  | Some sid =>
      fst r = SubmitOk /\
      Forall2 (fun old new =>
                 if String.eqb (session_id old) sid
                 then new = markCompleted old else new = old)
              (sessions store) (sessions (snd r)) /\
      (exists est, estimations (snd r) = estimations store ++ [est] /\
                   est_session_id est = sid /\
                   estimates est = sub_estimates req) /\
      map toSession (sessions (snd r)) = map toSession (sessions store)
  end.
Proof.
  cbn zeta. unfold estimation_submit.
  destruct (orNull (sub_session_id req)) as [sid|]; [|reflexivity].
  cbn [fst snd sessions estimations]. split; [reflexivity|]. split; [|split].
  - induction (sessions store) as [|x l IH]; cbn [map]; constructor;
      [|exact IH].
    now destruct (String.eqb (session_id x) sid).
  - eexists. repeat split.
  - rewrite map_map. apply map_ext. intro x.
    now destruct (String.eqb (session_id x) sid).
Qed.

Lemma find_first_exists {A} (p : A -> bool) l x :
  In x l -> p x = true -> exists y, find p l = Some y.
Proof.
  intros I P. destruct (find p l) as [y|] eqn:F; [now exists y|].
  rewrite (find_none _ _ F x I) in P. discriminate.
Qed.

(** X9.  Who has submitted cannot start again: once the estimates of a
    session have been submitted, a later request to create a session with
    that session's (non-empty) participant identifier is answered
    [already_complete], with the identifier of a completed session of that
    participant, and writes nothing. *)
Theorem completed_participant_is_turned_away (rnd : nat -> Q)
    (sub : SubmitRequest) (store : Store) (r : SessionRec)
    (req : CreateRequest) (newId : string) (s : RState) :
  In r (sessions store) ->
  orNull (sub_session_id sub) = Some (session_id r) ->
  samePid (req_prolific_pid req) r = true ->
  let log := sessions (snd (estimation_submit sub store)) in
  exists d,
    In d log /\ samePid (req_prolific_pid req) d = true /\
    completed d = true /\
    session_create rnd req newId log s
    = (mkCreateResponse (session_id d) (condition d) true false, log, s).
Proof.
  intros I O P log. subst log. unfold estimation_submit. rewrite O.
  cbn [snd sessions].
  set (log := map _ (sessions store)).
  assert (Im : In (markCompleted r) log).
  { unfold log. apply in_map_iff. exists r. split; [|exact I].
    now rewrite String.eqb_refl. }
  destruct (find_first_exists
              (fun x => samePid (req_prolific_pid req) x && completed x)
              log (markCompleted r) Im) as (d & F).
  { now rewrite samePid_markCompleted, P. }
  destruct (session_create_known rnd req newId log s d (or_introl F))
    as (E & Id & Pd).
  apply find_some in F as [_ F]. apply andb_prop in F as [_ Cd].
  exists d. rewrite E, Cd. now repeat split.
Qed.

Lemma completed_participant_is_turned_away_witness :
  exists d,
    completed d = true /\
    session_create (fun _ => 0%Q) (mkCreateRequest (Some "P7") None None None)
      "s-9"
      (sessions (snd (estimation_submit sampleSubmit sampleStore)))
      freshState
    = (mkCreateResponse (session_id d) (condition d) true false,
       sessions (snd (estimation_submit sampleSubmit sampleStore)),
       freshState).
Proof.
  destruct (completed_participant_is_turned_away (fun _ => 0%Q)
              sampleSubmit sampleStore sampleOpenSession
              (mkCreateRequest (Some "P7") None None None) "s-9" freshState)
    as (d & _ & _ & C & E).
  - right. now left.
  - reflexivity.
  - reflexivity.
  - exists d. split; assumption.
Defined.

(** *** The export *)

Lemma getKey_setKey {V} k k' (v : V) obj :
  getKey k (setKey k' v obj)
  = if String.eqb k' k then Some v else getKey k obj.
Proof.
  induction obj as [|[k0 v0] obj IH]; cbn [setKey getKey].
  - reflexivity.
  - destruct (String.eqb_spec k0 k') as [->|N]; cbn [getKey].
    + now destruct (String.eqb k' k).
    + rewrite IH. destruct (String.eqb_spec k0 k) as [->|N']; [|reflexivity].
      destruct (String.eqb_spec k' k); [congruence | reflexivity].
Qed.

Lemma buildEstMap_snoc ests e :
  buildEstMap (ests ++ [e]) = setKey (est_session_id e) e (buildEstMap ests).
Proof. unfold buildEstMap. now rewrite fold_left_app. Qed.

(** X10.  The export joins each session with the estimation submitted
    last for it: in the map built from the estimations, the entry of a
    session identifier is the last estimation that carries it, and there
    is no entry when none does. *)
Theorem export_uses_latest_estimation (ests : list Estimation)
    (sid : string) :
  getKey sid (buildEstMap ests)
  = find (fun e => String.eqb (est_session_id e) sid) (rev ests).
Proof.
  induction ests as [|e ests IH] using rev_ind; [reflexivity|].
  rewrite buildEstMap_snoc, getKey_setKey, rev_app_distr. cbn [rev app find].
  now destruct (String.eqb (est_session_id e) sid).
Qed.

Lemma addHeader_In headers k h :
  In h (addHeader headers k) <-> In h headers \/ h = k.
Proof.
  unfold addHeader. destruct (existsb (String.eqb k) headers) eqn:E.
  - split; [now left|]. intros [I| ->]; [exact I|].
    apply existsb_exists in E as (x & I & X).
    apply String.eqb_eq in X. now subst x.
  - rewrite in_app_iff. cbn [In]. intuition.
Qed.

Lemma addHeader_NoDup headers k :
  NoDup headers -> NoDup (addHeader headers k).
Proof.
  intro N. unfold addHeader.
  destruct (existsb (String.eqb k) headers) eqn:E; [exact N|].
  apply NoDup_app; [exact N | repeat constructor; intros [] |].
  intros x I [<-|[]].
  assert (T : existsb (String.eqb k) headers = true).
  { apply existsb_exists. exists k. split; [exact I | apply String.eqb_refl]. }
  congruence.
Qed.

Lemma addHeaders_spec keys : forall headers,
  NoDup headers ->
  NoDup (fold_left addHeader keys headers) /\
  forall h, In h (fold_left addHeader keys headers)
            <-> In h headers \/ In h keys.
Proof.
  induction keys as [|k keys IH]; intros headers N; cbn [fold_left].
  - split; [exact N|]. intro h. cbn [In]. tauto.
  - destruct (IH (addHeader headers k) (addHeader_NoDup _ _ N)) as [N' I'].
    split; [exact N'|]. intro h. rewrite I', addHeader_In. cbn [In].
    intuition.
Qed.

Lemma collectHeaders_spec rows : forall headers,
  NoDup headers ->
  let result :=
    fold_left (fun headers (r : Row) => fold_left addHeader (map fst r) headers)
              rows headers in
  NoDup result /\
  forall h, In h result
            <-> In h headers \/ exists r, In r rows /\ In h (map fst r).
Proof.
  induction rows as [|r rows IH]; intros headers N; cbn [fold_left].
  - split; [exact N|]. intro h. split; [now left|].
    intros [I|(r & [] & _)]. exact I.
  - destruct (addHeaders_spec (map fst r) headers N) as [N1 I1].
    destruct (IH _ N1) as [N2 I2]. split; [exact N2|].
    intro h. rewrite I2, I1. split.
    + intros [[I|I]|(r' & I & K)].
      * now left.
      * right. exists r. split; [now left | exact I].
      * right. exists r'. split; [now right | exact K].
    + intros [I|(r' & [<-|I] & K)].
      * left. now left.
      * left. now right.
      * right. now exists r'.
Qed.

(** X11.  The header line of the export names every column once: the
    headers hold no name twice, and a name is a header exactly when it is
    a key of some row. *)
Theorem headers_name_every_column_once (rows : list Row) :
  NoDup (collectHeaders rows) /\
  forall h, In h (collectHeaders rows)
            <-> exists r, In r rows /\ In h (map fst r).
Proof.
  destruct (collectHeaders_spec rows [] (NoDup_nil _)) as [N I].
  split; [exact N|]. intro h. unfold collectHeaders. rewrite I.
  cbn [In]. tauto.
Qed.

Lemma readPlain_plain v : forall tail,
  Svg.occurs "," v = false ->
  readPlain (v ++ tail)
  = (v, match tail with
        | String _ rest => Some rest
        | EmptyString => None
        end) \/
  exists c rest, tail = String c rest /\ c <> ","%char.
Proof.
  induction v as [|c v IH]; intros tail H.
  - destruct tail as [|c rest]; [now left|]. cbn [append readPlain].
    destruct (Ascii.eqb_spec c ","); [now left | right; eauto].
  - cbn [Svg.occurs] in H. apply orb_false_elim in H as [C H].
    destruct (IH tail H) as [E|R]; [|now right].
    left. cbn [append readPlain]. now rewrite C, E.
Qed.

Lemma readQuoted_quoted v : forall rest k,
  (rest = "" /\ k = None \/
   exists rest', rest = String "," rest' /\ k = Some rest') ->
  readQuoted (Svg.replaceAll Svg.dquote
                (String Svg.dquote (String Svg.dquote "")) v
              ++ String Svg.dquote rest)
  = (v, k).
Proof.
  induction v as [|c v IH]; intros rest k H.
  - cbn [Svg.replaceAll append readQuoted]. rewrite Ascii.eqb_refl.
    destruct H as [[-> ->]|(rest' & -> & ->)]; reflexivity.
  - cbn [Svg.replaceAll].
    destruct (Ascii.eqb_spec c Svg.dquote) as [->|N].
    + cbn [append readQuoted]. rewrite !Ascii.eqb_refl.
      now rewrite (IH rest k H).
    + cbn [append readQuoted].
      apply Ascii.eqb_neq in N. rewrite N. now rewrite (IH rest k H).
Qed.

Lemma readCell_csvCell v rest k :
  (rest = "" /\ k = None \/
   exists rest', rest = String "," rest' /\ k = Some rest') ->
  readCell (csvCell v ++ rest) = (v, k).
Proof.
  intro H. unfold csvCell.
  destruct (Svg.occurs "," v || Svg.occurs Svg.dquote v) eqn:Q.
  - cbn [append readCell]. rewrite Ascii.eqb_refl.
    rewrite TextFacts.append_assoc. cbn [append].
    now apply readQuoted_quoted.
  - apply orb_false_elim in Q as [Qc Qq].
    assert (P : readPlain (v ++ rest) = (v, k)).
    { destruct (readPlain_plain v rest Qc) as [E|(c & r & E & N)].
      - rewrite E. destruct H as [[-> ->]|(rest' & -> & ->)]; reflexivity.
      - destruct H as [[-> _]|(rest' & -> & _)]; [discriminate|].
        injection E as <- _. congruence. }
    destruct v as [|c v].
    + destruct H as [[-> ->]|(rest' & -> & ->)]; reflexivity.
    + cbn [Svg.occurs] in Qq. apply orb_false_elim in Qq as [C _].
      change (readCell (String c v ++ rest))
        with (if Ascii.eqb c Svg.dquote then readQuoted (v ++ rest)
              else readPlain (String c v ++ rest)).
      now rewrite C.
Qed.

Lemma append_empty_r (s : string) : (s ++ "")%string = s.
Proof. induction s as [|c s IH]; simpl; [reflexivity | now rewrite IH]. Qed.

Lemma joinCells_cons v vals :
  joinCells (v :: vals)
  = (csvCell v ++ match vals with
                  | [] => ""
                  | _ => String "," (joinCells vals)
                  end)%string.
Proof.
  unfold joinCells. destruct vals as [|w vals]; cbn [map String.concat].
  - now rewrite append_empty_r.
  - reflexivity.
Qed.

Lemma readCells_joinCells vals :
  readCells (List.length vals) (joinCells vals) = vals.
Proof.
  induction vals as [|v vals IH]; [reflexivity|].
  cbn [List.length readCells]. rewrite joinCells_cons.
  destruct vals as [|w vals].
  - rewrite (readCell_csvCell v "" None); [reflexivity | now left].
  - rewrite (readCell_csvCell v _ (Some (joinCells (w :: vals))));
      [now rewrite IH | right; eauto].
Qed.

(** X12.  The quoting of the export loses nothing: two lists of as many
    values each that give the same line are the same list.  (A value is
    quoted when it holds a comma or a double quote; a line break alone
    does not get it quoted.) *)
Theorem quoting_loses_nothing (vals1 vals2 : list string) :
  List.length vals1 = List.length vals2 ->
  joinCells vals1 = joinCells vals2 ->
  vals1 = vals2.
Proof.
  intros L E.
  rewrite <- (readCells_joinCells vals1), <- (readCells_joinCells vals2).
  now rewrite L, E.
Qed.

Lemma quoting_loses_nothing_witness :
  rowValues ["x"; "y"] [("y", "c"); ("x", "a,b")] = ["a,b"; "c"].
Proof.
  apply quoting_loses_nothing; reflexivity.
Defined.

End ServerFacts.

(** ** The statistics of the analysis server *)

Module StatsFacts.
Import Stats.
Local Open Scope Q_scope.

(** *** Sorted lists and counting *)

Lemma sortNumbers_sorted arr : StronglySorted Qle (sortNumbers arr).
Proof. apply (ReconcileFacts.sort_by_sorted (fun x : Q => x)). Qed.

Lemma sortNumbers_perm arr : Permutation (sortNumbers arr) arr.
Proof. apply ReconcileFacts.sort_by_perm. Qed.

Lemma sortNumbers_length arr :
  List.length (sortNumbers arr) = List.length arr.
Proof. apply Permutation_length, sortNumbers_perm. Qed.

Lemma countIf_perm p l l' :
  Permutation l l' -> countIf p l = countIf p l'.
Proof.
  unfold countIf. induction 1 as [|x l l' _ IH|x y l|l l' l'' _ IH1 _ IH2];
    cbn [filter].
  - reflexivity.
  - destruct (p x); cbn [List.length]; now rewrite IH.
  - destruct (p x), (p y); reflexivity.
  - now rewrite IH1.
Qed.

Lemma sorted_nth_le s : StronglySorted Qle s ->
  forall i j, (i <= j)%nat -> (j < List.length s)%nat ->
  nth i s 0 <= nth j s 0.
Proof.
  induction 1 as [|a t St IH Fa]; intros i j Hij Hj; [inversion Hj|].
  destruct j as [|j]; [replace i with O by lia; apply Qle_refl|].
  cbn [List.length] in Hj. destruct i as [|i].
  - cbn [nth]. rewrite Forall_forall in Fa. apply Fa, nth_In. lia.
  - cbn [nth]. apply IH; lia.
Qed.

(** In a sorted list, the first [i + 1] values are at most the one at
    index [i]. *)
Lemma count_le_lower s v i :
  StronglySorted Qle s -> (i < List.length s)%nat -> nth i s 0 <= v ->
  (i + 1 <= countIf (fun x => Qle_bool x v) s)%nat.
Proof.
  intro St. revert i. induction St as [|a t St IH Fa]; intros i Hi Hv;
    [inversion Hi|].
  assert (Ha : Qle_bool a v = true).
  { apply Qle_bool_iff. eapply Qle_trans; [|exact Hv].
    apply (sorted_nth_le (a :: t) (SSorted_cons a St Fa) 0 i); [lia | exact Hi]. }
  unfold countIf in *. cbn [filter]. rewrite Ha. cbn [List.length] in *.
  destruct i as [|i]; [lia|].
  specialize (IH i). cbn [nth] in Hv. specialize (IH ltac:(lia) Hv). lia.
Qed.

(** In a sorted list, the values from index [i] on are at least the one
    at index [i]. *)
Lemma count_ge_lower s v i :
  StronglySorted Qle s -> (i < List.length s)%nat -> v <= nth i s 0 ->
  (List.length s - i <= countIf (fun x => Qle_bool v x) s)%nat.
Proof.
  intro St. revert i. induction St as [|a t St IH Fa]; intros i Hi Hv;
    [inversion Hi|].
  unfold countIf in *. cbn [filter List.length] in *.
  destruct i as [|i].
  - cbn [nth] in Hv.
    assert (Ha : Qle_bool v a = true) by now apply Qle_bool_iff.
    rewrite Ha. cbn [List.length].
    destruct t as [|b t]; [cbn; lia|].
    assert (Hb : v <= nth 0 (b :: t) 0).
    { cbn [nth]. eapply Qle_trans; [exact Hv|].
      rewrite Forall_forall in Fa. apply Fa. now left. }
    specialize (IH O ltac:(cbn; lia) Hb). cbn [List.length] in *. lia.
  - cbn [nth] in Hv. specialize (IH i ltac:(lia) Hv).
    destruct (Qle_bool v a); cbn [List.length]; lia.
Qed.

(** In a sorted list, at most [i] values are at most [v] when the one at
    index [i] is above [v]. *)
Lemma count_le_upper s v i :
  StronglySorted Qle s -> (i < List.length s)%nat -> v < nth i s 0 ->
  (countIf (fun x => Qle_bool x v) s <= i)%nat.
Proof.
  intro St. revert i. induction St as [|a t St IH Fa]; intros i Hi Hv;
    [inversion Hi|].
  unfold countIf in *. cbn [filter List.length] in *.
  destruct i as [|i].
  - cbn [nth] in Hv.
    assert (Ha : Qle_bool a v = false).
    { destruct (Qle_bool a v) eqn:E; [|reflexivity].
      apply Qle_bool_iff in E. lra. }
    rewrite Ha.
    destruct t as [|b t]; [cbn; lia|].
    assert (Hb : v < nth 0 (b :: t) 0).
    { cbn [nth]. eapply Qlt_le_trans; [exact Hv|].
      rewrite Forall_forall in Fa. apply Fa. now left. }
    exact (IH O ltac:(cbn; lia) Hb).
  - cbn [nth] in Hv. specialize (IH i ltac:(lia) Hv).
    destruct (Qle_bool a v); cbn [List.length]; lia.
Qed.

(** The value at an index of a sorted list depends on the values only,
    not on their order before sorting. *)
Lemma sorted_nth_perm s1 s2 k :
  StronglySorted Qle s1 -> StronglySorted Qle s2 -> Permutation s1 s2 ->
  (k < List.length s1)%nat ->
  nth k s1 0 == nth k s2 0.
Proof.
  intros S1 S2 P K.
  assert (K2 : (k < List.length s2)%nat)
    by now rewrite <- (Permutation_length P).
  apply Qle_antisym; apply Qnot_lt_le; intro L.
  - pose proof (count_le_lower s2 (nth k s2 0) k S2 K2 (Qle_refl _)) as A.
    pose proof (count_le_upper s1 (nth k s2 0) k S1 K L) as B.
    rewrite (countIf_perm _ _ _ P) in B. lia.
  - pose proof (count_le_lower s1 (nth k s1 0) k S1 K (Qle_refl _)) as A.
    pose proof (count_le_upper s2 (nth k s1 0) k S2 K2 L) as B.
    rewrite (countIf_perm _ _ _ P) in A. lia.
Qed.

(** *** The median *)

Lemma median_cases arr :
  arr <> [] ->
  let s := sortNumbers arr in
  let n := List.length arr in
  let mid := (n / 2)%nat in
  (mid < n)%nat /\
  (((n mod 2 = 1)%nat /\ median arr = nth mid s 0) \/
   ((n mod 2 = 0)%nat /\ (1 <= mid)%nat /\
    median arr = (nth (mid - 1) s 0 + nth mid s 0) / 2)).
Proof.
  intros N s n mid. destruct arr as [|a arr]; [congruence|].
  assert (Hn : (1 <= n)%nat) by (unfold n; cbn; lia).
  assert (Hm : (mid < n)%nat) by (unfold mid; apply Nat.div_lt; lia).
  split; [exact Hm|].
  unfold median. rewrite sortNumbers_length. fold n. fold mid. fold s.
  destruct (Nat.eqb_spec (n mod 2) 0) as [E|E]; cbn [negb].
  - right. split; [exact E|]. split; [|reflexivity].
    unfold mid. assert (2 <= n)%nat by lia. now apply Nat.div_le_lower_bound.
  - left. split; [|reflexivity]. pose proof (Nat.mod_upper_bound n 2). lia.
Qed.

Lemma half_between (a b lo hi : Q) :
  lo <= a -> a <= hi -> lo <= b -> b <= hi ->
  lo <= (a + b) / 2 /\ (a + b) / 2 <= hi.
Proof.
  intros. assert (E : (a + b) / 2 == (a + b) * (1 # 2)) by (field).
  rewrite E. split; lra.
Qed.

Lemma half_order (a b : Q) : a <= b -> a <= (a + b) / 2 /\ (a + b) / 2 <= b.
Proof.
  intros. assert (E : (a + b) / 2 == (a + b) * (1 # 2)) by (field).
  rewrite E. split; lra.
Qed.

(** X13.  The median of no values is 0; the median of some values lies
    between any two bounds that hold for all of them, and at least half of
    the values are at most the median and at least half are at least the
    median. *)
Theorem median_splits_the_values (arr : list Q) :
  median [] = 0 /\
  (arr <> [] ->
   (forall lo hi, Forall (fun x => lo <= x /\ x <= hi) arr ->
                  lo <= median arr /\ median arr <= hi) /\
   (List.length arr <= 2 * countIf (fun x => Qle_bool x (median arr)) arr)%nat /\
   (List.length arr <= 2 * countIf (fun x => Qle_bool (median arr) x) arr)%nat).
Proof.
  split; [reflexivity|]. intro N.
  destruct (median_cases arr N) as [Hm C]. cbn zeta in *.
  pose proof (sortNumbers_sorted arr) as St.
  pose proof (sortNumbers_perm arr) as P.
  pose proof (sortNumbers_length arr) as L.
  set (s := sortNumbers arr) in *. set (n := List.length arr) in *.
  set (mid := (n / 2)%nat) in *.
  assert (D : (n = 2 * mid + n mod 2)%nat) by (unfold mid; apply Nat.div_mod_eq).
  split; [|split].
  - intros lo hi F.
    assert (B : forall i, (i < n)%nat -> lo <= nth i s 0 /\ nth i s 0 <= hi).
    { intros i Hi. rewrite Forall_forall in F. apply F.
      apply (Permutation_in _ P). apply nth_In. lia. }
    destruct C as [[_ ->]|(_ & M1 & ->)].
    + now apply B.
    + destruct (B (mid - 1)%nat ltac:(lia)), (B mid Hm).
      now apply half_between.
  - rewrite <- (countIf_perm _ _ _ P).
    destruct C as [[O ->]|(Ev & M1 & ->)].
    + pose proof (count_le_lower s (nth mid s 0) mid St ltac:(lia)
                    (Qle_refl _)). lia.
    + assert (H1 : nth (mid - 1) s 0 <= nth mid s 0)
        by (apply sorted_nth_le; [exact St | lia | lia]).
      pose proof (count_le_lower s _ (mid - 1) St ltac:(lia)
                    (proj1 (half_order _ _ H1))). lia.
  - rewrite <- (countIf_perm _ _ _ P).
    destruct C as [[O ->]|(Ev & M1 & ->)].
    + pose proof (count_ge_lower s (nth mid s 0) mid St ltac:(lia)
                    (Qle_refl _)). lia.
    + assert (H1 : nth (mid - 1) s 0 <= nth mid s 0)
        by (apply sorted_nth_le; [exact St | lia | lia]).
      pose proof (count_ge_lower s _ mid St ltac:(lia)
                    (proj2 (half_order _ _ H1))). lia.
Qed.

(** X14.  The median depends on the values only, not on their order: two
    arrays with the same values, in any order, have the same median. *)
Theorem median_ignores_order (arr1 arr2 : list Q) :
  Permutation arr1 arr2 -> median arr1 == median arr2.
Proof.
  intro P.
  destruct arr1 as [|a1 t1].
  { apply Permutation_nil in P. subst. reflexivity. }
  destruct arr2 as [|a2 t2].
  { apply Permutation_sym, Permutation_nil in P. discriminate. }
  set (arr1 := a1 :: t1) in *. set (arr2 := a2 :: t2) in *.
  assert (N1 : arr1 <> []) by discriminate.
  assert (N2 : arr2 <> []) by discriminate.
  destruct (median_cases arr1 N1) as [Hm C1].
  destruct (median_cases arr2 N2) as [_ C2]. cbn zeta in *.
  pose proof (Permutation_length P) as L. rewrite <- L in C2.
  assert (Ps : Permutation (sortNumbers arr1) (sortNumbers arr2)).
  { eapply Permutation_trans; [apply sortNumbers_perm|].
    eapply Permutation_trans; [exact P|]. apply Permutation_sym,
      sortNumbers_perm. }
  assert (E : forall k, (k < List.length arr1)%nat ->
                        nth k (sortNumbers arr1) 0 == nth k (sortNumbers arr2) 0).
  { intros k Hk. apply sorted_nth_perm; try apply sortNumbers_sorted;
      [exact Ps | now rewrite sortNumbers_length]. }
  destruct C1 as [[O1 ->]|(E1 & M1 & ->)], C2 as [[O2 ->]|(E2 & M2 & ->)];
    try lia.
  - now apply E.
  - rewrite (E _ Hm), (E (List.length arr1 / 2 - 1)%nat) by lia. reflexivity.
Qed.

Lemma median_ignores_order_witness : median [3; 1; 2] == median [1; 2; 3].
Proof.
  apply median_ignores_order.
  apply perm_trans with [1; 3; 2]; [apply perm_swap | apply perm_skip, perm_swap].
Defined.

(** *** The mean *)

Lemma sum_from l : forall a, fold_left Qplus l a == a + sum l.
Proof.
  unfold sum. induction l as [|x l IH]; intro a; cbn [fold_left]; [lra|].
  rewrite (IH (a + x)), (IH (0 + x)). lra.
Qed.

Lemma sum_cons x l : sum (x :: l) == x + sum l.
Proof. unfold sum at 1. cbn [fold_left]. rewrite sum_from. lra. Qed.

Lemma sum_app l1 l2 : sum (l1 ++ l2) == sum l1 + sum l2.
Proof.
  induction l1 as [|x l1 IH]; cbn [app]; [unfold sum at 2; cbn; lra|].
  rewrite !sum_cons, IH. lra.
Qed.

Lemma len_cons {A} (x : A) l : len (x :: l) == 1 + len l.
Proof.
  unfold len. cbn [List.length]. rewrite Nat2Z.inj_succ, <- Z.add_1_l.
  rewrite inject_Z_plus. reflexivity.
Qed.

Lemma len_app {A} (l1 l2 : list A) : len (l1 ++ l2) == len l1 + len l2.
Proof.
  unfold len. rewrite length_app, Nat2Z.inj_add, inject_Z_plus. reflexivity.
Qed.

Lemma len_nonneg {A} (l : list A) : 0 <= len l.
Proof.
  unfold len. change 0 with (inject_Z 0). rewrite <- Zle_Qle. lia.
Qed.

Lemma len_pos {A} (l : list A) : l <> [] -> 0 < len l.
Proof.
  destruct l as [|x l]; [congruence|]. intros _.
  rewrite len_cons. pose proof (len_nonneg l). lra.
Qed.

Lemma sum_bounds lo hi l :
  Forall (fun x => lo <= x /\ x <= hi) l ->
  lo * len l <= sum l /\ sum l <= hi * len l.
Proof.
  induction 1 as [|x l [Hl Hh] _ [IHl IHh]].
  - split; [change (lo * 0 <= 0) | change (0 <= hi * 0)]; lra.
  - rewrite sum_cons, len_cons. split; lra.
Qed.

Lemma sum_perm l l' : Permutation l l' -> sum l == sum l'.
Proof.
  induction 1 as [|x l l' _ IH|x y l|l l' l'' _ IH1 _ IH2].
  - reflexivity.
  - rewrite !sum_cons, IH. reflexivity.
  - rewrite !sum_cons. lra.
  - now rewrite IH1.
Qed.

Lemma mean_sum arr : arr <> [] -> mean arr * len arr == sum arr.
Proof.
  intro N. pose proof (len_pos arr N) as P.
  destruct arr as [|a arr]; [congruence|]. unfold mean.
  field. lra.
Qed.

Lemma mean_le_iff arr v :
  arr <> [] -> (mean arr <= v <-> sum arr <= v * len arr).
Proof.
  intro N. pose proof (len_pos arr N) as P. rewrite <- (mean_sum arr N).
  split; intro H; [nra|].
  apply Qnot_lt_le. intro L. nra.
Qed.

Lemma mean_ge_iff arr v :
  arr <> [] -> (v <= mean arr <-> v * len arr <= sum arr).
Proof.
  intro N. pose proof (len_pos arr N) as P. rewrite <- (mean_sum arr N).
  split; intro H; [nra|].
  apply Qnot_lt_le. intro L. nra.
Qed.

(** X15.  The mean of no values is 0; the mean of some values lies
    between any two bounds that hold for all of them, and does not depend
    on their order. *)
Theorem mean_within_range (arr : list Q) :
  mean [] = 0 /\
  (arr <> [] ->
   (forall lo hi, Forall (fun x => lo <= x /\ x <= hi) arr ->
                  lo <= mean arr /\ mean arr <= hi) /\
   (forall arr', Permutation arr arr' -> mean arr == mean arr')).
Proof.
  split; [reflexivity|]. intro N. split.
  - intros lo hi F. destruct (sum_bounds lo hi arr F) as [L H].
    split; [now apply mean_ge_iff | now apply mean_le_iff].
  - intros arr' P.
    assert (N' : arr' <> []).
    { intros ->. apply Permutation_sym, Permutation_nil in P. congruence. }
    pose proof (len_pos arr N) as Lp.
    pose proof (mean_sum arr N) as M. pose proof (mean_sum arr' N') as M'.
    assert (E : len arr' == len arr)
      by (unfold len; now rewrite (Permutation_length P)).
    rewrite E, <- (sum_perm _ _ P) in M'.
    apply Qle_antisym; apply Qnot_lt_le; intro L; nra.
Qed.

(** X16.  The overall mean lies between the means of the two groups: the
    mean of two non-empty arrays put together is between their two means. *)
Theorem pooled_mean_between (arr1 arr2 : list Q) :
  arr1 <> [] -> arr2 <> [] -> mean arr1 <= mean arr2 ->
  mean arr1 <= mean (arr1 ++ arr2) /\ mean (arr1 ++ arr2) <= mean arr2.
Proof.
  intros N1 N2 L.
  assert (N : arr1 ++ arr2 <> []).
  { intro E. apply app_eq_nil in E as [E _]. congruence. }
  pose proof (len_pos _ N1) as P1. pose proof (len_pos _ N2) as P2.
  pose proof (mean_sum _ N1) as M1. pose proof (mean_sum _ N2) as M2.
  split.
  - apply mean_ge_iff; [exact N|]. rewrite sum_app, len_app. nra.
  - apply mean_le_iff; [exact N|]. rewrite sum_app, len_app. nra.
Qed.

Lemma pooled_mean_between_witness :
  mean [60; 90] <= mean ([60; 90] ++ [120; 180; 240]) /\
  mean ([60; 90] ++ [120; 180; 240]) <= mean [120; 180; 240].
Proof.
  apply pooled_mean_between; discriminate.
Defined.

(** *** Rounding and [fmtSec] *)

Lemma trunc_nonneg x : 0 <= x -> trunc x = Qfloor x.
Proof.
  destruct x as [n d]. unfold Qle, trunc, Qfloor. cbn [Qnum Qden].
  intro H. apply Z.quot_div_nonneg; lia.
Qed.

Lemma Math_round_range (x : Q) (a b : Z) :
  inject_Z a <= x -> x <= inject_Z b ->
  (a <= Math_round x <= b)%Z.
Proof.
  intros L H. unfold Math_round.
  pose proof (Qfloor_le (x + 1 / 2)) as F.
  pose proof (Qlt_floor (x + 1 / 2)) as G.
  rewrite inject_Z_plus in G. change (inject_Z 1) with 1 in G.
  change (1 / 2) with (1 # 2) in *.
  split.
  - apply Z.lt_succ_r. rewrite Zlt_Qlt. unfold Z.succ.
    rewrite inject_Z_plus. change (inject_Z 1) with 1. lra.
  - apply Z.lt_succ_r. rewrite Zlt_Qlt. unfold Z.succ.
    rewrite inject_Z_plus. change (inject_Z 1) with 1. lra.
Qed.

Lemma Math_round_near (x : Q) :
  x - (1 # 2) < inject_Z (Math_round x) /\ inject_Z (Math_round x) <= x + (1 # 2).
Proof.
  unfold Math_round.
  pose proof (Qfloor_le (x + 1 / 2)) as F.
  pose proof (Qlt_floor (x + 1 / 2)) as G.
  rewrite inject_Z_plus in G. change (inject_Z 1) with 1 in G.
  change (1 / 2) with (1 # 2) in *.
  split; lra.
Qed.

Lemma Math_round_Z (x : Q) (k : Z) : x == inject_Z k -> Math_round x = k.
Proof.
  intro E.
  assert (R : (k <= Math_round x <= k)%Z).
  { apply Math_round_range; rewrite E; apply Qle_refl. }
  lia.
Qed.

Lemma rem_nonneg sec :
  0 <= sec ->
  rem sec 60 == sec - 60 * inject_Z (Math_floor (sec / 60)) /\
  0 <= rem sec 60 /\ rem sec 60 < 60.
Proof.
  intro P. unfold rem, Math_floor.
  assert (Px : 0 <= sec / 60).
  { apply Qle_shift_div_l; [reflexivity | lra]. }
  rewrite (trunc_nonneg _ Px).
  pose proof (Qfloor_le (sec / 60)) as F.
  pose proof (Qlt_floor (sec / 60)) as G.
  rewrite inject_Z_plus in G. change (inject_Z 1) with 1 in G.
  assert (E : sec == 60 * (sec / 60)) by (field).
  set (x := sec / 60) in *. set (f := inject_Z (Qfloor x)) in *.
  split; [reflexivity|]. split; lra.
Qed.

(** X17.  [fmtSec] shows a duration to the nearest second: for a number
    of seconds that is not negative, the minutes [m] and seconds [s] it
    prints are not negative, [s] is at most 60 (a remainder of 59.5 or more
    is printed as 60 seconds), and [60 m + s] is within half a second of
    the duration.  A whole number of seconds is printed exactly, with its
    seconds below 60. *)
Theorem fmtSec_shows_nearest_second (sec : Q) :
  0 <= sec ->
  let m := Math_floor (sec / 60) in
  let s := Math_round (rem sec 60) in
  fmtSec (Some sec)
  = (if (m =? 0)%Z then numText s ++ "s"
     else if (0 <? s)%Z then numText m ++ "m " ++ numText s ++ "s"
     else numText m ++ "m")%string /\
  (0 <= m)%Z /\ (0 <= s <= 60)%Z /\
  sec - (1 # 2) < inject_Z (60 * m + s) /\
  inject_Z (60 * m + s) <= sec + (1 # 2) /\
  forall n : Z, sec == inject_Z n ->
                m = (n / 60)%Z /\ s = (n mod 60)%Z /\ (s < 60)%Z.
Proof.
  intros P m s. split; [reflexivity|].
  destruct (rem_nonneg sec P) as (R & R0 & R60).
  destruct (Math_round_near (rem sec 60)) as [N1 N2]. fold s in N1, N2.
  fold m in R.
  assert (Pm : (0 <= m)%Z).
  { unfold m, Math_floor. change 0%Z with (Qfloor 0).
    apply Qfloor_resp_le. apply Qle_shift_div_l; [reflexivity | lra]. }
  split; [exact Pm|]. split.
  { apply Math_round_range; [exact R0 | apply Qlt_le_weak, R60]. }
  rewrite inject_Z_plus, inject_Z_mult. change (inject_Z 60) with 60.
  split; [lra|]. split; [lra|].
  intros n E.
  assert (Em : m = (n / 60)%Z).
  { unfold m, Math_floor. rewrite (Zdiv_Qdiv n 60).
    apply Qfloor_comp. now rewrite E. }
  assert (Es : s = (n mod 60)%Z).
  { apply Math_round_Z. rewrite R, E, Em, Z.mod_eq by lia.
    unfold Zminus. rewrite inject_Z_plus, inject_Z_opp, inject_Z_mult.
    change (inject_Z 60) with 60. lra. }
  repeat split; [exact Em | exact Es|].
  rewrite Es. apply Z.mod_pos_bound. lia.
Qed.

Lemma fmtSec_shows_nearest_second_witness :
  fmtSec (Some 75) = "1m 15s" /\ fmtSec (Some 119.5) = "1m 60s".
Proof.
  split.
  - rewrite (proj1 (fmtSec_shows_nearest_second 75 ltac:(discriminate))).
    reflexivity.
  - rewrite (proj1 (fmtSec_shows_nearest_second 119.5 ltac:(discriminate))).
    reflexivity.
Defined.

(** *** The counts of the statistics *)

Lemma filter_split {A} (p : A -> bool) l :
  (List.length (filter p l) + List.length (filter (fun x => negb (p x)) l)
   = List.length l)%nat.
Proof.
  induction l as [|x l IH]; cbn [filter]; [reflexivity|].
  destruct (p x); cbn [negb List.length]; lia.
Qed.

Lemma filter_shorter {A} (p : A -> bool) l :
  (List.length (filter p l) <= List.length l)%nat.
Proof. pose proof (filter_split p l). lia. Qed.

Lemma filter_disjoint {A} (p r : A -> bool) l :
  (forall x, p x = true -> r x = false) ->
  (List.length (filter p l) + List.length (filter r l) <= List.length l)%nat.
Proof.
  intro D. induction l as [|x l IH]; cbn [filter]; [reflexivity|].
  destruct (p x) eqn:P; [rewrite (D x P)|destruct (r x)];
    cbn [List.length]; lia.
Qed.

Lemma filter_filter_shorter {A} (p r : A -> bool) l :
  (List.length (filter p (filter r l)) <= List.length (filter p l))%nat.
Proof.
  induction l as [|x l IH]; cbn [filter]; [reflexivity|].
  destruct (r x); cbn [filter]; destruct (p x); cbn [List.length]; lia.
Qed.

Lemma hasCondition_disjoint s :
  hasCondition "detailed" s = true -> hasCondition "simple" s = false.
Proof.
  unfold hasCondition. destruct (Server.condition s) as [c|]; [|discriminate].
  intro H. apply String.eqb_eq in H. now subst c.
Qed.

(** X18.  The counts of the statistics add up: completed and dropped
    sessions together are all the sessions that are not excluded; the
    completed sessions of the two conditions are at most the completed
    ones, and at most the sessions of their condition; the dropout rate is
    a whole percentage between 0 and 100. *)
Theorem stats_counts_add_up (sessions : list Server.SessionRec)
    (excludePids : list string) :
  let d := dataQuality sessions excludePids in
  (completed_sessions d + dropped_sessions d = total_sessions d)%nat /\
  (total_sessions d <= List.length sessions)%nat /\
  (detailed_completed d + simple_completed d <= completed_sessions d)%nat /\
  (detailed_total d + simple_total d <= total_sessions d)%nat /\
  (detailed_completed d <= detailed_total d)%nat /\
  (simple_completed d <= simple_total d)%nat /\
  (0 <= dropout_rate d <= 100)%Z.
Proof.
  cbn zeta. unfold dataQuality.
  cbn [total_sessions completed_sessions dropped_sessions dropout_rate
       detailed_completed simple_completed detailed_total simple_total].
  set (merged := filter _ sessions).
  pose proof (filter_split Server.completed merged) as S.
  split; [exact S|].
  split; [apply filter_shorter|].
  split; [apply filter_disjoint, hasCondition_disjoint|].
  split; [apply filter_disjoint, hasCondition_disjoint|].
  split; [apply filter_filter_shorter|].
  split; [apply filter_filter_shorter|].
  destruct (Nat.ltb_spec 0 (List.length merged)) as [T|T]; [|lia].
  assert (P : 0 < inject_Z (Z.of_nat (List.length merged))).
  { change 0 with (inject_Z 0). rewrite <- Zlt_Qlt. lia. }
  pose proof (len_nonneg (filter (fun s => negb (Server.completed s)) merged))
    as L0.
  assert (L : len (filter (fun s => negb (Server.completed s)) merged)
              <= inject_Z (Z.of_nat (List.length merged))).
  { unfold len. rewrite <- Zle_Qle.
    pose proof (filter_shorter (fun s => negb (Server.completed s)) merged).
    lia. }
  set (dropped := len _) in *. set (total := inject_Z _) in *.
  assert (Q0 : 0 <= dropped / total)
    by (apply Qle_shift_div_l; [exact P | lra]).
  assert (Q1 : dropped / total <= 1)
    by (apply Qle_shift_div_r; [exact P | lra]).
  apply Math_round_range.
  - change (inject_Z 0) with 0. lra.
  - change (inject_Z 100) with 100. lra.
Qed.

End StatsFacts.

(** ** Rendering *)

Module RenderFacts.
Import Text Layout Reconcile Render.
Local Open Scope Q_scope.

(** *** The loops of [computeLayout] as recursions *)

Lemma layoutStep_eq st cx phase es y step :
  layoutStep st cx phase (es, y) step
  = (es ++ [stepElem st cx phase y step], y + advance st step).
Proof.
  unfold layoutStep, stepElem, advance.
  destruct (isDecisionPoint step); reflexivity.
Qed.

Lemma layoutSteps_eq st cx phase l : forall es y,
  fold_left (layoutStep st cx phase) l (es, y)
  = (es ++ stepsElems st cx phase y l, stepsEnd st y l).
Proof.
  induction l as [|step l IH]; intros es y; cbn [fold_left stepsElems stepsEnd].
  - now rewrite app_nil_r.
  - rewrite layoutStep_eq, IH, <- app_assoc. reflexivity.
Qed.

Lemma layoutPhase_eq st cx es y phase :
  layoutPhase st cx (es, y) phase
  = (es ++ stepsElems st cx phase (y + (q CFG.phaseLabelH + q CFG.phasePadY))
             (steps phase)
        ++ [phaseBand st y phase],
     phaseStepsEnd st y phase + q CFG.phasePadY + q CFG.phaseGap).
Proof.
  unfold layoutPhase. rewrite layoutSteps_eq.
  unfold phaseBand, phaseStepsEnd. now rewrite <- app_assoc.
Qed.

Lemma layoutPhases_eq st cx l : forall es y,
  fold_left (layoutPhase st cx) l (es, y)
  = (es ++ phasesElems st cx y l, phasesEnd st y l).
Proof.
  induction l as [|phase l IH]; intros es y;
    cbn [fold_left phasesElems phasesEnd].
  - now rewrite app_nil_r.
  - rewrite layoutPhase_eq, IH. f_equal.
    rewrite <- !app_assoc. reflexivity.
Qed.

Lemma computeLayout_eq PROCESS_MAP st :
  computeLayout PROCESS_MAP st
  = mkLayout
      (Start cx0 (q CFG.canvasPad + q CFG.circleR) (q CFG.circleR)
       :: phasesElems st cx0 y0 (phases PROCESS_MAP)
       ++ [End_ cx0 (phasesEnd st y0 (phases PROCESS_MAP) + q CFG.circleR)
                (q CFG.circleR)])
      FULL_W
      (phasesEnd st y0 (phases PROCESS_MAP)
       + (q CFG.circleR * 2 + q CFG.canvasPad))
      cx0.
Proof.
  unfold computeLayout. fold cx0. fold y0.
  rewrite layoutPhases_eq. reflexivity.
Qed.

(** *** Expanding and collapsing steps *)

Lemma has_nil x : has [] x = false.
Proof. reflexivity. Qed.

Lemma advance_extra st step :
  advance st step
  == advance (collapsed st) step + stepExtra (expandedSteps st) step.
Proof.
  unfold advance, stepExtra, collapsed. cbn [expandedSteps].
  destruct (isDecisionPoint step); [lra|].
  rewrite has_nil. destruct (has (expandedSteps st) (id step)); lra.
Qed.

(** The sum of the extra heights of a list of steps. *)
Lemma stepsEnd_extra st l : forall y y',
  stepsEnd st y l
  == stepsEnd (collapsed st) y' l + (y - y')
     + fold_right (fun step acc => stepExtra (expandedSteps st) step + acc) 0 l.
Proof.
  induction l as [|step l IH]; intros y y'; cbn [stepsEnd fold_right].
  - lra.
  - rewrite (IH (y + advance st step) (y' + advance (collapsed st) step)).
    rewrite (advance_extra st step). lra.
Qed.

Lemma fold_right_extra_app set (l1 l2 : list Step) :
  fold_right (fun step acc => stepExtra set step + acc) 0 (l1 ++ l2)
  == fold_right (fun step acc => stepExtra set step + acc) 0 l1
     + fold_right (fun step acc => stepExtra set step + acc) 0 l2.
Proof.
  induction l1 as [|s l1 IH]; cbn [app fold_right]; [lra|].
  rewrite IH. lra.
Qed.

Lemma phasesEnd_extra st l : forall y y',
  phasesEnd st y l
  == phasesEnd (collapsed st) y' l + (y - y')
     + fold_right (fun step acc => stepExtra (expandedSteps st) step + acc) 0
                  (flat_map steps l).
Proof.
  induction l as [|phase l IH]; intros y y';
    cbn [phasesEnd flat_map fold_right].
  - lra.
  - rewrite fold_right_extra_app.
    rewrite (IH (phaseStepsEnd st y phase + q CFG.phasePadY + q CFG.phaseGap)
                (phaseStepsEnd (collapsed st) y' phase
                 + q CFG.phasePadY + q CFG.phaseGap)).
    unfold phaseStepsEnd.
    rewrite (stepsEnd_extra st (steps phase)
               (y + (q CFG.phaseLabelH + q CFG.phasePadY))
               (y' + (q CFG.phaseLabelH + q CFG.phasePadY))).
    lra.
Qed.

Lemma stepExtra_nonneg set step : 0 <= stepExtra set step.
Proof.
  unfold stepExtra. pose proof (ReconcileFacts.expansionH_nonneg step).
  destruct (isDecisionPoint step); [lra|]. destruct (has set (id step)); lra.
Qed.

Lemma expandedHeight_nonneg PROCESS_MAP set :
  0 <= expandedHeight PROCESS_MAP set.
Proof.
  unfold expandedHeight.
  induction (flat_map steps (phases PROCESS_MAP)) as [|s l IH];
    cbn [fold_right]; [lra|].
  pose proof (stepExtra_nonneg set s). lra.
Qed.

Lemma stepExtra_mono set set' step :
  (forall x, has set x = true -> has set' x = true) ->
  stepExtra set step <= stepExtra set' step.
Proof.
  intro H. unfold stepExtra. pose proof (ReconcileFacts.expansionH_nonneg step).
  destruct (isDecisionPoint step); [lra|].
  destruct (has set (id step)) eqn:E; [rewrite (H _ E); lra|].
  destruct (has set' (id step)); lra.
Qed.

Lemma expandedHeight_mono PROCESS_MAP set set' :
  (forall x, has set x = true -> has set' x = true) ->
  expandedHeight PROCESS_MAP set <= expandedHeight PROCESS_MAP set'.
Proof.
  intro H. unfold expandedHeight.
  induction (flat_map steps (phases PROCESS_MAP)) as [|s l IH];
    cbn [fold_right]; [lra|].
  pose proof (stepExtra_mono set set' s H). lra.
Qed.

Lemma expandedHeight_nil PROCESS_MAP : expandedHeight PROCESS_MAP [] == 0.
Proof.
  unfold expandedHeight.
  induction (flat_map steps (phases PROCESS_MAP)) as [|s l IH];
    cbn [fold_right]; [lra|].
  rewrite IH. unfold stepExtra. rewrite has_nil.
  destruct (isDecisionPoint s); lra.
Qed.

Lemma advance_ext s1 s2 step :
  (forall x, has (expandedSteps s1) x = has (expandedSteps s2) x) ->
  advance s1 step = advance s2 step.
Proof. intro H. unfold advance. now rewrite H. Qed.

Lemma stepsEnd_ext s1 s2 l :
  (forall x, has (expandedSteps s1) x = has (expandedSteps s2) x) ->
  forall y, stepsEnd s1 y l = stepsEnd s2 y l.
Proof.
  intro H. induction l as [|step l IH]; intro y; cbn [stepsEnd];
    [reflexivity|].
  now rewrite (advance_ext s1 s2 step H), IH.
Qed.

Lemma phasesEnd_ext s1 s2 l :
  (forall x, has (expandedSteps s1) x = has (expandedSteps s2) x) ->
  forall y, phasesEnd s1 y l = phasesEnd s2 y l.
Proof.
  intro H. induction l as [|phase l IH]; intro y; cbn [phasesEnd];
    [reflexivity|].
  unfold phaseStepsEnd. now rewrite (stepsEnd_ext s1 s2 _ H), IH.
Qed.

Lemma layout_h_formula PROCESS_MAP s :
  layout_h (computeLayout PROCESS_MAP s)
  == phasesEnd (collapsed s) y0 (phases PROCESS_MAP)
     + (q CFG.circleR * 2 + q CFG.canvasPad)
     + expandedHeight PROCESS_MAP (expandedSteps s).
Proof.
  rewrite computeLayout_eq. cbn [layout_h].
  rewrite (phasesEnd_extra s (phases PROCESS_MAP) y0 y0).
  unfold expandedHeight. lra.
Qed.

(** X19.  Expanding steps makes the map exactly as much taller as the
    expansions are high: the height of the layout is the height of the
    layout with every step collapsed plus the expansion heights of the
    tasks whose identifier is in the set of expanded steps.  That sum is
    never negative and grows with the set, so expanding a step never makes
    the map shorter. *)
Theorem expansion_adds_its_height (PROCESS_MAP : ProcessMap)
    (st : ModuleState) :
  layout_h (computeLayout PROCESS_MAP st)
  == layout_h (computeLayout PROCESS_MAP (collapsed st))
     + expandedHeight PROCESS_MAP (expandedSteps st) /\
  0 <= expandedHeight PROCESS_MAP (expandedSteps st) /\
  forall st', (forall x, has (expandedSteps st) x = true ->
                         has (expandedSteps st') x = true) ->
              layout_h (computeLayout PROCESS_MAP st)
              <= layout_h (computeLayout PROCESS_MAP st').
Proof.
  split; [|split].
  - rewrite (layout_h_formula PROCESS_MAP st),
            (layout_h_formula PROCESS_MAP (collapsed st)).
    change (collapsed (collapsed st)) with (collapsed st).
    change (expandedSteps (collapsed st)) with (@nil string).
    rewrite expandedHeight_nil. lra.
  - apply expandedHeight_nonneg.
  - intros st' H.
    rewrite (layout_h_formula PROCESS_MAP st),
            (layout_h_formula PROCESS_MAP st').
    rewrite (phasesEnd_ext (collapsed st) (collapsed st')) by reflexivity.
    pose proof (expandedHeight_mono PROCESS_MAP _ _ H). lra.
Qed.

Lemma has_app set x y :
  has (set ++ [y]) x = has set x || String.eqb x y.
Proof. unfold has. rewrite existsb_app. cbn. now rewrite orb_false_r. Qed.

Lemma has_setDelete sid set x :
  has (setDelete sid set) x = has set x && negb (String.eqb x sid).
Proof.
  unfold has, setDelete. induction set as [|y set IH]; [reflexivity|].
  cbn [filter existsb].
  destruct (String.eqb_spec y sid) as [->|N]; cbn [negb existsb].
  - rewrite IH. destruct (String.eqb x sid); [|reflexivity].
    cbn. now rewrite !andb_false_r.
  - rewrite IH.
    destruct (String.eqb_spec x y) as [->|N']; [|reflexivity].
    cbn. destruct (String.eqb_spec y sid); [congruence | reflexivity].
Qed.

Lemma has_toggle sid set x :
  has (toggle sid set) x
  = if String.eqb x sid then negb (has set sid) else has set x.
Proof.
  unfold toggle, setAdd. destruct (has set sid) eqn:H.
  - rewrite has_setDelete.
    destruct (String.eqb x sid); cbn; [apply andb_false_r | apply andb_true_r].
  - rewrite has_app.
    destruct (String.eqb_spec x sid) as [->|N]; cbn;
      [apply orb_true_r | apply orb_false_r].
Qed.

Lemma computeLayout_ext PROCESS_MAP st1 st2 :
  (forall x, has (expandedSteps st1) x = has (expandedSteps st2) x) ->
  computeLayout PROCESS_MAP st1 = computeLayout PROCESS_MAP st2.
Proof.
  intro H. unfold computeLayout.
  now rewrite (LayoutFacts.layoutPhases_ext st1 st2) by exact H.
Qed.

Lemma renderedLayout_ext PROCESS_MAP st1 st2 opts :
  (forall x, has (expandedSteps st1) x = has (expandedSteps st2) x) ->
  renderedLayout PROCESS_MAP st1 opts = renderedLayout PROCESS_MAP st2 opts.
Proof.
  intro H. unfold renderedLayout.
  now rewrite (computeLayout_ext PROCESS_MAP st1 st2 H).
Qed.

(** The task groups of a drawing are the steps of the process that are
    not decision points, whatever is expanded and wherever the
    reconciliation has moved them. *)
Lemma taskGroups_steps st phase l : forall y,
  flat_map (fun e => match e with
                     | Task step _ _ _ _ _ _ _ _ => [id step]
                     | _ => []
                     end) (stepsElems st cx0 phase y l)
  = map id (filter (fun s => negb (isDecisionPoint s)) l).
Proof.
  induction l as [|s l IH]; intro y; [reflexivity|].
  cbn [stepsElems flat_map filter]. rewrite IH. unfold stepElem.
  destruct (isDecisionPoint s); reflexivity.
Qed.

Lemma taskGroups_phases st l : forall y,
  flat_map (fun e => match e with
                     | Task step _ _ _ _ _ _ _ _ => [id step]
                     | _ => []
                     end) (phasesElems st cx0 y l)
  = map id (filter (fun s => negb (isDecisionPoint s)) (flat_map steps l)).
Proof.
  induction l as [|phase l IH]; intro y; [reflexivity|].
  cbn [phasesElems flat_map]. rewrite flat_map_app, taskGroups_steps.
  cbn [flat_map phaseBand app]. rewrite IH, filter_app, map_app. reflexivity.
Qed.

Lemma taskGroups_rendered PROCESS_MAP st opts :
  taskGroups (renderedLayout PROCESS_MAP st opts)
  = map id (filter (fun s => negb (isDecisionPoint s))
                   (flat_map steps (phases PROCESS_MAP))).
Proof.
  assert (C : taskGroups (computeLayout PROCESS_MAP st)
              = map id (filter (fun s => negb (isDecisionPoint s))
                               (flat_map steps (phases PROCESS_MAP)))).
  { unfold taskGroups. rewrite computeLayout_eq. cbn [elems flat_map app].
    rewrite flat_map_app, taskGroups_phases. cbn [flat_map].
    now rewrite app_nil_r. }
  unfold renderedLayout.
  destruct (zoneMinHeights opts) as [ms|]; [|exact C].
  destruct (estimationZones opts) as [zs|]; [|exact C].
  cbn [adjustLayoutForZoneMinHeights].
  destruct (ReconcileFacts.adjustLoop_shifting zs
              (computeLayout PROCESS_MAP st) ms)
    as (f & (sigma & _ & _ & _ & V) & E & _).
  rewrite <- C. unfold taskGroups. rewrite E. clear E C.
  induction (elems (computeLayout PROCESS_MAP st)) as [|e l IH];
    [reflexivity|].
  cbn [map flat_map]. rewrite IH. f_equal.
  specialize (V e). destruct (f e); destruct e; cbn in V;
    try contradiction; try reflexivity.
  destruct V as (-> & _). reflexivity.
Qed.

Lemma taskGroup_drawn PROCESS_MAP st opts sid s :
  stepData PROCESS_MAP sid = Some s -> isDecisionPoint s = false ->
  existsb (String.eqb sid) (taskGroups (renderedLayout PROCESS_MAP st opts))
  = true.
Proof.
  intros D N. rewrite taskGroups_rendered. apply existsb_exists.
  unfold stepData in D. apply find_some in D as [I E].
  apply String.eqb_eq in E. exists (id s). split.
  - apply in_map, filter_In. split; [exact I | now rewrite N].
  - rewrite E. apply String.eqb_refl.
Qed.

Lemma clickStep_expanded PROCESS_MAP opts sid st s :
  stepData PROCESS_MAP sid = Some s -> hasExp s = true ->
  isDecisionPoint s = false ->
  expandedSteps (clickStep PROCESS_MAP true opts sid st)
  = toggle sid (expandedSteps st) /\
  lastLayout (clickStep PROCESS_MAP true opts sid st)
  = Some (renderedLayout PROCESS_MAP
            (withExpanded (toggle sid (expandedSteps st)) st) opts).
Proof.
  intros D E N. unfold clickStep.
  rewrite (taskGroup_drawn PROCESS_MAP st opts sid s D N), D, E.
  unfold internalRender. cbn [expandedSteps lastLayout]. split; reflexivity.
Qed.

(** X20.  A click on a step that is drawn as a task (not a decision point)
    and has hidden actions or an error loop switches that step between
    collapsed and expanded and leaves every other step as it was; the map
    is drawn again from the new set.  A second click on the same step
    brings back the first drawing: the same steps are expanded and the
    stored layout is the layout of the state before the two clicks.  A
    click on a step that is drawn as a decision does nothing: only task
    groups are wired. *)
Theorem click_toggles_one_step (PROCESS_MAP : ProcessMap) (opts : Options)
    (sid : string) (st : ModuleState) (s : Step) :
  stepData PROCESS_MAP sid = Some s -> hasExp s = true ->
  let once := clickStep PROCESS_MAP true opts sid st in
  let twice := clickStep PROCESS_MAP true opts sid once in
  (isDecisionPoint s = false ->
   (forall x, has (expandedSteps once) x
              = if String.eqb x sid then negb (has (expandedSteps st) sid)
                else has (expandedSteps st) x) /\
   lastLayout once = Some (renderedLayout PROCESS_MAP once opts) /\
   (forall x, has (expandedSteps twice) x = has (expandedSteps st) x) /\
   lastLayout twice = Some (renderedLayout PROCESS_MAP st opts)) /\
  (Forall (fun s' => id s' = sid -> isDecisionPoint s' = true)
          (flat_map steps (phases PROCESS_MAP)) ->
   once = st).
Proof.
  intros D E once twice. split.
  - intro N.
    destruct (clickStep_expanded PROCESS_MAP opts sid st s D E N) as [E1 L1].
    destruct (clickStep_expanded PROCESS_MAP opts sid once s D E N)
      as [E2 L2].
    fold once in E1, L1. fold twice in E2, L2.
    assert (T : forall x,
               has (expandedSteps twice) x = has (expandedSteps st) x).
    { intro x. rewrite E2, has_toggle, E1, !has_toggle, String.eqb_refl.
      destruct (String.eqb_spec x sid) as [->|N']; [|reflexivity].
      now rewrite negb_involutive. }
    split; [|split; [|split]].
    + intro x. now rewrite E1, has_toggle.
    + rewrite L1. f_equal. apply renderedLayout_ext. intro x.
      cbn [withExpanded expandedSteps]. now rewrite E1.
    + exact T.
    + rewrite L2. f_equal. apply renderedLayout_ext. intro x.
      cbn [withExpanded expandedSteps]. rewrite <- E2. apply T.
  - intro A. subst once. unfold clickStep.
    destruct (existsb _ _) eqn:X; [|reflexivity]. exfalso.
    rewrite taskGroups_rendered in X. apply existsb_exists in X.
    destruct X as (x & I & Ex). apply String.eqb_eq in Ex. subst x.
    apply in_map_iff in I as (s' & Es & I). apply filter_In in I as [I N].
    rewrite Forall_forall in A. rewrite (A s' I Es) in N. discriminate.
Qed.

Lemma click_toggles_one_step_witness :
  has (expandedSteps (clickStep sampleMap true (mkOptions None None) "2.1"
                        sampleState)) "2.1" = true /\
  lastLayout (clickStep sampleMap true (mkOptions None None) "2.1"
                (clickStep sampleMap true (mkOptions None None) "2.1"
                   sampleState))
  = Some (renderedLayout sampleMap sampleState (mkOptions None None)).
Proof.
  destruct (click_toggles_one_step sampleMap (mkOptions None None) "2.1"
              sampleState sampleStep2 eq_refl eq_refl) as (H & _).
  destruct (H eq_refl) as (A & _ & _ & B).
  split; [|exact B].
  rewrite A. reflexivity.
Defined.

(** *** The geometry of a computed layout *)

Ltac consts :=
  cbv [q CFG.canvasPad CFG.phaseGap CFG.phasePadX CFG.phasePadY
       CFG.phaseLabelH CFG.stepW CFG.stepGap CFG.decisionSize CFG.circleR
       CFG.loopOffX PHASE_INNER_W BAND_EXTRA FULL_W cx0 y0 PAD leftPad
       inject_Z Qdiv Qinv Qnum Qden] in *.



Lemma expH_nonneg st step :
  0 <= (if has (expandedSteps st) (id step) then expansionH step else 0).
Proof.
  pose proof (ReconcileFacts.expansionH_nonneg step).
  destruct (has _ _); lra.
Qed.









(** *** The geometry is kept by the reconciliation *)












(** *** What is drawn *)














(** *** The brackets of the zones *)









(** *** The cards of the caller *)











(** *** [renderBlock] *)

Lemma blockStep_eq st cx phase es y step :
  blockStep st cx phase (es, y) step
  = (es ++ [stepElem st cx phase y step], y + blockAdvance st step).
Proof.
  unfold blockStep, stepElem, blockAdvance.
  destruct (isDecisionPoint step); reflexivity.
Qed.

Lemma blockSteps_eq st cx phase l : forall es y,
  fold_left (blockStep st cx phase) l (es, y)
  = (es ++ blockElems st cx phase y l, blockEnd st y l).
Proof.
  induction l as [|step l IH]; intros es y; cbn [fold_left blockElems blockEnd].
  - now rewrite app_nil_r.
  - rewrite blockStep_eq, IH, <- app_assoc. reflexivity.
Qed.

Lemma blockElem_facts st cx phase y step :
  let e := stepElem st cx phase y step in
  isFlow e = true /\ phaseOf e = Some phase /\ stepOf e = Some step /\
  topY e == y /\ topY e <= bottomY e /\
  bottomY e + q CFG.stepGap <= y + blockAdvance st step /\
  leftX e + rightX e == 2 * cx /\
  cx - q CFG.stepW / 2 <= leftX e /\ rightX e <= cx + q CFG.stepW / 2.
Proof.
  unfold stepElem, blockAdvance.
  destruct (isDecisionPoint step).
  - pose proof (ReconcileFacts.qlen_nonneg
                  (wrap (name step) (fl CFG.stepW * 0.65)%float 10)) as L.
    set (n := qlen _) in *.
    cbn [isFlow phaseOf stepOf topY bottomY leftX rightX].
    repeat split; consts; lra.
  - pose proof (ReconcileFacts.stepDims_h_pos step) as H.
    pose proof (expH_nonneg st step) as E.
    set (expH := if has _ _ then _ else _) in *.
    cbn [isFlow phaseOf stepOf topY bottomY leftX rightX].
    repeat split; consts; lra.
Qed.

Lemma blockElems_facts st cx phase l : forall y,
  y <= blockEnd st y l /\
  stepsOf (blockElems st cx phase y l) = l /\
  Forall (fun e => isFlow e = true /\ phaseOf e = Some phase /\
                   y <= topY e /\ topY e <= bottomY e /\
                   bottomY e + q CFG.stepGap <= blockEnd st y l /\
                   leftX e + rightX e == 2 * cx /\
                   cx - q CFG.stepW / 2 <= leftX e /\
                   rightX e <= cx + q CFG.stepW / 2 /\
                   exists step y', In step l /\
                                   e = stepElem st cx phase y' step)
         (blockElems st cx phase y l) /\
  ForallOrdPairs (fun a b => bottomY a + q CFG.stepGap <= topY b)
                 (blockElems st cx phase y l).
Proof.
  induction l as [|step l IH]; intro y; cbn [blockEnd blockElems].
  - split; [apply Qle_refl|]. repeat split; constructor.
  - destruct (IH (y + blockAdvance st step)) as (L & S & F & O).
    destruct (blockElem_facts st cx phase y step)
      as (Ef & Ep & Es & Et & Eb & Eg & Ec & El & Er).
    assert (G : 0 <= q CFG.stepGap) by discriminate.
    split; [lra|]. split; [|split].
    + unfold stepsOf in *. cbn [flat_map]. rewrite Es. cbn [app].
      now rewrite S.
    + constructor.
      * repeat split; try assumption; try lra.
        exists step, y. split; [now left | reflexivity].
      * eapply Forall_impl; [|exact F].
        intros e (Ff & Fp & Ft & Fb & Fg & Fc & Fl & Fr & (s & y' & Is & Ee)).
        repeat split; try assumption; try lra.
        exists s, y'. split; [now right | exact Ee].
    + constructor; [|exact O].
      eapply Forall_impl; [|exact F]. intros e (_ & _ & T & _). lra.
Qed.

Lemma renderBlock_state containerExists stepIds phaseData st :
  fst (renderBlock containerExists stepIds phaseData st)
  = mkModuleState (expandedSteps st) (currentContainerId st) (idPrefix st)
                  (S (blockCounter st)) (lastLayout st).
Proof.
  unfold renderBlock. destruct containerExists; [|reflexivity].
  cbn [negb].
  destruct (filter _ (steps phaseData)) as [|s l]; [reflexivity|].
  now destruct (fold_left _ _ _).
Qed.

(** X25.  [renderBlock] draws the chosen steps of the phase, in the order
    of the phase, as [computeLayout] would draw each of them: every
    element is the element of one of those steps, a task with the same
    box, expansion and all; the elements are centred on the block's centre
    line, lie inside the block's canvas, and follow each other downwards
    with at least a step gap between them.  Nothing is drawn without a
    container or when no step of the phase is chosen.  In every case the
    counter of blocks goes up by one and the rest of the module state is
    left as it was. *)
Theorem block_shows_the_chosen_steps (containerExists : bool)
    (stepIds : list string) (phaseData : Phase) (st : ModuleState) :
  let r := renderBlock containerExists stepIds phaseData st in
  let chosen := filter (fun s => existsb (String.eqb (id s)) stepIds)
                       (steps phaseData) in
  fst r = mkModuleState (expandedSteps st) (currentContainerId st)
                        (idPrefix st) (S (blockCounter st)) (lastLayout st) /\
  match snd r with
  | None => containerExists = false \/ chosen = []
  | Some d =>
      containerExists = true /\
      stepsOf (block_elems d) = chosen /\
      Forall (fun e => isFlow e = true /\ phaseOf e = Some phaseData /\
                       (exists step y, In step chosen /\
                          e = stepElem st (block_cx d) phaseData y step) /\
                       leftX e + rightX e == 2 * block_cx d /\
                       leftPad <= leftX e /\ rightX e + leftPad <= block_w d /\
                       PAD <= topY e /\ topY e <= bottomY e /\
                       bottomY e + PAD <= block_h d)
             (block_elems d) /\
      ForallOrdPairs (fun a b => bottomY a + q CFG.stepGap <= topY b)
                     (block_elems d)
  end.
Proof.
  cbn zeta. split; [apply renderBlock_state|].
  unfold renderBlock. destruct containerExists; [|now left]. cbn [negb].
  set (chosen := filter _ (steps phaseData)).
  destruct chosen as [|s l] eqn:C; [now right|]. rewrite <- C.
  rewrite blockSteps_eq. cbn [app snd block_elems block_cx block_w block_h].
  destruct (blockElems_facts st (leftPad + q CFG.stepW / 2) phaseData chosen PAD)
    as (L & S & F & O).
  split; [reflexivity|]. split; [exact S|]. split; [|exact O].
  eapply Forall_impl; [|exact F].
  intros e (Ff & Fp & Ft & Fb & Fg & Fc & Fl & Fr & Ex).
  assert (G : 0 <= q CFG.stepGap) by discriminate.
  repeat split; try assumption; consts; lra.
Qed.

(** *** Letters and prefixes *)

Lemma decimal_injective n m :
  NilEmpty.string_of_uint (Nat.to_uint n)
  = NilEmpty.string_of_uint (Nat.to_uint m) -> n = m.
Proof.
  intro E. apply (f_equal NilEmpty.uint_of_string) in E.
  rewrite !NilEmpty.usu in E. injection E as E.
  apply (f_equal Nat.of_uint) in E. now rewrite !Unsigned.of_to in E.
Qed.

Lemma zoneLetter_small i :
  (i < 10)%nat -> zoneLetter i = String (ascii_of_nat (65 + i)) "".
Proof.
  intro H. do 10 (destruct i as [|i]; [reflexivity|]). lia.
Qed.

Lemma zoneLetter_big i :
  (10 <= i)%nat ->
  zoneLetter i = NilEmpty.string_of_uint (Nat.to_uint (i + 1)).
Proof.
  intro H. replace i with (10 + (i - 10))%nat by lia. reflexivity.
Qed.

Lemma letter_is_no_number i d :
  (i < 10)%nat -> zoneLetter i <> NilEmpty.string_of_uint d.
Proof.
  intros H E. apply (f_equal NilEmpty.uint_of_string) in E.
  rewrite NilEmpty.usu in E. revert E.
  do 10 (destruct i as [|i]; [discriminate|]). lia.
Qed.

(** X26.  Zones get different labels: the label of a zone is the letter
    at its index in A..J, or its number (index plus one) from the eleventh
    zone on, and two zones with the same label have the same index. *)
Theorem zone_labels_are_distinct (i j : nat) :
  zoneLetter i = zoneLetter j -> i = j.
Proof.
  destruct (Nat.lt_ge_cases i 10) as [Hi|Hi],
           (Nat.lt_ge_cases j 10) as [Hj|Hj]; intro E.
  - rewrite (zoneLetter_small i Hi), (zoneLetter_small j Hj) in E.
    injection E as E. apply (f_equal nat_of_ascii) in E.
    rewrite !nat_ascii_embedding in E by lia. lia.
  - rewrite (zoneLetter_big j Hj) in E. now apply letter_is_no_number in E.
  - rewrite (zoneLetter_big i Hi) in E. symmetry in E.
    now apply letter_is_no_number in E.
  - rewrite (zoneLetter_big i Hi), (zoneLetter_big j Hj) in E.
    apply decimal_injective in E. lia.
Qed.

Lemma zone_labels_are_distinct_witness :
  zoneLetter 2 = "C" /\ zoneLetter 10 = "11" /\ 7%nat = 7%nat.
Proof.
  split; [reflexivity|]. split; [reflexivity|].
  apply (zone_labels_are_distinct 7 7). reflexivity.
Defined.

Lemma renderBlock_bid containerExists stepIds phaseData st d :
  snd (renderBlock containerExists stepIds phaseData st) = Some d ->
  bid d = ("blk" ++ NilEmpty.string_of_uint
                      (Nat.to_uint (blockCounter st)))%string.
Proof.
  unfold renderBlock. destruct (negb containerExists); [discriminate|].
  destruct (filter _ (steps phaseData)) as [|s l]; [discriminate|].
  destruct (fold_left _ _ _). intro E. now injection E as <-.
Qed.

(** X27.  The identifiers of two blocks never clash, nor with those of
    the main map: a block drawn by [renderBlock] gets the prefix "blk"
    followed by the counter of blocks, which is never the prefix "pm" of
    the main map; blocks drawn at different values of the counter get
    different prefixes, and so does a block drawn right after another. *)
Theorem block_prefixes_never_clash (c1 c2 : bool) (ids1 ids2 : list string)
    (phase1 phase2 : Phase) (st1 st2 : ModuleState) (d1 d2 : BlockDrawing) :
  snd (renderBlock c1 ids1 phase1 st1) = Some d1 ->
  snd (renderBlock c2 ids2 phase2 st2) = Some d2 ->
  bid d1 <> "pm" /\
  (blockCounter st1 <> blockCounter st2 -> bid d1 <> bid d2) /\
  (st2 = fst (renderBlock c1 ids1 phase1 st1) -> bid d1 <> bid d2).
Proof.
  intros R1 R2.
  rewrite (renderBlock_bid _ _ _ _ _ R1), (renderBlock_bid _ _ _ _ _ R2).
  assert (D : blockCounter st1 <> blockCounter st2 ->
              ("blk" ++ NilEmpty.string_of_uint (Nat.to_uint (blockCounter st1)))%string
              <> ("blk" ++ NilEmpty.string_of_uint
                             (Nat.to_uint (blockCounter st2)))%string).
  { intros N E. cbn [append] in E. injection E as E.
    now apply decimal_injective in E. }
  split; [discriminate|]. split; [exact D|].
  intros ->. apply D. rewrite renderBlock_state. cbn [blockCounter]. lia.
Qed.

Lemma block_prefixes_never_clash_witness :
  option_map bid (snd sampleBlock) = Some "blk0" /\
  option_map bid (snd sampleBlockAgain) = Some "blk1" /\
  bid (drawingOf sampleBlock) <> bid (drawingOf sampleBlockAgain).
Proof.
  split; [reflexivity|]. split; [reflexivity|].
  exact (proj2 (proj2 (block_prefixes_never_clash true true ["2.1"] ["2.1"]
           sampleBlockPhase sampleBlockPhase sampleState (fst sampleBlock)
           (drawingOf sampleBlock) (drawingOf sampleBlockAgain)
           eq_refl eq_refl)) eq_refl).
Defined.

End RenderFacts.
